(** * octant: track collections, subset selection, matching and density

    A shallow embedding of [octant.core.TrackRun] (src/octant/core.py) and
    of the helpers of src/octant/misc.py that it calls.

    Conventions of the embedding.
    - A pandas frame with the (track_idx, row_idx) MultiIndex is the list of
      its rows, in frame order; [gb] is [groupby("track_idx")], whose groups
      come in ascending key order, each with its rows in frame order.
    - Track ids and timestamps (nanoseconds) are integers ([Z]).
    - A finite float64 is a rational ([Q]); comparisons of finite floats are
      exact, and NumPy arithmetic is read as exact rational arithmetic.
      A NaN, where the code can produce one, is [None].
    - An exception is a value of [exn]; code that can raise returns
      [result]; code that mutates a TrackRun and can raise lives in the
      state-and-error monad [M], which keeps the state reached at the raise.
    - Functions of the modules that core.py imports and that are not at
      hand (octant.utils, octant.grid, octant.params, the pandas group
      filters of the genesis and lysis densities) are parameters of the
      sections that use them. The few notions of octant.parts that the code
      leans on (the grouping by track, frames made of plain tables, the
      tracking settings) are modelled, and their comments say so. *)

From Stdlib Require Import List ZArith QArith Qround Bool String Lia Lqa Arith
  Sorted.
Import ListNotations.

Set Implicit Arguments.

(* ================================================================= *)
(** ** Exceptions and results *)

Inductive exn : Type :=
| ArgumentError
| ConcatenationError
| GridError
| NotCategorisedError
| SelectError (label : string)
| AttributeError
| KeyError
| TypeError
| IndexError
| NameError
| ValueError.

Inductive result (A : Type) : Type :=
| Ok (a : A)
| Raise (e : exn).

Arguments Ok {A} a.
Arguments Raise {A} e.

Definition rbind {A B : Type} (r : result A) (k : A -> result B) : result B :=
  match r with
  | Ok a => k a
  | Raise e => Raise e
  end.

Declare Scope result_scope.
Delimit Scope result_scope with result.
Notation "x <- r ;; k" := (rbind r (fun x => k))
  (at level 61, r at next level, right associativity) : result_scope.

(* ================================================================= *)
(** ** Floats as rationals *)

Definition Qltb (a b : Q) : bool := negb (Qle_bool b a).

(* ================================================================= *)
(** ** Data model *)

(** One record of a track: the columns lon, lat, time and the remaining
    named columns. *)
Record Point : Type := mkPoint {
  lon : Q;
  lat : Q;
  time : Z;
  attrs : list (string * Q)
}.

(** One row of an [OctantTrack] frame: the two index levels and the record. *)
Record Row : Type := mkRow {
  track_idx : Z;
  row_idx : Z;
  rec : Point
}.

Definition OctantTrack : Type := list Row.

(** The categories frame [TrackRun.cats]: one boolean column per label, one
    row per track id. *)
Record CatTable : Type := mkCats {
  cat_columns : list string;
  cat_rows : list (Z * list bool)
}.

(** Modelled from the spec: [octant.parts.TrackSettings] is not at hand.
    The configuration of a tracking run is taken as a table of named fields,
    each holding a value or Python's None. *)
Definition TrackSettings : Type := list (string * option Z).

Record TrackRun : Type := mkTrackRun {
  data : OctantTrack;
  cats : option CatTable;
  is_categorised : bool;
  is_cat_inclusive : bool;
  tstep_h : option Q;          (* None: attribute absent or None *)
  conf : option TrackSettings;
  sources : list string
}.

(** [TrackRun.__init__] with [dirname=None]. *)
Definition init : TrackRun :=
  {| data := []; cats := None; is_categorised := false;
     is_cat_inclusive := false; tstep_h := None; conf := None;
     sources := [] |}.

(* ================================================================= *)
(** ** pandas helpers *)

(** Ascending list of the distinct keys. *)
Fixpoint insert_key (k : Z) (ks : list Z) : list Z :=
  match ks with
  | [] => [k]
  | h :: t =>
      if (k <? h)%Z then k :: ks
      else if (k =? h)%Z then ks
      else h :: insert_key k t
  end.

Definition group_keys (d : OctantTrack) : list Z :=
  fold_right insert_key [] (map track_idx d).

Definition rows_of (k : Z) (d : OctantTrack) : list Row :=
  filter (fun r => (track_idx r =? k)%Z) d.

(** Modelled from the spec: the property [gb] of [octant.parts.OctantTrack]
    is not at hand. A track collection maps the track ids to the tracks;
    [gb] is taken as pandas' [groupby("track_idx")], which yields the pairs
    (key, sub-frame) in ascending key order. *)
Definition gb (d : OctantTrack) : list (Z * list Row) :=
  map (fun k => (k, rows_of k d)) (group_keys d).

(** [Series.nunique()]. *)
Definition nunique (l : list Z) : nat := List.length (nodup Z.eq_dec l).

(** [Series.shift()]: the first entry becomes NaN. *)
Definition shift (l : list Z) : list (option Z) :=
  match l with
  | [] => []
  | _ :: _ => None :: map Some (removelast l)
  end.

(** [Series.ne(other)], element by element; a NaN differs from everything. *)
Fixpoint ne (l : list Z) (s : list (option Z)) : list bool :=
  match l, s with
  | x :: l', Some y :: s' => negb (x =? y)%Z :: ne l' s'
  | _ :: l', None :: s' => true :: ne l' s'
  | _, _ => []
  end.

(** [Series.cumsum()] of a boolean series. *)
Fixpoint cumsum_from (acc : Z) (l : list bool) : list Z :=
  match l with
  | [] => []
  | b :: l' =>
      let acc' := (acc + (if b then 1 else 0))%Z in
      acc' :: cumsum_from acc' l'
  end.

Definition cumsum (l : list bool) : list Z := cumsum_from 0%Z l.

(** [idx.ne(idx.shift()).cumsum() - 1] (core.py lines 331 and 342). *)
Definition renumber (ids : list Z) : list Z :=
  map (fun c => (c - 1)%Z) (cumsum (ne ids (shift ids))).

(** [new_data.set_index(mux)] with the new first level and the old second
    level of the index. *)
Fixpoint set_track_idx (ids : list Z) (d : OctantTrack) : OctantTrack :=
  match ids, d with
  | i :: ids', r :: d' =>
      {| track_idx := i; row_idx := row_idx r; rec := rec r |}
        :: set_track_idx ids' d'
  | _, _ => []
  end.

Definition reindex (d : OctantTrack) : OctantTrack :=
  set_track_idx (renumber (map track_idx d)) d.

(* ----------------------------------------------------------------- *)
(** *** The categories frame *)

Definition has_column (label : string) (c : CatTable) : bool :=
  existsb (String.eqb label) (cat_columns c).

Fixpoint index_of (label : string) (cols : list string) : option nat :=
  match cols with
  | [] => None
  | h :: t =>
      if String.eqb label h then Some O
      else option_map S (index_of label t)
  end.

(** The flag of one row under [label], for a label that names one column
    of the frame; an absent column reads as the [fillna(False)] default.
    Under a label that names several columns, [cats[label]] is a frame and
    not a column: the statements on selections take the labels of the
    columns as distinct. *)
Definition cell (cols : list string) (flags : list bool) (label : string)
  : bool :=
  match index_of label cols with
  | Some i => nth i flags false
  | None => false
  end.

(** [cats[label]]: the boolean column, one flag per row. *)
Definition cat_column (label : string) (c : CatTable) : list bool :=
  map (fun r => cell (cat_columns c) (snd r) label) (cat_rows c).

(** [cats[selected].index]: the ids of the rows whose mask is true. *)
Fixpoint masked_index (rows : list (Z * list bool)) (mask : list bool)
  : list Z :=
  match rows, mask with
  | r :: rows', true :: mask' => fst r :: masked_index rows' mask'
  | _ :: rows', false :: mask' => masked_index rows' mask'
  | _, _ => []
  end.

(** [data.loc[idx, :]], for ids [idx] that all have rows in [d]: the rows
    whose track id is one of [idx]. pandas returns them track by track in
    the order of [idx], once for every occurrence of an id in [idx], and
    raises a KeyError for an id without rows: the statements on what a
    selection returns take the selected ids as present in [d] and speak of
    the rows track by track. *)
Definition loc (idx : list Z) (d : OctantTrack) : OctantTrack :=
  filter (fun r => existsb (Z.eqb (track_idx r)) idx) d.

(** Columns of [pd.concat([a, b], sort=False)]: those of [a], then the new
    ones of [b]. *)
Definition union_columns (a b : list string) : list string :=
  a ++ filter (fun l => negb (existsb (String.eqb l) a)) b.

Definition realign (cols : list string) (c : CatTable)
  : list (Z * list bool) :=
  map (fun r => (fst r, map (cell (cat_columns c) (snd r)) cols))
      (cat_rows c).

(** [pd.concat([a, b], sort=False).fillna(False)]; a None operand is
    dropped by pandas. *)
Definition concat_cats (a b : option CatTable) : CatTable :=
  match a, b with
  | Some ca, Some cb =>
      let cols := union_columns (cat_columns ca) (cat_columns cb) in
      {| cat_columns := cols;
         cat_rows := realign cols ca ++ realign cols cb |}
  | Some ca, None => ca
  | None, Some cb => cb
  | None, None => {| cat_columns := []; cat_rows := [] |}
  end.

Fixpoint set_cat_idx (ids : list Z) (rows : list (Z * list bool))
  : list (Z * list bool) :=
  match ids, rows with
  | i :: ids', r :: rows' => (i, snd r) :: set_cat_idx ids' rows'
  | _, _ => []
  end.

Definition reindex_cats (c : CatTable) : CatTable :=
  {| cat_columns := cat_columns c;
     cat_rows := set_cat_idx (renumber (map fst (cat_rows c))) (cat_rows c) |}.

(* ================================================================= *)
(** ** Subset selection: [TrackRun.__getitem__], [__len__], [size],
       [cat_labels] *)

(** What a caller can pass as [subset]: None, [slice(None)], a string or a
    list of strings. *)
Inductive subset_arg : Type :=
| SubNone
| SubSliceAll
| SubStr (s : string)
| SubList (l : list string).

(** [subset in [slice(None), None, "all"]]. *)
Definition selects_all (subset : subset_arg) : bool :=
  match subset with
  | SubNone | SubSliceAll => true
  | SubStr s => String.eqb s "all"
  | SubList _ => false
  end.

(** [TrackRun.__len__]. *)
Definition len (self : TrackRun) : nat :=
  nunique (map track_idx (data self)).

(** [TrackRun.cat_labels]. *)
Definition cat_labels (self : TrackRun) : list string :=
  match cats self with
  | Some c => cat_columns c
  | None => []
  end.

(** [selected &= self.cats[label]]; [None] is the initial Python [True]. *)
Definition and_mask (selected : option (list bool)) (col : list bool)
  : list bool :=
  match selected with
  | None => col
  | Some m => map (fun p => andb (fst p) (snd p)) (combine m col)
  end.

(** The loop of lines 134-139. *)
Fixpoint select_loop (c : CatTable) (selected : option (list bool))
  (subsets : list string) : result (option (list bool)) :=
  match subsets with
  | [] => Ok selected
  | label :: rest =>
      if negb (has_column label c) then Raise (SelectError label)
      else select_loop c (Some (and_mask selected (cat_column label c))) rest
  end.

Definition subset_labels (subset : subset_arg) : list string :=
  match subset with
  | SubStr s => [s]
  | SubList l => l
  | SubNone | SubSliceAll => []
  end.

(** [TrackRun.__getitem__]. *)
Definition getitem (self : TrackRun) (subset : subset_arg)
  : result OctantTrack :=
  if selects_all subset || (len self =? 0)%nat then Ok (data self)
  else if is_categorised self then
    match cats self with
    | None => Raise AttributeError          (* None has no [columns] *)
    | Some c =>
        (selected <- select_loop c None (subset_labels subset) ;;
         match selected with
         | None => Raise KeyError           (* [cats[True]] *)
         | Some mask => Ok (loc (masked_index (cat_rows c) mask) (data self))
         end)%result
    end
  else Raise NotCategorisedError.

(** [TrackRun.size]. *)
Definition size (self : TrackRun) (subset : subset_arg) : result nat :=
  (d <- getitem self subset ;; Ok (nunique (map track_idx d)))%result.

(* ================================================================= *)
(** ** The state-and-error monad of the mutating methods *)

Definition M (A : Type) : Type := TrackRun -> result A * TrackRun.

Definition ret {A : Type} (a : A) : M A := fun s => (Ok a, s).

Definition bind {A B : Type} (m : M A) (k : A -> M B) : M B :=
  fun s =>
    match m s with
    | (Ok a, s') => k a s'
    | (Raise e, s') => (Raise e, s')
    end.

Definition raise {A : Type} (e : exn) : M A := fun s => (Raise e, s).
Definition get : M TrackRun := fun s => (Ok s, s).
Definition modify (f : TrackRun -> TrackRun) : M unit := fun s => (Ok tt, f s).
Definition lift {A : Type} (r : result A) : M A := fun s => (r, s).
Definition when (b : bool) (m : M unit) : M unit := if b then m else ret tt.

Declare Scope monad_scope.
Delimit Scope monad_scope with monad.
Notation "x <- m ;; k" := (bind m (fun x => k))
  (at level 61, m at next level, right associativity) : monad_scope.
Notation "m ;;; k" := (bind m (fun _ => k))
  (at level 61, right associativity) : monad_scope.

(** Attribute assignments on [self]. *)
Definition set_data (d : OctantTrack) (s : TrackRun) : TrackRun :=
  {| data := d; cats := cats s; is_categorised := is_categorised s;
     is_cat_inclusive := is_cat_inclusive s; tstep_h := tstep_h s;
     conf := conf s; sources := sources s |}.

Definition set_cats (c : option CatTable) (s : TrackRun) : TrackRun :=
  {| data := data s; cats := c; is_categorised := is_categorised s;
     is_cat_inclusive := is_cat_inclusive s; tstep_h := tstep_h s;
     conf := conf s; sources := sources s |}.

Definition set_is_categorised (b : bool) (s : TrackRun) : TrackRun :=
  {| data := data s; cats := cats s; is_categorised := b;
     is_cat_inclusive := is_cat_inclusive s; tstep_h := tstep_h s;
     conf := conf s; sources := sources s |}.

Definition set_is_cat_inclusive (b : bool) (s : TrackRun) : TrackRun :=
  {| data := data s; cats := cats s; is_categorised := is_categorised s;
     is_cat_inclusive := b; tstep_h := tstep_h s;
     conf := conf s; sources := sources s |}.

Definition set_tstep_h (t : option Q) (s : TrackRun) : TrackRun :=
  {| data := data s; cats := cats s; is_categorised := is_categorised s;
     is_cat_inclusive := is_cat_inclusive s; tstep_h := t;
     conf := conf s; sources := sources s |}.

Definition set_conf (c : option TrackSettings) (s : TrackRun) : TrackRun :=
  {| data := data s; cats := cats s; is_categorised := is_categorised s;
     is_cat_inclusive := is_cat_inclusive s; tstep_h := tstep_h s;
     conf := c; sources := sources s |}.

Definition set_sources (l : list string) (s : TrackRun) : TrackRun :=
  {| data := data s; cats := cats s; is_categorised := is_categorised s;
     is_cat_inclusive := is_cat_inclusive s; tstep_h := tstep_h s;
     conf := conf s; sources := l |}.

(* ================================================================= *)
(** ** [TrackRun.extend] and [TrackRun.__add__] *)

(** [getattr(conf, field)]. *)
Fixpoint conf_getattr (c : TrackSettings) (field : string)
  : result (option Z) :=
  match c with
  | [] => Raise AttributeError
  | (f, v) :: c' => if String.eqb f field then Ok v else conf_getattr c' field
  end.

(** [setattr(conf, field, None)]. *)
Fixpoint conf_clear (c : TrackSettings) (field : string) : TrackSettings :=
  match c with
  | [] => []
  | (f, v) :: c' =>
      if String.eqb f field then (f, None) :: c'
      else (f, v) :: conf_clear c' field
  end.

Definition value_eqb (a b : option Z) : bool :=
  match a, b with
  | Some x, Some y => (x =? y)%Z
  | None, None => true
  | _, _ => false
  end.

(** The loop of lines 324-326 over [self.conf._fields]; the settings of
    [self] are updated in place, so the fields cleared before a raise stay
    cleared. *)
Fixpoint adapt_fields (fields : list string) (mine theirs : TrackSettings)
  : result unit * TrackSettings :=
  match fields with
  | [] => (Ok tt, mine)
  | field :: rest =>
      match conf_getattr mine field with
      | Raise e => (Raise e, mine)
      | Ok a =>
          match conf_getattr theirs field with
          | Raise e => (Raise e, mine)
          | Ok b =>
              if negb (value_eqb a b)
              then adapt_fields rest (conf_clear mine field) theirs
              else adapt_fields rest mine theirs
          end
      end
  end.

Definition tstep_differs (a b : Q) : bool := negb (Qeq_bool a b).

(** Lines 302-311: the categorisation metadata. *)
Definition check_cat_metadata (other : TrackRun) : M unit :=
  (self <- get ;;
   n_self <- lift (size self SubNone) ;;
   n_other <- lift (size other SubNone) ;;
   if (0 <? n_self)%nat && (0 <? n_other)%nat then
     (if negb (Bool.eqb (is_cat_inclusive self) (is_cat_inclusive other))
      then raise ConcatenationError
      else if negb (Bool.eqb (is_categorised self) (is_categorised other))
      then raise ConcatenationError
      else ret tt)
   else if (0 <? n_other)%nat then
     (modify (set_is_cat_inclusive (is_cat_inclusive other)) ;;;
      modify (set_is_categorised (is_categorised other)))
   else ret tt)%monad.

(** Lines 312-319: the time step. *)
Definition check_tstep (other : TrackRun) : M unit :=
  (self <- get ;;
   match tstep_h self with
   | None => modify (set_tstep_h (tstep_h other))
   | Some mine =>
       match tstep_h other with
       | None => ret tt
       | Some theirs =>
           if tstep_differs mine theirs then raise ConcatenationError
           else ret tt
       end
   end)%monad.

(** Lines 320-326: the tracking settings. *)
Definition merge_conf (other : TrackRun) (adapt_conf : bool) : M unit :=
  (self <- get ;;
   match conf other with
   | Some theirs =>
       if adapt_conf then
         match conf self with
         | None => modify (set_conf (Some theirs))
         | Some mine =>
             let '(r, mine') := adapt_fields (map fst mine) mine theirs in
             modify (set_conf (Some mine')) ;;; lift r
         end
       else ret tt
   | None => ret tt
   end)%monad.

(** Lines 329-336: concatenation and re-indexing of the tracks. *)
Definition concat_data (other : TrackRun) : M unit :=
  (self <- get ;;
   let new_data := data self ++ data other in
   modify (set_data (reindex new_data)))%monad.

(** Lines 339-345: concatenation and re-indexing of the categories. *)
Definition concat_categories (other : TrackRun) : M unit :=
  (self <- get ;;
   match cats self, cats other with
   | None, None => ret tt
   | a, b => modify (set_cats (Some (reindex_cats (concat_cats a b))))
   end)%monad.

Definition extend (other : TrackRun) (adapt_conf : bool) : M unit :=
  (check_cat_metadata other ;;;
   check_tstep other ;;;
   merge_conf other adapt_conf ;;;
   modify (fun s => set_sources (sources s ++ sources other) s) ;;;
   concat_data other ;;;
   concat_categories other)%monad.

(** [TrackRun.__add__]: the new TrackRun, or the exception of one of the
    two [extend] calls. *)
Definition add (self other : TrackRun) : result TrackRun :=
  match extend self true init with
  | (Raise e, _) => Raise e
  | (Ok _, new) =>
      match extend other true new with
      | (Raise e, _) => Raise e
      | (Ok _, new') => Ok new'
      end
  end.

(* ================================================================= *)
(** ** Python dictionaries keyed by category label *)

(** [d[k] = v]: an existing key keeps its place, a new key goes last. *)
Fixpoint dict_set {V : Type} (k : string) (v : V) (d : list (string * V))
  : list (string * V) :=
  match d with
  | [] => [(k, v)]
  | (k', v') :: d' =>
      if String.eqb k k' then (k, v) :: d'
      else (k', v') :: dict_set k v d'
  end.

Fixpoint dict_get {V : Type} (k : string) (d : list (string * V))
  : option V :=
  match d with
  | [] => None
  | (k', v') :: d' => if String.eqb k k' then Some v' else dict_get k d'
  end.

(** The dispatch loop of [match_tracks] and [density]:
    [for subset_key in labels: result[subset_key] = call(subset_key)],
    where the first call that raises ends the loop. A call answers [None]
    when the recursion budget of the embedding is spent. *)
Fixpoint dispatch {V : Type} (call : string -> option (result V))
  (labels : list string) (acc : list (string * V))
  : option (result (list (string * V))) :=
  match labels with
  | [] => Some (Ok acc)
  | key :: rest =>
      match call key with
      | Some (Ok v) => dispatch call rest (dict_set key v acc)
      | Some (Raise e) => Some (Raise e)
      | None => None
      end
  end.

(* ================================================================= *)
(** ** [TrackRun.match_tracks] *)

Definition group : Type := (Z * list Row)%type.

(** Modelled from the spec: [octant.parts.OctantTrack.coord_view] is not at
    hand; it is taken as the parallel arrays of the longitudes, latitudes and
    times of the records. *)
Definition times (g : list Row) : list Z := map (fun r => time (rec r)) g.
Definition lons (g : list Row) : list Q := map (fun r => lon (rec r)) g.
Definition lats (g : list Row) : list Q := map (fun r => lat (rec r)) g.

(** [values[0]] and [values[-1]] of the time column of a group; a group of
    [gb] always has a row. *)
Definition first_time (g : list Row) : Z := hd 0%Z (times g).
Definition last_time (g : list Row) : Z := last (times g) 0%Z.

(** [Series.diff().values[-1]]: NaT for a series of one entry. *)
Definition last_diff (ts : list Z) : option Z :=
  match rev ts with
  | a :: b :: _ => Some (a - b)%Z
  | _ => None
  end.

(** [pd.merge(left, right, how="inner", on="time")]: the order of the left
    keys is kept. *)
Definition merge_on_time (left right : list Row) : list (Row * Row) :=
  flat_map
    (fun l =>
       map (fun r => (l, r))
           (filter (fun r => (time (rec r) =? time (rec l))%Z) right))
    left.

(** What the caller passes as [others]: a list of frames, a TrackRun, or
    any other object, of which only [len()] is ever asked (it answers or
    raises TypeError). *)
Inductive others_arg : Type :=
| OthersList (dfs : list (list Point))
| OthersRun (tr : TrackRun)
| OthersObject (length : option nat).

Definition len_others (others : others_arg) : result nat :=
  match others with
  | OthersList dfs => Ok (List.length dfs)
  | OthersRun tr => Ok (len tr)
  | OthersObject (Some n) => Ok n
  | OthersObject None => Raise TypeError
  end.

(** Modelled from the spec: [octant.parts.OctantTrack.from_df] is not at
    hand. A frame of the list is an ordered sequence of records; its rows
    go under the key [k] of [pd.concat(..., keys=range(len(others)))], which
    becomes their track id, and keep their position as second level. *)
Fixpoint keyed_rows (k : Z) (i : Z) (df : list Point) : list Row :=
  match df with
  | [] => []
  | p :: df' =>
      {| track_idx := k; row_idx := i; rec := p |}
        :: keyed_rows k (i + 1)%Z df'
  end.

Fixpoint concat_keyed (k : Z) (dfs : list (list Point)) : OctantTrack :=
  match dfs with
  | [] => []
  | df :: dfs' => keyed_rows k 0%Z df ++ concat_keyed (k + 1)%Z dfs'
  end.

Record MatchArgs : Type := mkMatchArgs {
  method : string;
  interpolate_to : string;
  thresh_dist : Q;
  time_frac : Q;
  return_dist_matrix : bool;
  beta : Q;
  r_planet : Q
}.

(** What [match_tracks] returns: the pairs, the pairs with the distance
    matrix, or the dictionary of the per-category results. *)
#[warnings="-register-all"]
Inductive match_result : Type :=
| MPairs (pairs : list (Z * Z))
| MPairsDist (pairs : list (Z * Z)) (dist_matrix : list (list (option Q)))
| MDict (d : list (string * match_result)).

Definition count_true (l : list bool) : nat := List.length (filter id l).

(** Stable sort of the candidates by their count: Python's
    [sorted(candidates, key=lambda x: x[1])]. *)
Fixpoint insert_candidate (c : Z * nat) (l : list (Z * nat))
  : list (Z * nat) :=
  match l with
  | [] => [c]
  | h :: t =>
      if (snd c <=? snd h)%nat then c :: l
      else h :: insert_candidate c t
  end.

Definition sorted_candidates (l : list (Z * nat)) : list (Z * nat) :=
  fold_right insert_candidate [] l.

(** NaN-aware argmin of one slice: the first position of the least value
    that is not NaN. *)
Fixpoint nanargmin_from (i : nat) (best : option (nat * Q))
  (l : list (option Q)) : option (nat * Q) :=
  match l with
  | [] => best
  | None :: t => nanargmin_from (S i) best t
  | Some v :: t =>
      match best with
      | None => nanargmin_from (S i) (Some (i, v)) t
      | Some (bi, bv) =>
          if Qltb v bv then nanargmin_from (S i) (Some (i, v)) t
          else nanargmin_from (S i) best t
      end
  end.

Definition nanargmin (l : list (option Q)) : result nat :=
  match nanargmin_from 0 None l with
  | Some (i, _) => Ok i
  | None => Raise ValueError
  end.

Fixpoint mapM {A B : Type} (f : A -> result B) (l : list A)
  : result (list B) :=
  match l with
  | [] => Ok []
  | a :: l' =>
      (b <- f a ;; bs <- mapM f l' ;; Ok (b :: bs))%result
  end.

Definition column (j : nat) (m : list (list (option Q)))
  : list (option Q) :=
  map (fun row => nth j row None) m.

(** [np.nanargmin(m, axis=0)] of a matrix with [ncols] columns: for every
    column the row of its least entry. *)
Definition nanargmin_axis0 (ncols : nat) (m : list (list (option Q)))
  : result (list nat) :=
  mapM (fun j => nanargmin (column j m)) (seq 0 ncols).

(** [np.nanargmin(m, axis=1)]: for every row the column of its least
    entry. *)
Definition nanargmin_axis1 (m : list (list (option Q)))
  : result (list nat) :=
  mapM nanargmin m.

(** [enumerate]. *)
Definition enumerate {A : Type} (l : list A) : list (nat * A) :=
  combine (seq 0 (List.length l)) l.

Section Matching.

(** [octant.utils.great_circle(lon1, lon2, lat1, lat2, r_planet)], in
    metres. *)
Variable great_circle : Q -> Q -> Q -> Q -> Q -> Q.

(** [octant.utils.distance_metric(x1, y1, t1, x2, y2, t2, beta,
    r_planet)]; [None] is a NaN. *)
Variable distance_metric :
  list Q -> list Q -> list Z -> list Q -> list Q -> list Z ->
  Q -> Q -> option Q.

(** [octant.params]: the length of an hour in time units, metres per
    kilometre, the fill value of fresh arrays. *)
Variables HOUR KM2M FILLVAL : Q.

Variable args : MatchArgs.

(* --------------------------------------------------------------- *)
(** *** method="intersection" (lines 706-724) *)

(** [float * timedelta64] gives a [timedelta64] again: NumPy casts the
    product back to a whole number of time units, towards zero. *)
Definition truncate (q : Q) : Z := Z.quot (Qnum q) (Z.pos (Qden q)).

(** The test of lines 709-722 on one (self track, other track): does the
    other track qualify? *)
Definition qualifies (ot other_ot : list Row) : bool :=
  let time_match_thresh :=
    (inject_Z
       (truncate (time_frac args
                  * inject_Z (last_time other_ot - first_time other_ot)))
     / HOUR)%Q in
  let intersect := merge_on_time other_ot ot in
  let n_match_times := List.length intersect in
  if (0 <? n_match_times)%nat then
    match last_diff (map (fun p => time (rec (fst p))) intersect) with
    | None => false                       (* NaN compares false *)
    | Some dt =>
        let _tstep_h := (inject_Z dt / HOUR)%Q in
        let dist :=
          map (fun p =>
                 great_circle (lon (rec (fst p))) (lon (rec (snd p)))
                              (lat (rec (fst p))) (lat (rec (snd p)))
                              (r_planet args))
              intersect in
        let near :=
          count_true
            (map (fun x => Qltb x (thresh_dist args * KM2M)%Q) dist) in
        let prox_time := (inject_Z (Z.of_nat near) * _tstep_h)%Q in
        Qltb time_match_thresh
             (inject_Z (Z.of_nat n_match_times) * _tstep_h)%Q
        && Qltb time_match_thresh prox_time
    end
  else false.

(** The inner loop with its [break]. *)
Fixpoint scan_others (idx : Z) (ot : list Row) (other_gb : list group)
  (match_pairs : list (Z * Z)) : list (Z * Z) :=
  match other_gb with
  | [] => match_pairs
  | (other_idx, other_ot) :: rest =>
      if qualifies ot other_ot then match_pairs ++ [(idx, other_idx)]
      else scan_others idx ot rest match_pairs
  end.

Definition match_intersection (sub_gb other_gb : list group)
  : list (Z * Z) :=
  fold_left (fun match_pairs g => scan_others (fst g) (snd g) other_gb
                                              match_pairs)
            sub_gb [].

(* --------------------------------------------------------------- *)
(** *** method="simple" (lines 726-776) *)

(** Rows of the frame of lines 748-751, keyed by time: a row of [df1]
    carries (lon, lat), a row of [tmp_df2] carries NaN. *)
Definition timed : Type := (Z * option (Q * Q))%type.

Fixpoint insert_timed (e : timed) (l : list timed) : list timed :=
  match l with
  | [] => [e]
  | h :: t =>
      if (fst e <=? fst h)%Z then e :: l
      else h :: insert_timed e t
  end.

(** [sort_index()], keeping the frame order of equal times. *)
Definition sort_index (l : list timed) : list timed :=
  fold_right insert_timed [] l.

(** [np.interp] of one column at [x] over the valid rows, whose times
    ascend: constant outside of them, linear between two of them. *)
Fixpoint np_interp (x : Z) (xp : list (Z * Q)) : option Q :=
  match xp with
  | [] => None
  | (x0, y0) :: rest =>
      match rest with
      | [] => Some y0
      | (x1, y1) :: _ =>
          if (x <? x0)%Z then Some y0
          else if (x1 <=? x)%Z then np_interp x rest
          else if (x =? x0)%Z then Some y0
          else
            Some ((y1 - y0) / inject_Z (x1 - x0) * inject_Z (x - x0)
                  + y0)%Q
      end
  end.

Definition valid_points (l : list timed) : list (Z * (Q * Q)) :=
  flat_map (fun e => match snd e with
                     | Some v => [(fst e, v)]
                     | None => []
                     end) l.

Definition interp_point (x : Z) (valid : list (Z * (Q * Q)))
  : option (Q * Q) :=
  match np_interp x (map (fun p => (fst p, fst (snd p))) valid),
        np_interp x (map (fun p => (fst p, snd (snd p))) valid) with
  | Some a, Some b => Some (a, b)
  | _, _ => None
  end.

(** [interpolate(method="values")]: a NaN row placed after the first valid
    row is filled from the valid rows; the NaN rows before it stay NaN. *)
Fixpoint fill_nan (seen_valid : bool) (valid : list (Z * (Q * Q)))
  (l : list timed) : list timed :=
  match l with
  | [] => []
  | (t, Some v) :: rest => (t, Some v) :: fill_nan true valid rest
  | (t, None) :: rest =>
      (t, if seen_valid then interp_point t valid else None)
        :: fill_nan seen_valid valid rest
  end.

Definition interpolate (l : list timed) : list timed :=
  fill_nan false (valid_points l) l.

(** [.loc[labels]] on the time index: for every label, in turn, the rows
    that carry it. *)
Definition loc_times (labels : list Z) (l : list timed) : list timed :=
  flat_map (fun t => filter (fun e => (fst e =? t)%Z) l) labels.

(** Lines 745-755: [new_df1], the positions of [df1] brought to the times
    of [df2], without the rows that stayed NaN. *)
Definition new_df1 (df1 df2 : list Row) : list (Q * Q) :=
  let frame :=
    map (fun r => (time (rec r), Some (lon (rec r), lat (rec r)))) df1
    ++ map (fun r => (time (rec r), @None (Q * Q))) df2 in
  let filled := interpolate (sort_index frame) in
  flat_map (fun e => match snd e with
                     | Some v => [v]
                     | None => []
                     end)
           (loc_times (times df2) filled).

(** Lines 761-766: [dist_diff], of the length of [new_df1]; an entry
    beyond the zip keeps the fill value. *)
Definition dist_diff (aligned : list (Q * Q)) (df2 : list Row) : list Q :=
  let zipped := combine aligned df2 in
  map (fun p =>
         great_circle (fst (fst p)) (lon (rec (snd p)))
                      (snd (fst p)) (lat (rec (snd p)))
                      (r_planet args))
      zipped
  ++ repeat FILLVAL (List.length aligned - List.length zipped).

(** [within_r_idx.sum()]. *)
Definition within_count (df1 df2 : list Row) : nat :=
  count_true
    (map (fun x => Qltb x (thresh_dist args * KM2M)%Q)
         (dist_diff (new_df1 df1 df2) df2)).

(** Lines 733-736: which of the two tracks is interpolated ([df1]) and
    which gives the times ([df2]). *)
Definition orient (ct other_ct : list Row)
  : result (list Row * list Row) :=
  if String.eqb (interpolate_to args) "other" then Ok (ct, other_ct)
  else if String.eqb (interpolate_to args) "self" then Ok (other_ct, ct)
  else Raise NameError.                  (* df1 is not bound *)

(** Lines 737-739: the two time spans overlap. *)
Definition overlap (df1 df2 : list Row) : bool :=
  let l_start := Z.max (first_time df1) (first_time df2) in
  let e_end := Z.min (last_time df1) (last_time df2) in
  Qltb 0 (inject_Z (e_end - l_start) / HOUR)%Q.

(** One turn of the inner loop: the candidate appended, if any. *)
Definition candidate (idx : Z) (ct other_ct : list Row)
  : result (option (Z * nat)) :=
  (dfs <- orient ct other_ct ;;
   let '(df1, df2) := dfs in
   if overlap df1 df2 then
     let thr := (time_frac args * inject_Z (Z.of_nat (List.length df2)))%Q in
     let n := within_count df1 df2 in
     if Qltb thr (inject_Z (Z.of_nat n)) then Ok (Some (idx, n))
     else Ok None
   else Ok None)%result.

Fixpoint candidates_of (other_ct : list Row) (sub_gb : list group)
  (candidates : list (Z * nat)) : result (list (Z * nat)) :=
  match sub_gb with
  | [] => Ok candidates
  | (idx, ct) :: rest =>
      (c <- candidate idx ct other_ct ;;
       candidates_of other_ct rest
         (match c with
          | Some c => candidates ++ [c]
          | None => candidates
          end))%result
  end.

(** Lines 773-776. *)
Definition final_pair (other_idx : Z) (candidates : list (Z * nat))
  : list (Z * Z) :=
  match candidates with
  | [] => []
  | c :: _ =>
      let final_idx := fst (last (sorted_candidates candidates) c) in
      [(final_idx, other_idx)]
  end.

Fixpoint match_simple_loop (sub_gb other_gb : list group)
  (match_pairs : list (Z * Z)) : result (list (Z * Z)) :=
  match other_gb with
  | [] => Ok match_pairs
  | (other_idx, other_ct) :: rest =>
      (candidates <- candidates_of other_ct sub_gb [] ;;
       match_simple_loop sub_gb rest
         (match_pairs ++ final_pair other_idx candidates))%result
  end.

Definition match_simple (sub_gb other_gb : list group)
  : result (list (Z * Z)) :=
  match_simple_loop sub_gb other_gb [].

(* --------------------------------------------------------------- *)
(** *** method="bs2000" (lines 778-795) *)

(** Lines 782-789: every entry of the fresh matrix is overwritten with
    the distance of the pair of tracks. *)
Definition dist_matrix_of (sub_gb other_gb : list group)
  : list (list (option Q)) :=
  map (fun g =>
         map (fun og =>
                distance_metric
                  (lons (snd g)) (lats (snd g)) (times (snd g))
                  (lons (snd og)) (lats (snd og)) (times (snd og))
                  (beta args) (r_planet args))
             other_gb)
      sub_gb.

(** Lines 791-793 for one [(i, idx1)] of the outer loop. *)
Definition bs_inner (sub_indices other_indices : list Z) (i idx1 : nat)
  (rows : list (nat * nat)) (match_pairs : list (Z * Z)) : list (Z * Z) :=
  fold_left
    (fun match_pairs jx =>
       let '(j, idx2) := jx in
       if (i =? idx2)%nat && (j =? idx1)%nat
       then match_pairs
              ++ [(nth idx1 sub_indices 0%Z, nth idx2 other_indices 0%Z)]
       else match_pairs)
    rows match_pairs.

(** Lines 790-793: the argmin along axis 1 is taken anew in every turn of
    the outer loop. *)
Fixpoint bs_outer (sub_indices other_indices : list Z)
  (m : list (list (option Q))) (cols : list (nat * nat))
  (match_pairs : list (Z * Z)) : result (list (Z * Z)) :=
  match cols with
  | [] => Ok match_pairs
  | (i, idx1) :: rest =>
      (rows <- nanargmin_axis1 m ;;
       bs_outer sub_indices other_indices m rest
         (bs_inner sub_indices other_indices i idx1 (enumerate rows)
                   match_pairs))%result
  end.

Definition match_bs2000 (sub_gb other_gb : list group)
  : result (list (Z * Z) * list (list (option Q))) :=
  let sub_indices := map fst sub_gb in
  let other_indices := map fst other_gb in
  let m := dist_matrix_of sub_gb other_gb in
  (cols <- nanargmin_axis0 (List.length other_gb) m ;;
   pairs <- bs_outer sub_indices other_indices m (enumerate cols) [] ;;
   Ok (pairs, m))%result.

(* --------------------------------------------------------------- *)
(** *** The method as a whole *)

(** Lines 693-704: the groups of [others]. *)
Definition other_groups (others : others_arg) (subset : subset_arg)
  : result (list group) :=
  match others with
  | OthersList dfs => Ok (gb (concat_keyed 0%Z dfs))
  | OthersRun tr => (d <- getitem tr subset ;; Ok (gb d))%result
  | OthersObject _ => Raise ArgumentError
  end.

(** Lines 705-799. *)
Definition run_method (sub_gb other_gb : list group)
  : result match_result :=
  if String.eqb (method args) "intersection" then
    Ok (MPairs (match_intersection sub_gb other_gb))
  else if String.eqb (method args) "simple" then
    (pairs <- match_simple sub_gb other_gb ;; Ok (MPairs pairs))%result
  else if String.eqb (method args) "bs2000" then
    (pm <- match_bs2000 sub_gb other_gb ;;
     if return_dist_matrix args then Ok (MPairsDist (fst pm) (snd pm))
     else Ok (MPairs (fst pm)))%result
  else Raise ArgumentError.

(** Lines 689-799, for a [subset] that is not None. *)
Definition match_selected (self : TrackRun) (others : others_arg)
  (subset : subset_arg) : result match_result :=
  (sub_df <- getitem self subset ;;
   let sub_gb := gb sub_df in
   if (List.length sub_gb =? 0)%nat then Ok (MPairs [])
   else
     n_others <- len_others others ;;
     if (n_others =? 0)%nat then Ok (MPairs [])
     else
       other_gb <- other_groups others subset ;;
       run_method sub_gb other_gb)%result.

(** [TrackRun.match_tracks]. The method calls itself for every category;
    [fuel] bounds the depth of the calls, and [None] says that the bound was
    reached. *)
Fixpoint match_tracks_fuel (fuel : nat) (self : TrackRun)
  (others : others_arg) (subset : subset_arg)
  : option (result match_result) :=
  match fuel with
  | O => None
  | S fuel' =>
      match subset with
      | SubNone =>
          if is_categorised self then
            match dispatch
                    (fun subset_key =>
                       match_tracks_fuel fuel' self others
                                         (SubStr subset_key))
                    (cat_labels self) [] with
            | Some (Ok d) => Some (Ok (MDict d))
            | Some (Raise e) => Some (Raise e)
            | None => None
            end
          else Some (match_selected self others (SubStr "all"))
      | _ => Some (match_selected self others subset)
      end
  end.

(** Two levels of calls are all that a run ever needs (see
    [match_tracks_depth]). *)
Definition match_tracks (self : TrackRun) (others : others_arg)
  (subset : subset_arg) : option (result match_result) :=
  match_tracks_fuel 2 self others subset.

End Matching.

(* ================================================================= *)
(** ** [TrackRun.density] *)

Definition matrix : Type := list (list Q).

(** The [units] attribute: [f"per {round(np.pi * dist**2)} km2"] is kept as
    the distance it is computed from. *)
Inductive units_attr : Type :=
| UnitsPerDisc (dist : Q)
| UnitsOne
| UnitsKm2.

Record DataArray : Type := mkDataArray {
  da_data : matrix;
  da_by : string;                  (* name = f"{by}_density" *)
  da_units : units_attr;
  da_subset : subset_arg;
  da_method : string;
  da_longitude : list Q;
  da_latitude : list Q
}.

#[warnings="-register-all"]
Inductive density_result : Type :=
| DField (a : DataArray)
| DDict (d : list (string * density_result)).

Record DensityArgs : Type := mkDensityArgs {
  lon1d : list Q;
  lat1d : list Q;
  by_ : string;
  dmethod : string;
  dist : Q;
  exclude_first : Z * Z;           (* {"m": month, "d": day} *)
  exclude_last : Z * Z;
  grid_centres : bool;
  weight_by_area : bool;
  d_r_planet : Q
}.

(** [np.meshgrid(lon, lat)]. *)
Definition meshgrid (lon lat : list Q) : matrix * matrix :=
  (map (fun _ => lon) lat, map (fun y => map (fun _ => y) lon) lat).

(** [m[0, :]] and [m[:, 0]]. *)
Definition row0 (m : matrix) : result (list Q) :=
  match m with
  | [] => Raise IndexError
  | r :: _ => Ok r
  end.

Definition col0 (m : matrix) : result (list Q) :=
  mapM (fun r => match r with
                 | [] => Raise IndexError
                 | x :: _ => Ok x
                 end) m.

(** [np.diff]. *)
Fixpoint diff (l : list Q) : list Q :=
  match l with
  | a :: (b :: _) as t => (b - a)%Q :: diff t
  | _ => []
  end.

(** [(np.diff(l) < 0).any()]. *)
Definition any_descent (l : list Q) : bool :=
  existsb (fun x => Qltb x 0) (diff l).

(** Element by element [data / area * (KM2M * KM2M)]. *)
Definition weight (km2m : Q) (data area : matrix) : matrix :=
  map (fun rows =>
         map (fun p => (fst p / snd p * (km2m * km2m))%Q)
             (combine (fst rows) (snd rows)))
      (combine data area).

Section Density.

(** [octant.grid]. *)
Variables cell_bounds cell_centres : list Q -> list Q.
Variable grid_cell_areas : list Q -> list Q -> Q -> matrix.

(** [octant.utils]: the four accumulation kernels; those by radius take
    [dist] and [r_planet] first. *)
Variables point_density_cell track_density_cell
  : matrix -> matrix -> matrix -> matrix.
Variables point_density_rad track_density_rad
  : Q -> Q -> matrix -> matrix -> matrix -> matrix.

(** [octant.parts]: the arrays [lonlat_c] and [tridlonlat_c] of a frame. *)
Variables lonlat_c tridlonlat_c : OctantTrack -> matrix.

(** Lines 936-938 and 940-942: the pandas group filters through
    [misc._exclude_by_first_day] and [misc._exclude_by_last_day] for a
    (month, day), then [lonlat_c]. The calendar accessors and the label
    look-ups of pandas in them are not modelled, and pandas may raise in
    them. *)
Variables genesis_points lysis_points
  : Z * Z -> OctantTrack -> result matrix.

Variable KM2M : Q.

Variable dargs : DensityArgs.

Definition kernel : Type := matrix -> matrix -> matrix -> matrix.

(** Lines 911-928: the units and the kernel bound by the method; [None]
    when neither branch binds them. *)
Definition select_method (lon2d lat2d : matrix)
  : result (option (units_attr * kernel)) :=
  if String.eqb (dmethod dargs) "radius" then
    let dist_metres := (dist dargs * KM2M)%Q in
    Ok (Some (UnitsPerDisc (dist dargs),
              if String.eqb (by_ dargs) "track"
              then track_density_rad dist_metres (d_r_planet dargs)
              else point_density_rad dist_metres (d_r_planet dargs)))
  else if String.eqb (dmethod dargs) "cell" then
    (lon_row <- row0 lon2d ;;
     if any_descent lon_row then Raise GridError
     else
       lat_col <- col0 lat2d ;;
       if any_descent lat_col then Raise GridError
       else
         Ok (Some (UnitsOne,
                   if String.eqb (by_ dargs) "track"
                   then track_density_cell
                   else point_density_cell)))%result
  else Ok None.

(** Lines 930-944: the points to count. *)
Definition select_points (sub_df : OctantTrack) : result matrix :=
  if String.eqb (by_ dargs) "point" then Ok (lonlat_c sub_df)
  else if String.eqb (by_ dargs) "track" then Ok (tridlonlat_c sub_df)
  else if String.eqb (by_ dargs) "genesis" then
    genesis_points (exclude_first dargs) sub_df
  else if String.eqb (by_ dargs) "lysis" then
    lysis_points (exclude_last dargs) sub_df
  else Raise ArgumentError.

(** Lines 882-962, for a [subset] that is not None. *)
Definition density_selected (self : TrackRun) (subset : subset_arg)
  : result DataArray :=
  let lon := if grid_centres dargs then cell_bounds (lon1d dargs)
             else lon1d dargs in
  let lat := if grid_centres dargs then cell_bounds (lat1d dargs)
             else lat1d dargs in
  let xlon := if grid_centres dargs then lon1d dargs
              else cell_centres (lon1d dargs) in
  let xlat := if grid_centres dargs then lat1d dargs
              else cell_centres (lat1d dargs) in
  let '(lon2d, lat2d) := meshgrid lon lat in
  (sub_df <- getitem self subset ;;
   bound <- select_method lon2d lat2d ;;
   sub_data <- select_points sub_df ;;
   match bound with
   | None => Raise NameError             (* cy_func is not bound *)
   | Some (units, cy_func) =>
       let data := cy_func lon2d lat2d sub_data in
       let area := grid_cell_areas xlon xlat (d_r_planet dargs) in
       Ok {| da_data := if weight_by_area dargs
                        then weight KM2M data area else data;
             da_by := by_ dargs;
             da_units := if weight_by_area dargs then UnitsKm2 else units;
             da_subset := subset;
             da_method := dmethod dargs;
             da_longitude := xlon;
             da_latitude := xlat |}
   end)%result.

(** [TrackRun.density], with the same bound on the depth of its calls to
    itself as [match_tracks_fuel]. *)
Fixpoint density_fuel (fuel : nat) (self : TrackRun) (subset : subset_arg)
  : option (result density_result) :=
  match fuel with
  | O => None
  | S fuel' =>
      match subset with
      | SubNone =>
          if is_categorised self then
            match dispatch
                    (fun subset_key =>
                       density_fuel fuel' self (SubStr subset_key))
                    (cat_labels self) [] with
            | Some (Ok d) => Some (Ok (DDict d))
            | Some (Raise e) => Some (Raise e)
            | None => None
            end
          else
            Some (a <- density_selected self (SubStr "all") ;;
                  Ok (DField a))%result
      | _ =>
          Some (a <- density_selected self subset ;; Ok (DField a))%result
      end
  end.

Definition density (self : TrackRun) (subset : subset_arg)
  : option (result density_result) :=
  density_fuel 2 self subset.

End Density.

(* ================================================================= *)
(** ** Notions used to state the properties *)

(** The ids 0, 1, ..., n-1. *)
Definition zero_based (n : nat) : list Z := map Z.of_nat (seq 0 n).

(** The ids [a], [a+1], ..., [a+n-1]. *)
Definition id_range (a : Z) (n : nat) : list Z :=
  map (fun i => (a + Z.of_nat i)%Z) (seq 0 n).

(** Along the rows, every id is the id of the row before it or the next
    integer. *)
Fixpoint climbs (prev : Z) (ids : list Z) : Prop :=
  match ids with
  | [] => True
  | i :: rest => (i = prev \/ i = prev + 1)%Z /\ climbs i rest
  end.

(** The first level of the index of a frame starts at 0 and climbs. *)
Definition contiguous_from_zero (ids : list Z) : Prop :=
  match ids with
  | [] => True
  | i :: rest => i = 0%Z /\ climbs 0%Z rest
  end.

(** The records of a frame with the second level of their index, in frame
    order. *)
Definition payload (d : OctantTrack) : list (Z * Point) :=
  map (fun r => (row_idx r, rec r)) d.

(** The ids that the masks of [__getitem__] select: those of the rows of
    the categories frame whose cell is true under every one of the
    labels. *)
Definition members_of_all (c : CatTable) (labels : list string) : list Z :=
  map fst
      (filter (fun r => forallb (cell (cat_columns c) (snd r)) labels)
              (cat_rows c)).

(** Subset selection in the words of the specification. The flag of a row
    of the categories is true under [label]: at the place of the column
    [label], the row holds True. *)
Definition flag_under (cols : list string) (flags : list bool)
  (label : string) : Prop :=
  exists i, nth_error cols i = Some label /\ nth_error flags i = Some true.

(** The track [k] is in the intersection of the membership columns
    [labels]: a row of the categories carries its id and is true under every
    one of the labels. *)
Definition in_all (c : CatTable) (labels : list string) (k : Z) : Prop :=
  exists flags,
    In (k, flags) (cat_rows c)
    /\ forall l, In l labels -> flag_under (cat_columns c) flags l.

(** [f] under a result. *)
Definition rmap {A B : Type} (f : A -> B) (r : result A) : result B :=
  match r with
  | Ok a => Ok (f a)
  | Raise e => Raise e
  end.

(** The dispatch over the categories in the words of the specification:
    [out] is the mapping from every label to the result of [call] on that
    label, with one entry per label, or it is the exception of the first
    call that raises. *)
Definition maps_labels {V : Type} (call : string -> option (result V))
  (labels : list string) (out : result (list (string * V))) : Prop :=
  match out with
  | Ok d =>
      (forall k, In k labels ->
                 exists v, call k = Some (Ok v) /\ dict_get k d = Some v)
      /\ (forall k, ~ In k labels -> dict_get k d = None)
      /\ (NoDup labels -> map fst d = labels)
  | Raise e =>
      exists pre k post,
        labels = pre ++ k :: post
        /\ (forall x, In x pre -> exists v, call x = Some (Ok v))
        /\ call k = Some (Raise e)
  end.

(** The subset that the body of [match_tracks] and of [density] works
    with when the call does not dispatch over the categories: the subset
    given, or "all" when none is given and the TrackRun is not categorised. *)
Definition resolved (self : TrackRun) (subset : subset_arg)
  : option subset_arg :=
  match subset with
  | SubNone => if is_categorised self then None else Some (SubStr "all")
  | s => Some s
  end.

(** The method and the kind of density are among the documented ones. *)
Definition known_method (m : string) : Prop :=
  m = "intersection"%string \/ m = "simple"%string \/ m = "bs2000"%string.

Definition known_by (b : string) : Prop :=
  b = "point"%string \/ b = "track"%string \/ b = "genesis"%string
  \/ b = "lysis"%string.

(** Some entry of the array is less than the entry before it. *)
Definition descends (l : list Q) : Prop :=
  exists i a b,
    nth_error l i = Some a /\ nth_error l (S i) = Some b /\ (b < a)%Q.

(** Every entry of the array is greater than the entry before it. *)
Definition strictly_ascending (l : list Q) : Prop :=
  forall i a b,
    nth_error l i = Some a -> nth_error l (S i) = Some b -> (a < b)%Q.

(** The boundaries of the cells that [density] works with (lines 883-893). *)
Definition lon_bounds (cell_bounds : list Q -> list Q) (a : DensityArgs)
  : list Q :=
  if grid_centres a then cell_bounds (lon1d a) else lon1d a.

Definition lat_bounds (cell_bounds : list Q -> list Q) (a : DensityArgs)
  : list Q :=
  if grid_centres a then cell_bounds (lat1d a) else lat1d a.

(* ================================================================= *)
(** ** The matching rules in the words of the specification *)

Section MatchingRules.

Variable great_circle : Q -> Q -> Q -> Q -> Q -> Q.
Variables HOUR KM2M : Q.
Variable args : MatchArgs.

(** method="intersection": the aligned records, that is the pairs of a
    record of the other track and a record of the self track with the same
    timestamp, in the order of the other track. *)
Definition same_time (p : Row * Row) : bool :=
  (time (rec (fst p)) =? time (rec (snd p)))%Z.

Definition aligned (ot other_ot : list Row) : list (Row * Row) :=
  filter same_time (list_prod other_ot ot).

(** The aligned pairs that are closer than [thresh_dist] kilometres. *)
Definition closer (p : Row * Row) : bool :=
  Qltb (great_circle (lon (rec (fst p))) (lon (rec (snd p)))
                     (lat (rec (fst p))) (lat (rec (snd p)))
                     (r_planet args))
       (thresh_dist args * KM2M)%Q.

Definition aligned_near (ot other_ot : list Row) : list (Row * Row) :=
  filter closer (aligned ot other_ot).

(** The sampling interval, read off the aligned records: the time from the
    aligned record before the last to the last one. Fewer than two aligned
    records give no interval. *)
Definition sampling_interval (ot other_ot : list Row) (dt : Z) : Prop :=
  exists pre a b,
    aligned ot other_ot = pre ++ [a; b]
    /\ dt = (time (rec (fst b)) - time (rec (fst a)))%Z.

(** The lifetime of a track: the time from its first record to its last. *)
Definition lifetime (track : list Row) : Z :=
  match track with
  | [] => 0
  | a :: _ => time (rec (last track a)) - time (rec a)
  end.

(** The other track qualifies for the self track: the number of aligned
    records times the sampling interval, and the number of aligned records
    within the distance times the sampling interval, both exceed
    [time_frac] times the lifetime of the other track, all in hours. *)
Definition Qualifies (ot other_ot : list Row) : Prop :=
  exists dt : Z,
    sampling_interval ot other_ot dt
    /\ let interval := (inject_Z dt / HOUR)%Q in
       let threshold :=
         (time_frac args * (inject_Z (lifetime other_ot) / HOUR))%Q in
       (threshold
        < inject_Z (Z.of_nat (List.length (aligned ot other_ot))) * interval)%Q
       /\ (threshold
           < inject_Z (Z.of_nat (List.length (aligned_near ot other_ot)))
             * interval)%Q.

(** [other_idx] is the first track of [other_gb] that qualifies for [ot]. *)
Definition first_qualifying (ot : list Row) (other_gb : list group)
  (other_idx : Z) : Prop :=
  exists before other_ot after,
    other_gb = before ++ (other_idx, other_ot) :: after
    /\ Qualifies ot other_ot
    /\ forall g, In g before -> ~ Qualifies ot (snd g).

End MatchingRules.

(** method="bs2000". [i] is the index that minimizes the slice: it holds the
    least of the entries that are not NaN, and is the first index to do
    so. *)
Definition minimizer (l : list (option Q)) (i : nat) : Prop :=
  exists v,
    nth_error l i = Some (Some v)
    /\ (forall k w, nth_error l k = Some (Some w) -> (v <= w)%Q)
    /\ (forall k w, (k < i)%nat -> nth_error l k = Some (Some w) ->
                    (v < w)%Q).

(** Row [r] and column [c] of the distance matrix are mutual nearest
    neighbours: [c] is the column index minimizing row [r], and [r] is the
    row index minimizing column [c]. *)
Definition mutual_nearest (m : list (list (option Q))) (r c : nat) : Prop :=
  (exists row, nth_error m r = Some row /\ minimizer row c)
  /\ minimizer (column c m) r.

Definition all_nan (l : list (option Q)) : Prop :=
  forall k w, nth_error l k <> Some (Some w).

Section SimpleRule.

Variable great_circle : Q -> Q -> Q -> Q -> Q -> Q.
Variables HOUR KM2M FILLVAL : Q.
Variable args : MatchArgs.

(** method="simple". The track whose positions are interpolated, and the
    track that gives the timestamps: under interpolate_to="other" the self
    track is brought to the times of the other track, under "self" the
    other track to the times of the self track. *)
Definition donor (ct other_ct : list Row) : list Row :=
  if String.eqb (interpolate_to args) "other" then ct else other_ct.

Definition target (ct other_ct : list Row) : list Row :=
  if String.eqb (interpolate_to args) "other" then other_ct else ct.

(** *** What the loop does *)

(** The count that the loop takes for a self track and an other track,
    whether it appends the self track to the candidates, and the candidates
    that it has appended for one other track when the self tracks are
    through. *)
Definition counted (ct other_ct : list Row) : nat :=
  within_count great_circle KM2M FILLVAL args
               (donor ct other_ct) (target ct other_ct).

Definition appends (ct other_ct : list Row) : bool :=
  overlap HOUR (donor ct other_ct) (target ct other_ct)
  && Qltb (time_frac args
           * inject_Z (Z.of_nat (List.length (target ct other_ct))))%Q
          (inject_Z (Z.of_nat (counted ct other_ct))).

Definition appended (sub_gb : list group) (other_ct : list Row)
  : list (Z * nat) :=
  flat_map (fun g => if appends (snd g) other_ct
                     then [(fst g, counted (snd g) other_ct)]
                     else [])
           sub_gb.

(** *** The rule in the words of the specification *)

(** The times of the first and of the last record of a track. *)
Definition starts_at (track : list Row) : Z :=
  match track with
  | [] => 0
  | a :: _ => time (rec a)
  end.

Definition ends_at (track : list Row) : Z :=
  match track with
  | [] => 0
  | a :: _ => time (rec (last track a))
  end.

(** The time spans of two tracks overlap: the later of the two starts is
    before the earlier of the two ends. *)
Definition spans_overlap (a b : list Row) : Prop :=
  (Z.max (starts_at a) (starts_at b) < Z.min (ends_at a) (ends_at b))%Z.

(** The point reached at time [t] on the straight line, in longitude and
    latitude over time, from the record [a] to the record [b]. *)
Definition on_line (a b : Row) (t : Z) : Q * Q :=
  let at_t := fun ya yb : Q =>
    ((yb - ya) / inject_Z (time (rec b) - time (rec a))
     * inject_Z (t - time (rec a)) + ya)%Q in
  (at_t (lon (rec a)) (lon (rec b)), at_t (lat (rec a)) (lat (rec b))).

(** The position of a track at time [t], by linear interpolation between
    its records: none before its first record, the record itself at the
    time of a record, the point on the line between the two records around
    [t], and the last record from the end of the track on. *)
Fixpoint position_at (track : list Row) (t : Z) : option (Q * Q) :=
  match track with
  | [] => None
  | a :: rest =>
      if (t <? time (rec a))%Z then None
      else if (t =? time (rec a))%Z then Some (lon (rec a), lat (rec a))
      else
        match rest with
        | [] => Some (lon (rec a), lat (rec a))
        | b :: _ =>
            if (t <? time (rec b))%Z then Some (on_line a b t)
            else position_at rest t
        end
  end.

(** The position [p] is within [thresh_dist] kilometres of the record
    [r]. *)
Definition within_radius (p : Q * Q) (r : Row) : bool :=
  Qltb (great_circle (fst p) (lon (rec r)) (snd p) (lat (rec r))
                     (r_planet args))
       (thresh_dist args * KM2M)%Q.

(** The number of the aligned samples that are within [thresh_dist]: of
    the records of the track that gives the timestamps, those within the
    radius of the position that the interpolated track has at their
    time. *)
Definition aligned_within (ct other_ct : list Row) : nat :=
  List.length
    (filter (fun r => match position_at (donor ct other_ct) (time (rec r))
                      with
                      | Some p => within_radius p r
                      | None => false
                      end)
            (target ct other_ct)).

(** The self track is a candidate for the other track: the time spans of
    the two overlap, and the count exceeds [time_frac] times the number of
    samples of the track that gives the timestamps. *)
Definition Candidate (ct other_ct : list Row) : Prop :=
  spans_overlap (donor ct other_ct) (target ct other_ct)
  /\ (time_frac args
      * inject_Z (Z.of_nat (List.length (target ct other_ct)))
      < inject_Z (Z.of_nat (aligned_within ct other_ct)))%Q.

Definition is_candidate (ct other_ct : list Row) : bool :=
  (Z.max (starts_at (donor ct other_ct)) (starts_at (target ct other_ct))
   <? Z.min (ends_at (donor ct other_ct)) (ends_at (target ct other_ct)))%Z
  && Qltb (time_frac args
           * inject_Z (Z.of_nat (List.length (target ct other_ct))))%Q
          (inject_Z (Z.of_nat (aligned_within ct other_ct))).

(** The candidates for one other track, with their counts, in the order of
    the self tracks. *)
Definition candidates_for (sub_gb : list group) (other_ct : list Row)
  : list (Z * nat) :=
  flat_map (fun g => if is_candidate (snd g) other_ct
                     then [(fst g, aligned_within (snd g) other_ct)]
                     else [])
           sub_gb.

(** The samples of the two tracks are aligned as the loop takes them to
    be: the interpolated track [df1] is in time order, the track [df2] that
    gives the timestamps has no timestamp twice, and every record of [df2]
    is later than the first record of [df1] and at a time of its own, which
    no record of [df1] carries. *)
Definition well_aligned (df1 df2 : list Row) : Prop :=
  StronglySorted Z.lt (map (fun r => time (rec r)) df1)
  /\ NoDup (map (fun r => time (rec r)) df2)
  /\ forall r, In r df2 ->
               (starts_at df1 < time (rec r))%Z
               /\ ~ In (time (rec r)) (map (fun r => time (rec r)) df1).

End SimpleRule.

(** [c] wins among the candidates [cs]: no candidate before it has a larger
    count, and every candidate after it has a smaller one. *)
Definition wins (cs : list (Z * nat)) (c : Z * nat) : Prop :=
  exists pre post,
    cs = pre ++ c :: post
    /\ (forall x, In x pre -> (snd x <= snd c)%nat)
    /\ (forall x, In x post -> (snd x < snd c)%nat).

(** What one other track adds to the result: nothing without a candidate,
    and else the one pair of the candidate that wins. *)
Definition emitted (cs : list (Z * nat)) (other_idx : Z)
  (pairs : list (Z * Z)) : Prop :=
  (cs = [] /\ pairs = [])
  \/ exists c, wins cs c /\ pairs = [(fst c, other_idx)].


(* ================================================================= *)
(** ** Sample inputs *)

Definition pt (x y : Q) (t : Z) : Point :=
  {| lon := x; lat := y; time := t; attrs := [] |}.

Definition row (k i : Z) (p : Point) : Row :=
  {| track_idx := k; row_idx := i; rec := p |}.

(** One hour, in nanoseconds. *)
Definition hour_ns : Z := 3600000000000%Z.

(** A run of two tracks, with the ids 3 and 7. *)
Definition run_a : TrackRun :=
  {| data := [ row 3 0 (pt 10 60 0); row 3 1 (pt 11 61 hour_ns);
               row 7 0 (pt 20 70 0) ];
     cats := None; is_categorised := false; is_cat_inclusive := false;
     tstep_h := Some 1%Q; conf := None; sources := ["a"%string] |}.

(** A run of one track, with the id 0. *)
Definition run_b : TrackRun :=
  {| data := [ row 0 0 (pt 30 65 0); row 0 1 (pt 31 66 hour_ns) ];
     cats := None; is_categorised := false; is_cat_inclusive := false;
     tstep_h := Some 1%Q; conf := None; sources := ["b"%string] |}.

(** [run_b] under another time step. *)
Definition run_b_3h : TrackRun := set_tstep_h (Some 3%Q) run_b.

(** [run_a] with two categories: track 3 is in both, track 7 in the first. *)
Definition run_a_cats : TrackRun :=
  set_is_categorised true
    (set_cats (Some {| cat_columns := ["strong"%string; "long"%string];
                       cat_rows := [ (3%Z, [true; true]);
                                     (7%Z, [true; false]) ] |})
              run_a).

(** Stand-ins for [octant.utils] and [octant.params] in the examples. As
    the great-circle distance, [sample_great_circle] is 0 metres at
    coincident points and positive elsewhere. *)
Definition Qabs' (x : Q) : Q := if Qltb x 0 then (- x)%Q else x.

Definition sample_great_circle (lon1 lon2 lat1 lat2 r : Q) : Q :=
  ((Qabs' (lon1 - lon2) + Qabs' (lat1 - lat2)) * 111000)%Q.

Definition sample_distance_metric (x1 y1 : list Q) (t1 : list Z)
  (x2 y2 : list Q) (t2 : list Z) (beta r : Q) : option Q :=
  Some (Qabs' (hd 0%Q x1 - hd 0%Q x2) + Qabs' (hd 0%Q y1 - hd 0%Q y2))%Q.

Definition sample_HOUR : Q := inject_Z hour_ns.
Definition sample_KM2M : Q := 1000%Q.
Definition sample_FILLVAL : Q := 900000000000000000000%Q.

(** The default arguments of [match_tracks]. *)
Definition default_args : MatchArgs :=
  {| method := "simple"; interpolate_to := "other";
     thresh_dist := 250%Q; time_frac := (1 # 2)%Q;
     return_dist_matrix := false; beta := 100%Q;
     r_planet := 6371009%Q |}.

Definition with_method (m : string) (a : MatchArgs) : MatchArgs :=
  {| method := m; interpolate_to := interpolate_to a;
     thresh_dist := thresh_dist a; time_frac := time_frac a;
     return_dist_matrix := return_dist_matrix a; beta := beta a;
     r_planet := r_planet a |}.

Definition sample_match_tracks (a : MatchArgs) :=
  match_tracks sample_great_circle sample_distance_metric
               sample_HOUR sample_KM2M sample_FILLVAL a.

(** Stand-ins for [octant.grid], the kernels of [octant.utils] and the
    arrays of [octant.parts] in the examples; the kernel counts nothing, the
    examples do not depend on the counts. *)
Fixpoint midpoints (l : list Q) : list Q :=
  match l with
  | a :: (b :: _) as t => ((a + b) / 2)%Q :: midpoints t
  | _ => []
  end.

Definition sample_cell_centres (l : list Q) : list Q := midpoints l.

Definition sample_cell_bounds (l : list Q) : list Q :=
  match l, rev l with
  | a :: b :: _, z :: y :: _ =>
      (a - (b - a) / 2)%Q :: midpoints l ++ [(z + (z - y) / 2)%Q]
  | _, _ => l
  end.

Definition sample_areas (xlon xlat : list Q) (r : Q) : matrix :=
  map (fun _ => map (fun _ => 1%Q) xlon) xlat.

Definition zero_kernel (lon2d lat2d pts : matrix) : matrix :=
  map (fun r => map (fun _ => 0%Q) (tl r)) (tl lon2d).

Definition sample_lonlat (d : OctantTrack) : matrix :=
  map (fun r => [lon (rec r); lat (rec r)]) d.

Definition sample_tridlonlat (d : OctantTrack) : matrix :=
  map (fun r => [inject_Z (track_idx r); lon (rec r); lat (rec r)]) d.

Definition sample_first_last (md : Z * Z) (d : OctantTrack)
  : result matrix := Ok (sample_lonlat d).

Definition sample_density (a : DensityArgs) :=
  density sample_cell_bounds sample_cell_centres sample_areas
          zero_kernel zero_kernel (fun _ _ => zero_kernel)
          (fun _ _ => zero_kernel) sample_lonlat sample_tridlonlat
          sample_first_last sample_first_last sample_KM2M a.

(** The default arguments of [density] on a grid of two by two cells given
    by its boundaries. *)
Definition default_dargs : DensityArgs :=
  {| lon1d := [0; 20; 40]%Q; lat1d := [50; 60; 70]%Q;
     by_ := "point"; dmethod := "cell"; dist := 222%Q;
     exclude_first := (10, 1)%Z; exclude_last := (4, 30)%Z;
     grid_centres := false; weight_by_area := false;
     d_r_planet := 6371009%Q |}.

(** One frame of another data source: a track of two records. *)
Definition other_track : list Point :=
  [ pt 10 60 0; pt 11 61 hour_ns ].

Definition with_by (b : string) (a : DensityArgs) : DensityArgs :=
  {| lon1d := lon1d a; lat1d := lat1d a; by_ := b; dmethod := dmethod a;
     dist := dist a; exclude_first := exclude_first a;
     exclude_last := exclude_last a; grid_centres := grid_centres a;
     weight_by_area := weight_by_area a; d_r_planet := d_r_planet a |}.

Definition with_dmethod (m : string) (a : DensityArgs) : DensityArgs :=
  {| lon1d := lon1d a; lat1d := lat1d a; by_ := by_ a; dmethod := m;
     dist := dist a; exclude_first := exclude_first a;
     exclude_last := exclude_last a; grid_centres := grid_centres a;
     weight_by_area := weight_by_area a; d_r_planet := d_r_planet a |}.

Definition with_grid (lons lats : list Q) (a : DensityArgs) : DensityArgs :=
  {| lon1d := lons; lat1d := lats; by_ := by_ a; dmethod := dmethod a;
     dist := dist a; exclude_first := exclude_first a;
     exclude_last := exclude_last a; grid_centres := grid_centres a;
     weight_by_area := weight_by_area a; d_r_planet := d_r_planet a |}.

(** A self run of one track of two records, at 0h30 and 1h30, and a track of
    another source of four records, at 0h, 1h, 2h and 3h, all at one place. *)
Definition half_hour_ns : Z := 1800000000000%Z.

Definition run_short : TrackRun :=
  {| data := [ row 0 0 (pt 10 60 half_hour_ns);
               row 0 1 (pt 10 60 (half_hour_ns + hour_ns)) ];
     cats := None; is_categorised := false; is_cat_inclusive := false;
     tstep_h := Some 1%Q; conf := None; sources := [] |}.

Definition long_track : list Point :=
  [ pt 10 60 0; pt 10 60 hour_ns; pt 10 60 (2 * hour_ns);
    pt 10 60 (3 * hour_ns) ].

Definition with_interpolate_to (i : string) (a : MatchArgs) : MatchArgs :=
  {| method := method a; interpolate_to := i;
     thresh_dist := thresh_dist a; time_frac := time_frac a;
     return_dist_matrix := return_dist_matrix a; beta := beta a;
     r_planet := r_planet a |}.

(** The groups of the two samples above. *)
Definition short_ct : list Row := rows_of 0%Z (data run_short).
Definition long_ct : list Row := rows_of 0%Z (concat_keyed 0%Z [long_track]).
Definition to_self_args : MatchArgs :=
  with_interpolate_to "self" default_args.

(** A run of one track, with the id 0, as [run_b] has. *)
Definition run_c : TrackRun :=
  {| data := [ row 0 0 (pt 5 55 0); row 0 1 (pt 6 56 hour_ns) ];
     cats := None; is_categorised := false; is_cat_inclusive := false;
     tstep_h := Some 1%Q; conf := None; sources := ["c"%string] |}.

Definition with_thresh_dist (d : Q) (a : MatchArgs) : MatchArgs :=
  {| method := method a; interpolate_to := interpolate_to a;
     thresh_dist := d; time_frac := time_frac a;
     return_dist_matrix := return_dist_matrix a; beta := beta a;
     r_planet := r_planet a |}.

(** method="intersection" with a radius of 0 km. *)
Definition zero_radius_args : MatchArgs :=
  with_thresh_dist 0%Q (with_method "intersection" default_args).

(** Two tracks with the same four timestamps: one stays at one place, the
    other leaves it after its second record. *)
Definition still_ct : list Row :=
  [ row 0 0 (pt 0 0 0); row 0 1 (pt 0 0 hour_ns);
    row 0 2 (pt 0 0 (2 * hour_ns)); row 0 3 (pt 0 0 (3 * hour_ns)) ].

Definition leaving_ct : list Row :=
  [ row 0 0 (pt 0 0 0); row 0 1 (pt 0 0 hour_ns);
    row 0 2 (pt 10 0 (2 * hour_ns)); row 0 3 (pt 10 0 (3 * hour_ns)) ].


(* ================================================================= *)
(** ** More notions used to state the properties *)

(** The two conditions under which [extend] refuses to concatenate: the
    categorisation flags of two runs with tracks differ, or both runs have a
    time step and the two differ. *)
Definition metadata_mismatch (self other : TrackRun) : Prop :=
  len self <> 0%nat /\ len other <> 0%nat
  /\ (is_cat_inclusive self <> is_cat_inclusive other
      \/ is_categorised self <> is_categorised other).

Definition tstep_mismatch (self other : TrackRun) : Prop :=
  exists a b,
    tstep_h self = Some a /\ tstep_h other = Some b /\ ~ (a == b)%Q.

(** What [extend] makes of a fresh TrackRun: a copy of [other] with the
    tracks and the categories renumbered; the categorisation flags are taken
    over from a run with tracks only, the settings only under
    [adapt_conf]. *)
Definition fresh_copy (other : TrackRun) (adapt_conf : bool) : TrackRun :=
  {| data := reindex (data other);
     cats := option_map reindex_cats (cats other);
     is_categorised :=
       if (0 <? len other)%nat then is_categorised other else false;
     is_cat_inclusive :=
       if (0 <? len other)%nat then is_cat_inclusive other else false;
     tstep_h := tstep_h other;
     conf := if adapt_conf then conf other else None;
     sources := sources other |}.

(** The renumbering of lines 331 and 342 read row by row: the new ids of
    the rows that follow a row of old id [prev], when [count] changes of
    the id have been counted so far. *)
Fixpoint renumber_after (prev count : Z) (ids : list Z) : list Z :=
  match ids with
  | [] => []
  | i :: rest =>
      let count' := (count + (if (i =? prev)%Z then 0 else 1))%Z in
      (count' - 1)%Z :: renumber_after i count' rest
  end.

(** A stand-in for [octant.utils.distance_metric] that is NaN throughout,
    and the arguments of [match_tracks] with a direction of interpolation
    that does not exist. *)
Definition nan_distance_metric (x1 y1 : list Q) (t1 : list Z)
  (x2 y2 : list Q) (t2 : list Z) (beta r : Q) : option Q := None.

Definition sideways_args : MatchArgs :=
  with_interpolate_to "both" default_args.

(** The arguments of [density] by radius on a grid whose boundaries
    descend. *)
Definition descending_radius_dargs : DensityArgs :=
  with_dmethod "radius" (with_grid [40; 20; 0]%Q [70; 60; 50]%Q default_dargs).

(* ================================================================= *)
(** ** The category methods: [rename_cats], [clear_categories],
       [classify] *)

(** [cats.rename(columns=mapping)]: a label that is a key of the mapping
    takes its value, every other label stays. *)
Definition rename_label (mapping : list (string * string)) (l : string)
  : string :=
  match dict_get l mapping with
  | Some new => new
  | None => l
  end.

Definition rename_columns (mapping : list (string * string)) (c : CatTable)
  : CatTable :=
  {| cat_columns := map (rename_label mapping) (cat_columns c);
     cat_rows := cat_rows c |}.

(** [TrackRun.rename_cats]. *)
Definition rename_cats (mapping : list (string * string)) : M unit :=
  (self <- get ;;
   if is_categorised self then
     match cats self with
     | None => raise AttributeError          (* None has no [rename] *)
     | Some c => modify (set_cats (Some (rename_columns mapping c)))
     end
   else raise NotCategorisedError)%monad.

(** Python's [sub in s] on strings. *)
Fixpoint contains (sub s : string) : bool :=
  String.prefix sub s
  || match s with
     | EmptyString => false
     | String _ s' => contains sub s'
     end.

(** The flags of one row of the categories under the columns that stay. *)
Fixpoint keep_flags (keep : string -> bool) (cols : list string)
  (flags : list bool) : list bool :=
  match cols, flags with
  | c :: cols', f :: flags' =>
      if keep c then f :: keep_flags keep cols' flags'
      else keep_flags keep cols' flags'
  | _, _ => []
  end.

(** [cats.drop(columns=...)]: every column with a dropped label goes. *)
Definition drop_columns (dropped : string -> bool) (c : CatTable)
  : CatTable :=
  let keep := fun l => negb (dropped l) in
  {| cat_columns := filter keep (cat_columns c);
     cat_rows := map (fun r => (fst r, keep_flags keep (cat_columns c) (snd r)))
                     (cat_rows c) |}.

(** [TrackRun.clear_categories]; [subset] is None or a label, [inclusive]
    is None or a bool. *)
Definition clear_categories (subset : option string)
  (inclusive : option bool) : M unit :=
  (self <- get ;;
   let inc := match inclusive with
              | Some b => b
              | None => is_cat_inclusive self
              end in
   match subset with
   | None => modify (set_cats None)
   | Some label =>
       match cats self with
       | None => raise AttributeError        (* None has no [drop] *)
       | Some c =>
           if inc then
             modify (set_cats (Some (drop_columns (contains label) c)))
           else if has_column label c then
             modify (set_cats (Some (drop_columns (String.eqb label) c)))
           else raise KeyError               (* label not found in axis *)
       end
   end ;;;
   self <- get ;;
   when (List.length (cat_labels self) =? 0)%nat
        (modify (set_is_categorised false) ;;;
         modify (set_is_cat_inclusive false)))%monad.

(** One entry of [conditions]: a label and the functions that a track has
    to pass. The functions are taken as pure and total, with a bool as
    their value. *)
Definition condition : Type := (string * list (OctantTrack -> bool))%type.

(** Lines 449-453: the label of an inclusive category, made of its own
    label and of the labels [previous] of the conditions before it. *)
Definition inclusive_label (label : string) (previous : list string)
  : string :=
  (label ++ (if (0 <? List.length previous)%nat then "|" else "")
         ++ String.concat "|" (rev previous))%string.

(** Lines 444-456; [previous] holds the labels of the conditions already
    seen. *)
Fixpoint cond_with_new_labels (inclusive : bool) (previous : list string)
  (conditions : list condition) : result (list condition) :=
  match conditions with
  | [] => Ok []
  | (label, funcs) :: rest =>
      if String.eqb label "all" then Raise ArgumentError
      else
        let lab := if inclusive then inclusive_label label previous
                   else label in
        (tail <- cond_with_new_labels inclusive (previous ++ [label]) rest ;;
         Ok ((lab, funcs) :: tail))%result
  end.

(** [Index.unique()]: the distinct values in the order of their first
    occurrence. *)
Fixpoint unique (l : list Z) : list Z :=
  match l with
  | [] => []
  | x :: t => x :: filter (fun y => negb (y =? x)%Z) (unique t)
  end.

(** Lines 469-477 for one track: the value of [_flag] under each label. *)
Fixpoint track_flags (inclusive : bool) (prev_flag : bool) (ot : OctantTrack)
  (conds : list condition) : list (string * bool) :=
  match conds with
  | [] => []
  | (label, funcs) :: rest =>
      let flag := fold_left (fun flag func => flag && func ot) funcs
                            (if inclusive then prev_flag else true) in
      (label, flag)
        :: track_flags inclusive (if inclusive then flag else prev_flag)
                       ot rest
  end.

(** [cats.loc[i, label] = True], on one row of the frame and on the
    frame. *)
Definition set_true_row (i : Z) (label : string) (cols : list string)
  (r : Z * list bool) : Z * list bool :=
  if (fst r =? i)%Z then
    (fst r, map (fun p => String.eqb label (fst p) || snd p)
                (combine cols (snd r)))
  else r.

Definition set_true (i : Z) (label : string) (c : CatTable) : CatTable :=
  {| cat_columns := cat_columns c;
     cat_rows := map (set_true_row i label (cat_columns c)) (cat_rows c) |}.

(** The body of the loop of line 467 for one track. *)
Definition classify_track (inclusive : bool) (conds : list condition)
  (c : CatTable) (g : Z * list Row) : CatTable :=
  fold_left (fun c lf => if snd lf : bool then set_true (fst g) (fst lf) c
                         else c)
            (track_flags inclusive true (snd g) conds) c.

(** [TrackRun.classify] with [clear=True], its default. [self.cats] is None
    after the clearing, and [pd.concat] drops it: the new frame of
    categories is the frame of False that the loop then fills. *)
Definition classify (conditions : list condition) (inclusive : bool)
  : M unit :=
  (clear_categories None None ;;;
   modify (set_is_cat_inclusive inclusive) ;;;
   conds <- lift (cond_with_new_labels inclusive [] conditions) ;;
   self <- get ;;
   let fresh :=
     {| cat_columns := map fst conds;
        cat_rows := map (fun i => (i, repeat false (List.length conds)))
                        (unique (map track_idx (data self))) |} in
   modify (set_cats (Some (fold_left (classify_track inclusive conds)
                                     (gb (data self)) fresh))) ;;;
   modify (set_is_categorised true))%monad.

(** Whether the loop over the conditions sets the column [col] for a track
    with the flags [flags]. *)
Definition flagged (col : string) (flags : list (string * bool)) : bool :=
  existsb (fun lf => String.eqb (fst lf) col && snd lf) flags.

(** One step of the loop over the conditions, and the loop over the
    tracks, on one row of the frame. *)
Definition row_step (i : Z) (cols : list string) (r : Z * list bool)
  (lf : string * bool) : Z * list bool :=
  if snd lf then set_true_row i (fst lf) cols r else r.

Definition row_track (inclusive : bool) (conds : list condition)
  (cols : list string) (r : Z * list bool) (g : Z * list Row)
  : Z * list bool :=
  fold_left (row_step (fst g) cols)
            (track_flags inclusive true (snd g) conds) r.

(** What a track has to pass to be in a category. *)
Definition passes (funcs : list (OctantTrack -> bool)) (ot : OctantTrack)
  : bool :=
  forallb (fun func => func ot) funcs.

(** The rows of [d] whose track passes [funcs]. *)
Definition tracks_passing (funcs : list (OctantTrack -> bool))
  (d : OctantTrack) : OctantTrack :=
  filter (fun r => passes funcs (rows_of (track_idx r) d)) d.

(** The run after a categorisation was cleared or could not start. *)
Definition without_cats (self : TrackRun) (inclusive : bool) : TrackRun :=
  {| data := data self; cats := None; is_categorised := false;
     is_cat_inclusive := inclusive; tstep_h := tstep_h self;
     conf := conf self; sources := sources self |}.

(** Sample conditions on [run_a]: tracks of more than one record, and
    tracks that start east of 15 degrees. *)
Definition is_long (ot : OctantTrack) : bool := (1 <? List.length ot)%nat.

Definition starts_east (ot : OctantTrack) : bool :=
  match ot with
  | r :: _ => Qltb 15 (lon (rec r))
  | [] => false
  end.

Definition sample_conditions : list condition :=
  [ ("long"%string, [is_long]); ("east"%string, [starts_east]) ].

(* ================================================================= *)
(** * Properties *)

Unset Implicit Arguments.

(** ** Comparisons of rationals *)

Lemma Qltb_lt (a b : Q) : Qltb a b = true <-> (a < b)%Q.
Proof.
  unfold Qltb. rewrite negb_true_iff. split; intro H.
  - apply Qnot_le_lt. intro Hle. apply Qle_bool_iff in Hle. congruence.
  - destruct (Qle_bool b a) eqn:E; trivial.
    apply Qle_bool_iff in E. exfalso. exact (Qlt_not_le _ _ H E).
Qed.

Lemma Qltb_irrefl (a : Q) : Qltb a a = false.
Proof.
  destruct (Qltb a a) eqn:E; trivial.
  apply Qltb_lt in E. exfalso. exact (Qlt_irrefl _ E).
Qed.


(* ================================================================= *)
(** ** [extend]: what each step does to [data] and [cats] *)

Ltac split_match :=
  match goal with
  | |- context [match ?x with _ => _ end] => destruct x eqn:?
  | H : context [match ?x with _ => _ end] |- _ => destruct x eqn:?
  end.

Ltac inv_pair :=
  repeat match goal with
         | H : (_, _) = (_, _) |- _ => inversion H; subst; clear H
         end.

Lemma size_no_subset (tr : TrackRun) : size tr SubNone = Ok (len tr).
Proof. reflexivity. Qed.

Lemma check_cat_metadata_frame (other s s' : TrackRun) (r : result unit) :
  check_cat_metadata other s = (r, s') ->
  data s' = data s /\ cats s' = cats s.
Proof.
  unfold check_cat_metadata, bind, get, lift, raise, ret, modify.
  rewrite !size_no_subset. intro H.
  repeat split_match; inv_pair; auto.
Qed.

Lemma check_tstep_frame (other s s' : TrackRun) (r : result unit) :
  check_tstep other s = (r, s') ->
  data s' = data s /\ cats s' = cats s.
Proof.
  unfold check_tstep, bind, get, raise, ret, modify. intro H.
  repeat split_match; inv_pair; auto.
Qed.

Lemma merge_conf_frame (other s s' : TrackRun) (a : bool) (r : result unit) :
  merge_conf other a s = (r, s') ->
  data s' = data s /\ cats s' = cats s.
Proof.
  unfold merge_conf, bind, get, lift, raise, ret, modify. intro H.
  repeat split_match; inv_pair; auto.
Qed.

(** The three steps that can raise come first, and a run that gets past them
    ends well, with the tracks concatenated and re-indexed. *)
Lemma extend_cases (other s s' : TrackRun) (a : bool) (r : result unit) :
  extend other a s = (r, s') ->
  (exists e, r = Raise e /\ data s' = data s /\ cats s' = cats s)
  \/ (r = Ok tt /\ data s' = reindex (data s ++ data other)).
Proof.
  unfold extend. unfold bind at 1.
  destruct (check_cat_metadata other s) as [r1 s1] eqn:E1.
  apply check_cat_metadata_frame in E1 as [D1 C1].
  destruct r1 as [[]|e1].
  2:{ intro H; inv_pair. left. eauto. }
  unfold bind at 1.
  destruct (check_tstep other s1) as [r2 s2] eqn:E2.
  apply check_tstep_frame in E2 as [D2 C2].
  destruct r2 as [[]|e2].
  2:{ intro H; inv_pair. left. exists e2. intuition congruence. }
  unfold bind at 1.
  destruct (merge_conf other a s2) as [r3 s3] eqn:E3.
  apply merge_conf_frame in E3 as [D3 C3].
  destruct r3 as [[]|e3].
  2:{ intro H; inv_pair. left. exists e3. intuition congruence. }
  cbv [bind modify concat_data concat_categories get ret].
  simpl. intro H. right.
  repeat split_match; inv_pair; simpl; split; trivial; congruence.
Qed.

(* ================================================================= *)
(** ** Re-indexing *)

Lemma ne_shift_cons (x : Z) (t : list Z) :
  ne (x :: t) (shift (x :: t))
  = true :: ne t (map Some (removelast (x :: t))).
Proof. reflexivity. Qed.

Lemma ne_length (x : Z) (t : list Z) :
  List.length (ne t (map Some (removelast (x :: t)))) = List.length t.
Proof.
  revert x. induction t as [|y t IH]; intro x; trivial.
  change (removelast (x :: y :: t)) with (x :: removelast (y :: t)).
  simpl map. simpl ne. simpl List.length. f_equal. apply IH.
Qed.

Lemma cumsum_from_length (acc : Z) (l : list bool) :
  List.length (cumsum_from acc l) = List.length l.
Proof.
  revert acc. induction l as [|b l IH]; intro acc; simpl; auto.
Qed.

Lemma renumber_length (ids : list Z) :
  List.length (renumber ids) = List.length ids.
Proof.
  unfold renumber, cumsum. rewrite length_map, cumsum_from_length.
  destruct ids as [|x t]; trivial.
  rewrite ne_shift_cons. simpl. f_equal. apply ne_length.
Qed.

Lemma cumsum_from_climbs (acc : Z) (l : list bool) :
  climbs (acc - 1) (map (fun c => (c - 1)%Z) (cumsum_from acc l)).
Proof.
  revert acc. induction l as [|b l IH]; intro acc; simpl; trivial.
  split; [destruct b; lia | apply IH].
Qed.

Lemma renumber_contiguous (ids : list Z) :
  contiguous_from_zero (renumber ids).
Proof.
  destruct ids as [|x t]; [exact I|].
  unfold renumber, cumsum. rewrite ne_shift_cons.
  split; trivial. apply (cumsum_from_climbs 1).
Qed.

Lemma set_track_idx_ids (ids : list Z) (d : OctantTrack) :
  List.length ids = List.length d ->
  map track_idx (set_track_idx ids d) = ids.
Proof.
  revert d. induction ids as [|i ids IH]; intros [|r d] H;
    simpl in *; try discriminate; trivial.
  f_equal. apply IH. lia.
Qed.

Lemma set_track_idx_payload (ids : list Z) (d : OctantTrack) :
  List.length ids = List.length d ->
  payload (set_track_idx ids d) = payload d.
Proof.
  revert d. induction ids as [|i ids IH]; intros [|r d] H;
    simpl in *; try discriminate; trivial.
  f_equal. apply IH. lia.
Qed.

Lemma reindex_ids (d : OctantTrack) :
  map track_idx (reindex d) = renumber (map track_idx d).
Proof.
  apply set_track_idx_ids. now rewrite renumber_length, length_map.
Qed.

Lemma reindex_payload (d : OctantTrack) : payload (reindex d) = payload d.
Proof.
  apply set_track_idx_payload. now rewrite renumber_length, length_map.
Qed.

Lemma id_range_succ (a : Z) (n : nat) :
  id_range a (S n) = a :: id_range (a + 1) n.
Proof.
  unfold id_range. simpl seq. rewrite <- seq_shift. simpl map.
  rewrite map_map. f_equal; [lia|]. apply map_ext. intro i. lia.
Qed.

(** The keys of a frame whose ids climb are a range of integers. *)
Lemma climbing_keys (t : list Z) (a : Z) :
  climbs a t ->
  exists n, fold_right insert_key [] (a :: t) = id_range a (S n).
Proof.
  revert a. induction t as [|b t IH]; intros a H.
  - exists O. simpl. unfold id_range. simpl. f_equal. lia.
  - destruct H as [Hb Ht]. destruct (IH b Ht) as [n Hn].
    simpl in *. rewrite Hn. rewrite id_range_succ. simpl.
    destruct Hb as [-> | ->].
    + exists n. rewrite Z.ltb_irrefl, Z.eqb_refl. now rewrite id_range_succ.
    + exists (S n). replace (a <? a + 1)%Z with true by (symmetry; lia).
      rewrite (id_range_succ a (S n)). f_equal. now rewrite id_range_succ.
Qed.

Lemma contiguous_keys (d : OctantTrack) :
  contiguous_from_zero (map track_idx d) ->
  map fst (gb d) = zero_based (List.length (gb d)).
Proof.
  unfold gb. rewrite map_map, length_map. simpl. rewrite map_id.
  unfold group_keys. destruct (map track_idx d) as [|i t]; trivial.
  intros [-> Ht]. destruct (climbing_keys _ _ Ht) as [n Hn].
  rewrite Hn. unfold id_range, zero_based.
  rewrite length_map, length_seq. reflexivity.
Qed.

Lemma payload_app (a b : OctantTrack) :
  payload (a ++ b) = payload a ++ payload b.
Proof. apply map_app. Qed.

Lemma add_cases (self other new : TrackRun) :
  add self other = Ok new ->
  exists mid,
    data mid = reindex (data self)
    /\ data new = reindex (data mid ++ data other).
Proof.
  unfold add.
  destruct (extend self true init) as [r1 mid] eqn:E1.
  destruct r1 as [[]|e]; [|discriminate].
  destruct (extend other true mid) as [r2 new'] eqn:E2.
  destruct r2 as [[]|e]; [|discriminate].
  intro H. injection H as ->. exists mid.
  apply extend_cases in E1 as [(e & He & _)|[_ D1]]; [discriminate|].
  apply extend_cases in E2 as [(e & He & _)|[_ D2]]; [discriminate|].
  split; assumption.
Qed.

(** C2 fails on the code. [extend] tells the tracks of the concatenated
    frame apart by the changes of the id from one row to the next (line
    331), and so takes the last track of [self] and the first track of
    [other] for one track when the two carry the same id. Here both runs
    have one track, with the id 0 and two records: after [extend], and after
    [__add__], the ids are 0 on all four rows, the result has one track where
    two tracks went in, and the track of [other] is no track of the
    result. *)
Lemma extend_merges_tracks_at_the_seam :
  let new := snd (extend run_b true run_c) in
  fst (extend run_b true run_c) = Ok tt
  /\ (exists sum, add run_c run_b = Ok sum /\ data sum = data new)
  /\ map track_idx (data new) = [0; 0; 0; 0]%Z
  /\ List.length (gb (data run_c)) = 1%nat
  /\ List.length (gb (data run_b)) = 1%nat
  /\ List.length (gb (data new)) = 1%nat
  /\ ~ exists g, In g (gb (data new))
                 /\ payload (snd g) = payload (data run_b).
Proof.
  split; [reflexivity|]. split; [eexists; split; reflexivity|].
  split; [reflexivity|]. split; [reflexivity|]. split; [reflexivity|].
  split; [reflexivity|].
  intros (g & [<-|[]] & H). vm_compute in H. discriminate.
Qed.

(** C10. When [extend] raises a ConcatenationError, [data] and [cats] of the
    receiving TrackRun are what they were before the call. *)
Theorem extend_error_keeps_data
  (self other self' : TrackRun) (adapt_conf : bool) :
  extend other adapt_conf self = (Raise ConcatenationError, self') ->
  data self' = data self /\ cats self' = cats self.
Proof.
  intro H.
  apply extend_cases in H as [(e & _ & D & C)|[He _]];
    [split; assumption | discriminate].
Qed.

Lemma extend_error_keeps_data_witness :
  let self' := snd (extend run_b_3h true run_a) in
  data self' = data run_a /\ cats self' = cats run_a.
Proof.
  apply (extend_error_keeps_data run_a run_b_3h _ true).
  vm_compute. reflexivity.
Defined.

(* ================================================================= *)
(** ** Subset selection *)

Lemma has_column_In (l : string) (c : CatTable) :
  has_column l c = true <-> In l (cat_columns c).
Proof.
  unfold has_column. rewrite existsb_exists. split.
  - intros (x & Hx & E). apply String.eqb_eq in E. now subst.
  - intro H. exists l. split; trivial. apply String.eqb_refl.
Qed.

Lemma and_mask_map (c : CatTable) (f : Z * list bool -> bool) (l : string) :
  and_mask (Some (map f (cat_rows c))) (cat_column l c)
  = map (fun r => f r && cell (cat_columns c) (snd r) l) (cat_rows c).
Proof.
  unfold and_mask, cat_column.
  induction (cat_rows c) as [|r rows IH]; simpl; trivial.
  now rewrite IH.
Qed.

Lemma select_loop_known (c : CatTable) (labels : list string) :
  forall f : Z * list bool -> bool,
    (forall l, In l labels -> In l (cat_columns c)) ->
    select_loop c (Some (map f (cat_rows c))) labels
    = Ok (Some (map (fun r => f r
                              && forallb (cell (cat_columns c) (snd r)) labels)
                    (cat_rows c))).
Proof.
  induction labels as [|l rest IH]; intros f Hk; cbn [select_loop].
  - do 2 f_equal. apply map_ext. intro r. simpl. now rewrite andb_true_r.
  - assert (has_column l c = true) as -> by (apply has_column_In, Hk; now left).
    cbn [negb]. cbv iota.
    rewrite and_mask_map, IH by (intros; apply Hk; now right).
    do 2 f_equal. apply map_ext. intro r. simpl. now rewrite andb_assoc.
Qed.

Lemma select_loop_unknown (c : CatTable) (pre post : list string)
  (l : string) :
  forall sel,
    (forall x, In x pre -> In x (cat_columns c)) ->
    ~ In l (cat_columns c) ->
    select_loop c sel (pre ++ l :: post) = Raise (SelectError l).
Proof.
  induction pre as [|x pre IH]; intros sel Hk Hl; cbn [app select_loop].
  - destruct (has_column l c) eqn:E; trivial.
    apply has_column_In in E. contradiction.
  - assert (has_column x c = true) as -> by (apply has_column_In, Hk; now left).
    cbn [negb]. cbv iota. apply IH; trivial. intros; apply Hk; now right.
Qed.

Lemma masked_index_map (rows : list (Z * list bool))
  (g : Z * list bool -> bool) :
  masked_index rows (map g rows) = map fst (filter g rows).
Proof.
  induction rows as [|r rows IH]; simpl; trivial.
  destruct (g r); simpl; now rewrite IH.
Qed.

Lemma select_known (c : CatTable) (labels : list string) :
  labels <> [] ->
  (forall l, In l labels -> In l (cat_columns c)) ->
  (selected <- select_loop c None labels ;;
   match selected with
   | None => Raise KeyError
   | Some mask => Ok (masked_index (cat_rows c) mask)
   end)%result
  = Ok (members_of_all c labels).
Proof.
  destruct labels as [|l rest]; [congruence|]. intros _ Hk.
  cbn [select_loop].
  assert (has_column l c = true) as -> by (apply has_column_In, Hk; now left).
  cbn [negb]. cbv iota.
  change (and_mask None (cat_column l c))
    with (map (fun r => cell (cat_columns c) (snd r) l) (cat_rows c)).
  rewrite select_loop_known by (intros; apply Hk; now right).
  simpl. now rewrite masked_index_map.
Qed.

Lemma filter_nothing {A : Type} (f : A -> bool) (l : list A) :
  (forall x, In x l -> f x = false) -> filter f l = [].
Proof.
  induction l as [|a l IH]; intro H; trivial. simpl.
  rewrite (H a (or_introl eq_refl)). apply IH. intros; apply H; now right.
Qed.

Lemma filter_filter_implied {A : Type} (f g : A -> bool) (l : list A) :
  (forall x, In x l -> f x = true -> g x = true) ->
  filter f (filter g l) = filter f l.
Proof.
  induction l as [|a l IH]; intro H; trivial. simpl.
  destruct (g a) eqn:Eg; simpl.
  - now rewrite IH by (intros x Hx; apply H; now right).
  - destruct (f a) eqn:Ef.
    + rewrite (H a (or_introl eq_refl) Ef) in Eg. discriminate.
    + apply IH. intros x Hx. apply H. now right.
Qed.

Lemma index_of_nth_error (cols : list string) (l : string) (i : nat) :
  index_of l cols = Some i -> nth_error cols i = Some l.
Proof.
  revert i. induction cols as [|h t IH]; intro i; [discriminate|]. simpl.
  destruct (String.eqb_spec l h) as [->|Hne].
  - intro H. now injection H as <-.
  - destruct (index_of l t) as [j|]; [|discriminate].
    intro H. injection H as <-. now apply IH.
Qed.

Lemma nth_error_index_of (cols : list string) (l : string) (i : nat) :
  NoDup cols -> nth_error cols i = Some l -> index_of l cols = Some i.
Proof.
  revert i. induction cols as [|h t IH]; intros i Hnd H;
    [now destruct i|].
  apply NoDup_cons_iff in Hnd as [Hh Hnd]. simpl.
  destruct i as [|i]; simpl in H.
  - injection H as ->. now rewrite String.eqb_refl.
  - destruct (String.eqb_spec l h) as [->|Hne].
    + exfalso. apply Hh. eapply nth_error_In. eassumption.
    + now rewrite (IH i Hnd H).
Qed.

(** Under distinct labels, the cell that the code reads is the flag of the
    row under the label. *)
Lemma cell_flag_under (cols : list string) (flags : list bool)
  (l : string) :
  NoDup cols -> cell cols flags l = true <-> flag_under cols flags l.
Proof.
  intro Hnd. unfold cell, flag_under. split.
  - destruct (index_of l cols) as [i|] eqn:E; [|discriminate].
    intro H. exists i. split; [now apply index_of_nth_error|].
    destruct (nth_error flags i) as [b|] eqn:En.
    + now rewrite (nth_error_nth _ _ false En) in H; subst.
    + apply nth_error_None in En. rewrite nth_overflow in H by assumption.
      discriminate.
  - intros (i & Hc & Hf). rewrite (nth_error_index_of _ _ _ Hnd Hc).
    now apply nth_error_nth.
Qed.

Lemma members_in_all (c : CatTable) (labels : list string) (k : Z) :
  NoDup (cat_columns c) ->
  In k (members_of_all c labels) <-> in_all c labels k.
Proof.
  intro Hnd. unfold members_of_all, in_all.
  rewrite in_map_iff. split.
  - intros ([k' flags] & <- & H). apply filter_In in H as [Hin Hall].
    exists flags. split; trivial. intros l Hl.
    apply (cell_flag_under _ _ _ Hnd).
    rewrite forallb_forall in Hall. now apply Hall.
  - intros (flags & Hin & Hall). exists (k, flags). split; trivial.
    apply filter_In. split; trivial. apply forallb_forall.
    intros l Hl. apply (cell_flag_under _ _ _ Hnd). now apply Hall.
Qed.

(** C9, as the code has it. A selection with no label (None, [slice(None)]
    or "all"), and every selection on a TrackRun without tracks, gives all of
    [data]. On a TrackRun with tracks that is categorised, with distinct
    labels on its columns: a label or a list of labels, all of them columns
    of [cats], gives rows of [data], those of the tracks that are true under
    every label, when all of these tracks have rows in [data]; and every such
    track comes with its rows in their order, when the ids of the rows of
    [cats] are distinct. A selection whose first label outside of the
    columns is [l] raises [SelectError l]. On a TrackRun with tracks that is
    not categorised, a selection by label raises NotCategorisedError. *)
Theorem getitem_selection (self : TrackRun) (subset : subset_arg) :
  (selects_all subset = true \/ len self = 0%nat ->
   getitem self subset = Ok (data self))
  /\ (selects_all subset = false -> len self <> 0%nat ->
      is_categorised self = false ->
      getitem self subset = Raise NotCategorisedError)
  /\ (forall c : CatTable,
         selects_all subset = false -> len self <> 0%nat ->
         is_categorised self = true -> cats self = Some c ->
         NoDup (cat_columns c) ->
         (subset_labels subset <> [] ->
          (forall l, In l (subset_labels subset) -> In l (cat_columns c)) ->
          (forall k, in_all c (subset_labels subset) k ->
                     In k (map track_idx (data self))) ->
          exists d,
            getitem self subset = Ok d
            /\ (forall r,
                   In r d
                   <-> In r (data self)
                       /\ in_all c (subset_labels subset) (track_idx r))
            /\ (NoDup (map fst (cat_rows c)) ->
                forall k, in_all c (subset_labels subset) k ->
                          rows_of k d = rows_of k (data self)))
         /\ (forall pre l post,
                subset_labels subset = pre ++ l :: post ->
                (forall x, In x pre -> In x (cat_columns c)) ->
                ~ In l (cat_columns c) ->
                getitem self subset = Raise (SelectError l))).
Proof.
  unfold getitem. split; [|split].
  - intros [-> | ->]; trivial. now rewrite orb_true_r.
  - intros -> Hn ->. apply Nat.eqb_neq in Hn. now rewrite Hn.
  - intros c -> Hn -> -> Hnd. apply Nat.eqb_neq in Hn. rewrite Hn.
    cbn [orb]. cbv iota. split.
    + intros Hne Hk _. pose proof (select_known c _ Hne Hk) as H.
      destruct (select_loop c None (subset_labels subset)) as [[mask|]|e];
        simpl in H; try discriminate.
      injection H as H. cbn [rbind]. rewrite H. eexists.
      split; [reflexivity|]. unfold loc. split.
      * intro r. rewrite filter_In, existsb_exists. split.
        -- intros [Hr (k & Hm & Ek)]. apply Z.eqb_eq in Ek. subst k.
           split; trivial. now apply members_in_all.
        -- intros [Hr Hin]. split; trivial. exists (track_idx r).
           split; [now apply members_in_all | apply Z.eqb_refl].
      * intros _ k Hin. unfold rows_of. apply filter_filter_implied.
        intros r _ Er. apply Z.eqb_eq in Er. subst k.
        apply existsb_exists. exists (track_idx r).
        split; [now apply members_in_all | apply Z.eqb_refl].
    + intros pre l post -> Hk Hl.
      now rewrite (select_loop_unknown c pre post l None Hk Hl).
Qed.

Lemma getitem_selection_witness :
  (exists d,
      getitem run_a_cats (SubList ["strong"; "long"]%string) = Ok d
      /\ In (row 3 1 (pt 11 61 hour_ns)) d
      /\ ~ In (row 7 0 (pt 20 70 0)) d)
  /\ getitem run_a_cats (SubStr "weak") = Raise (SelectError "weak").
Proof.
  pose (c := {| cat_columns := ["strong"%string; "long"%string];
                cat_rows := [ (3%Z, [true; true]); (7%Z, [true; false]) ] |}).
  assert (NoDup (cat_columns c)) as Hnd
      by (repeat constructor; simpl; intuition discriminate).
  pose proof (proj2 (proj2 (getitem_selection run_a_cats
                              (SubList ["strong"; "long"]%string)))
                    c eq_refl ltac:(vm_compute; discriminate)
                    eq_refl eq_refl Hnd) as [Hsel _].
  pose proof (proj2 (proj2 (getitem_selection run_a_cats (SubStr "weak")))
                    c eq_refl ltac:(vm_compute; discriminate)
                    eq_refl eq_refl Hnd) as [_ Herr].
  split.
  - destruct Hsel as (d & Hd & Hin & _).
    + discriminate.
    + simpl. tauto.
    + intros k (flags & [Hk|[Hk|[]]] & Hall).
      * injection Hk as <- _. simpl. tauto.
      * injection Hk as <- <-.
        destruct (Hall "long"%string) as (i & Hc & Hf);
          [simpl; tauto|].
        destruct i as [|[|i]]; simpl in Hc, Hf; try discriminate.
        destruct i; discriminate.
    + exists d. split; trivial. split.
      * apply Hin. split; [simpl; tauto|].
        exists [true; true]. split; [now left|].
        intros l [<-|[<-|[]]]; [now exists 0%nat | now exists 1%nat].
      * intro H7. apply Hin in H7 as [_ (flags & [Hk|[Hk|[]]] & Hall)].
        -- discriminate.
        -- injection Hk as <-.
           destruct (Hall "long"%string) as (i & Hc & Hf);
             [simpl; tauto|].
           destruct i as [|[|i]]; simpl in Hc, Hf; try discriminate.
           destruct i; discriminate.
  - apply (Herr [] "weak"%string [] eq_refl).
    + intros x [].
    + simpl. intros [H|[H|[]]]; discriminate.
Defined.

(** C9 as stated fails: on a TrackRun without tracks, the selection by a
    label that is not a category returns the (empty) data and raises
    nothing. *)
Lemma getitem_unknown_label_no_error :
  ~ In "polar"%string (cat_labels init)
  /\ getitem init (SubStr "polar") = Ok (data init)
  /\ forall e, getitem init (SubStr "polar") <> Raise e.
Proof.
  split; [intros []|]. split; [reflexivity|]. intros e H. discriminate.
Qed.

(* ================================================================= *)
(** ** The dispatch over the categories *)

Lemma dict_get_set_same {V : Type} (k : string) (v : V)
  (d : list (string * V)) :
  dict_get k (dict_set k v d) = Some v.
Proof.
  induction d as [|[k' v'] d IH]; simpl.
  - now rewrite String.eqb_refl.
  - destruct (String.eqb k k') eqn:E; simpl; rewrite ?String.eqb_refl, ?E;
      trivial.
Qed.

Lemma dict_get_set_other {V : Type} (k k0 : string) (v : V)
  (d : list (string * V)) :
  k <> k0 -> dict_get k (dict_set k0 v d) = dict_get k d.
Proof.
  intro Hne. apply String.eqb_neq in Hne.
  induction d as [|[k' v'] d IH]; simpl.
  - now rewrite Hne.
  - destruct (String.eqb k0 k') eqn:E; simpl.
    + apply String.eqb_eq in E. subst k'. now rewrite Hne.
    + now rewrite IH.
Qed.

Lemma dict_set_fresh {V : Type} (k : string) (v : V)
  (d : list (string * V)) :
  ~ In k (map fst d) -> dict_set k v d = d ++ [(k, v)].
Proof.
  induction d as [|[k' v'] d IH]; simpl; trivial. intro H.
  destruct (String.eqb k k') eqn:E.
  - apply String.eqb_eq in E. subst. tauto.
  - rewrite IH; tauto.
Qed.

Lemma dispatch_ext {V : Type} (f g : string -> option (result V))
  (labels : list string) :
  (forall k, f k = g k) ->
  forall acc, dispatch f labels acc = dispatch g labels acc.
Proof.
  intro H. induction labels as [|k rest IH]; intro acc; simpl; trivial.
  rewrite H. destruct (g k) as [[v|e]|]; trivial.
Qed.

(** A dispatch whose calls all come back comes back. *)
Lemma dispatch_returns {V : Type} (call : string -> option (result V))
  (labels : list string) :
  (forall k, call k <> None) ->
  forall acc, exists out, dispatch call labels acc = Some out.
Proof.
  intro H. induction labels as [|k rest IH]; intro acc; simpl; eauto.
  destruct (call k) as [[v|e]|] eqn:E; eauto. now apply H in E.
Qed.

Lemma dispatch_ok {V : Type} (call : string -> option (result V))
  (labels : list string) :
  forall acc d,
    dispatch call labels acc = Some (Ok d) ->
    (forall k, In k labels ->
               exists v, call k = Some (Ok v) /\ dict_get k d = Some v)
    /\ (forall k, ~ In k labels -> dict_get k d = dict_get k acc)
    /\ (NoDup (map fst acc ++ labels) -> map fst d = map fst acc ++ labels).
Proof.
  induction labels as [|key rest IH]; intros acc d H; simpl in H.
  - inversion H; subst; clear H. split; [intros k []|].
    split; trivial. intros _. now rewrite app_nil_r.
  - destruct (call key) as [[v|e]|] eqn:E; try discriminate.
    destruct (IH _ _ H) as (Hin & Hout & Hkeys). repeat split.
    + intros k [<-|Hk]; [|now apply Hin].
      destruct (in_dec string_dec key rest) as [Hr|Hr]; [now apply Hin|].
      exists v. split; trivial.
      rewrite (Hout _ Hr). apply dict_get_set_same.
    + intros k Hk. simpl in Hk. rewrite Hout by tauto.
      apply dict_get_set_other. intro; subst; tauto.
    + intro Hnd. assert (~ In key (map fst acc)) as Hfresh.
      { intro Hk. apply NoDup_remove_2 in Hnd. apply Hnd.
        apply in_or_app. now left. }
      rewrite dict_set_fresh in Hkeys by trivial.
      rewrite map_app in Hkeys. simpl in Hkeys.
      rewrite <- app_assoc in Hkeys. simpl in Hkeys. now apply Hkeys.
Qed.

Lemma dispatch_raise {V : Type} (call : string -> option (result V))
  (labels : list string) :
  forall acc e,
    dispatch call labels acc = Some (Raise e) ->
    exists pre k post,
      labels = pre ++ k :: post
      /\ (forall x, In x pre -> exists v, call x = Some (Ok v))
      /\ call k = Some (Raise e).
Proof.
  induction labels as [|key rest IH]; intros acc e H; simpl in H;
    [discriminate|].
  destruct (call key) as [[v|e']|] eqn:E; try discriminate.
  - destruct (IH _ _ H) as (pre & k & post & -> & Hpre & Hk).
    exists (key :: pre), k, post. repeat split; trivial.
    intros x [<-|Hx]; eauto.
  - inversion H; subst; clear H. exists [], key, rest.
    repeat split; trivial. intros x [].
Qed.

Lemma dispatch_maps_labels {V : Type} (call : string -> option (result V))
  (labels : list string) (out : result (list (string * V))) :
  dispatch call labels [] = Some out -> maps_labels call labels out.
Proof.
  destruct out as [d|e]; intro H; simpl.
  - apply dispatch_ok in H as (Hin & Hout & Hkeys). repeat split; trivial.
  - now apply dispatch_raise in H.
Qed.

(* ================================================================= *)
(** ** [match_tracks]: the paths through the method *)

Section MatchTracksPaths.

Variable great_circle : Q -> Q -> Q -> Q -> Q -> Q.
Variable distance_metric :
  list Q -> list Q -> list Z -> list Q -> list Q -> list Z ->
  Q -> Q -> option Q.
Variables HOUR KM2M FILLVAL : Q.
Variable args : MatchArgs.

Local Abbreviation match_tracks_fuel' :=
  (match_tracks_fuel great_circle distance_metric HOUR KM2M FILLVAL args).
Local Abbreviation match_tracks' :=
  (match_tracks great_circle distance_metric HOUR KM2M FILLVAL args).
Local Abbreviation match_selected' :=
  (match_selected great_circle distance_metric HOUR KM2M FILLVAL args).
Local Abbreviation run_method' :=
  (run_method great_circle distance_metric HOUR KM2M FILLVAL args).

Lemma match_tracks_fuel_resolved (fuel : nat) (self : TrackRun)
  (others : others_arg) (subset s : subset_arg) :
  resolved self subset = Some s ->
  match_tracks_fuel' (S fuel) self others subset
  = Some (match_selected' self others s).
Proof.
  destruct subset; simpl; try (intro H; injection H as <-; reflexivity).
  destruct (is_categorised self); [discriminate|].
  intro H; injection H as <-; reflexivity.
Qed.

Lemma match_tracks_fuel_label (fuel : nat) (self : TrackRun)
  (others : others_arg) (k : string) :
  match_tracks_fuel' (S fuel) self others (SubStr k)
  = Some (match_selected' self others (SubStr k)).
Proof. reflexivity. Qed.

Lemma match_tracks_resolved (self : TrackRun) (others : others_arg)
  (subset s : subset_arg) :
  resolved self subset = Some s ->
  match_tracks' self others subset = Some (match_selected' self others s).
Proof. apply match_tracks_fuel_resolved. Qed.

Lemma match_tracks_fuel_dispatch (fuel : nat) (self : TrackRun)
  (others : others_arg) :
  is_categorised self = true ->
  match_tracks_fuel' (S (S fuel)) self others SubNone
  = match dispatch (fun k => match_tracks' self others (SubStr k))
                   (cat_labels self) [] with
    | Some r => Some (rmap MDict r)
    | None => None
    end.
Proof.
  intro Hc. cbn [match_tracks_fuel]. rewrite Hc.
  rewrite (dispatch_ext _ (fun k => match_tracks' self others (SubStr k)))
    by reflexivity.
  destruct (dispatch _ _ _) as [[d|e]|]; reflexivity.
Qed.

(** Two levels of calls are enough, and more change nothing. *)
Lemma match_tracks_depth (fuel : nat) (self : TrackRun)
  (others : others_arg) (subset : subset_arg) :
  match_tracks_fuel' (S (S fuel)) self others subset
  = match_tracks' self others subset
  /\ exists r, match_tracks' self others subset = Some r.
Proof.
  destruct (resolved self subset) as [s|] eqn:E.
  - unfold match_tracks.
    rewrite !(match_tracks_fuel_resolved _ _ _ _ _ E). eauto.
  - destruct subset; try discriminate. simpl in E.
    destruct (is_categorised self) eqn:Hc; [|discriminate].
    unfold match_tracks. rewrite !match_tracks_fuel_dispatch by trivial.
    split; trivial.
    destruct (dispatch_returns
                (fun k => match_tracks' self others (SubStr k))
                (cat_labels self)) with (acc := @nil (string * match_result))
      as [out ->]; [discriminate | eauto].
Qed.

Lemma run_method_not_dict (sub_gb other_gb : list group)
  (v : match_result) :
  run_method' sub_gb other_gb = Ok v -> forall d, v <> MDict d.
Proof.
  unfold run_method, rbind. intros H d ->.
  repeat split_match; simpl in *; try discriminate.
Qed.

(** The call for one subset never answers with a dictionary. *)
Lemma match_selected_not_dict (self : TrackRun) (others : others_arg)
  (s : subset_arg) (v : match_result) :
  match_selected' self others s = Ok v -> forall d, v <> MDict d.
Proof.
  unfold match_selected. intros H d ->.
  destruct (getitem self s); simpl in H; [|discriminate].
  destruct (_ =? 0)%nat; [discriminate|].
  destruct (len_others others); simpl in H; [|discriminate].
  destruct (_ =? 0)%nat; [discriminate|].
  destruct (other_groups others s); simpl in H; [|discriminate].
  exact (run_method_not_dict _ _ _ H d eq_refl).
Qed.

Lemma match_selected_empty (self : TrackRun) (others : others_arg)
  (s : subset_arg) (sub_df : OctantTrack) :
  getitem self s = Ok sub_df ->
  gb sub_df = [] \/ len_others others = Ok 0%nat ->
  match_selected' self others s = Ok (MPairs []).
Proof.
  unfold match_selected. intros -> H. simpl.
  destruct (List.length (gb sub_df) =? 0)%nat eqn:E; trivial.
  destruct H as [H| ->]; [now rewrite H in E | reflexivity].
Qed.

End MatchTracksPaths.

(* ================================================================= *)
(** ** [density]: the paths through the method *)

Section DensityPaths.

Variables cell_bounds cell_centres : list Q -> list Q.
Variable grid_cell_areas : list Q -> list Q -> Q -> matrix.
Variables point_density_cell track_density_cell
  : matrix -> matrix -> matrix -> matrix.
Variables point_density_rad track_density_rad
  : Q -> Q -> matrix -> matrix -> matrix -> matrix.
Variables lonlat_c tridlonlat_c : OctantTrack -> matrix.
Variables genesis_points lysis_points : Z * Z -> OctantTrack -> result matrix.
Variable KM2M : Q.
Variable dargs : DensityArgs.

Local Abbreviation density_fuel' :=
  (density_fuel cell_bounds cell_centres grid_cell_areas
                point_density_cell track_density_cell
                point_density_rad track_density_rad lonlat_c tridlonlat_c
                genesis_points lysis_points KM2M dargs).
Local Abbreviation density' :=
  (density cell_bounds cell_centres grid_cell_areas
           point_density_cell track_density_cell
           point_density_rad track_density_rad lonlat_c tridlonlat_c
           genesis_points lysis_points KM2M dargs).
Local Abbreviation density_selected' :=
  (density_selected cell_bounds cell_centres grid_cell_areas
                    point_density_cell track_density_cell
                    point_density_rad track_density_rad lonlat_c
                    tridlonlat_c genesis_points lysis_points KM2M dargs).

Lemma density_fuel_resolved (fuel : nat) (self : TrackRun)
  (subset s : subset_arg) :
  resolved self subset = Some s ->
  density_fuel' (S fuel) self subset
  = Some (rmap DField (density_selected' self s)).
Proof.
  destruct subset; simpl; try (intro H; injection H as <-; reflexivity).
  destruct (is_categorised self); [discriminate|].
  intro H; injection H as <-; reflexivity.
Qed.

Lemma density_resolved (self : TrackRun) (subset s : subset_arg) :
  resolved self subset = Some s ->
  density' self subset = Some (rmap DField (density_selected' self s)).
Proof. apply density_fuel_resolved. Qed.

Lemma density_fuel_dispatch (fuel : nat) (self : TrackRun) :
  is_categorised self = true ->
  density_fuel' (S (S fuel)) self SubNone
  = match dispatch (fun k => density' self (SubStr k))
                   (cat_labels self) [] with
    | Some r => Some (rmap DDict r)
    | None => None
    end.
Proof.
  intro Hc. cbn [density_fuel]. rewrite Hc.
  rewrite (dispatch_ext _ (fun k => density' self (SubStr k)))
    by reflexivity.
  destruct (dispatch _ _ _) as [[d|e]|]; reflexivity.
Qed.

Lemma density_depth (fuel : nat) (self : TrackRun) (subset : subset_arg) :
  density_fuel' (S (S fuel)) self subset = density' self subset
  /\ exists r, density' self subset = Some r.
Proof.
  destruct (resolved self subset) as [s|] eqn:E.
  - unfold density.
    rewrite !(density_fuel_resolved _ _ _ _ E). eauto.
  - destruct subset; try discriminate. simpl in E.
    destruct (is_categorised self) eqn:Hc; [|discriminate].
    unfold density. rewrite !density_fuel_dispatch by trivial.
    split; trivial.
    destruct (dispatch_returns
                (fun k => density' self (SubStr k))
                (cat_labels self)) with (acc := @nil (string * density_result))
      as [out ->]; [discriminate | eauto].
Qed.

Lemma density_label_not_dict (self : TrackRun) (k : string)
  (v : density_result) :
  density' self (SubStr k) = Some (Ok v) -> forall d, v <> DDict d.
Proof.
  rewrite (density_resolved self (SubStr k) (SubStr k) eq_refl).
  destruct (density_selected' self (SubStr k)); simpl; intros H d ->;
    discriminate.
Qed.

End DensityPaths.

(* ================================================================= *)
(** ** The calls without a subset *)

Section SubsetDispatch.

Variable great_circle : Q -> Q -> Q -> Q -> Q -> Q.
Variable distance_metric :
  list Q -> list Q -> list Z -> list Q -> list Q -> list Z ->
  Q -> Q -> option Q.
Variables HOUR KM2M FILLVAL : Q.
Variable args : MatchArgs.
Variables cell_bounds cell_centres : list Q -> list Q.
Variable grid_cell_areas : list Q -> list Q -> Q -> matrix.
Variables point_density_cell track_density_cell
  : matrix -> matrix -> matrix -> matrix.
Variables point_density_rad track_density_rad
  : Q -> Q -> matrix -> matrix -> matrix -> matrix.
Variables lonlat_c tridlonlat_c : OctantTrack -> matrix.
Variables genesis_points lysis_points : Z * Z -> OctantTrack -> result matrix.
Variable dargs : DensityArgs.

Local Abbreviation match_tracks_fuel' :=
  (match_tracks_fuel great_circle distance_metric HOUR KM2M FILLVAL args).
Local Abbreviation match_tracks' :=
  (match_tracks great_circle distance_metric HOUR KM2M FILLVAL args).
Local Abbreviation density_fuel' :=
  (density_fuel cell_bounds cell_centres grid_cell_areas
                point_density_cell track_density_cell
                point_density_rad track_density_rad lonlat_c tridlonlat_c
                genesis_points lysis_points KM2M dargs).
Local Abbreviation density' :=
  (density cell_bounds cell_centres grid_cell_areas
           point_density_cell track_density_cell
           point_density_rad track_density_rad lonlat_c tridlonlat_c
           genesis_points lysis_points KM2M dargs).

(** C5. Without a subset, on a categorised TrackRun, [match_tracks] and
    [density] return the dictionary that maps every category label to the
    result of the same call with that label as subset, with one entry for
    each label (or raise what the first failing one of these calls raises);
    no entry of it is a dictionary, and a budget of two nested calls is what
    the dispatch takes: one does not do, and more change nothing. On a
    TrackRun that is not categorised the call is the call for "all". *)
Theorem subset_dispatch (self : TrackRun) (others : others_arg) :
  (is_categorised self = true ->
   (exists out,
       match_tracks' self others SubNone = Some (rmap MDict out)
       /\ maps_labels (fun k => match_tracks' self others (SubStr k))
                      (cat_labels self) out)
   /\ (exists out,
          density' self SubNone = Some (rmap DDict out)
          /\ maps_labels (fun k => density' self (SubStr k))
                         (cat_labels self) out)
   /\ (cat_labels self <> [] ->
       match_tracks_fuel' 1 self others SubNone = None
       /\ density_fuel' 1 self SubNone = None))
  /\ (is_categorised self = false ->
      match_tracks' self others SubNone
      = match_tracks' self others (SubStr "all")
      /\ density' self SubNone = density' self (SubStr "all"))
  /\ (forall k,
         (forall v, match_tracks' self others (SubStr k) = Some (Ok v) ->
                    forall d, v <> MDict d)
         /\ (forall v, density' self (SubStr k) = Some (Ok v) ->
                       forall d, v <> DDict d))
  /\ (forall fuel subset,
         match_tracks_fuel' (S (S fuel)) self others subset
         = match_tracks' self others subset
         /\ density_fuel' (S (S fuel)) self subset = density' self subset).
Proof.
  split; [|split; [|split]].
  - intro Hc. split; [|split].
    + unfold match_tracks at 1. rewrite match_tracks_fuel_dispatch by trivial.
      destruct (dispatch_returns
                  (fun k => match_tracks' self others (SubStr k))
                  (cat_labels self)) with (acc := @nil (string * match_result))
        as [out Hout]; [discriminate|].
      rewrite Hout. exists out. split; trivial.
      now apply dispatch_maps_labels.
    + unfold density at 1. rewrite density_fuel_dispatch by trivial.
      destruct (dispatch_returns
                  (fun k => density' self (SubStr k))
                  (cat_labels self)) with (acc := @nil (string * density_result))
        as [out Hout]; [discriminate|].
      rewrite Hout. exists out. split; trivial.
      now apply dispatch_maps_labels.
    + intro Hl. simpl. rewrite Hc.
      destruct (cat_labels self); [congruence|]. split; reflexivity.
  - intro Hc. unfold match_tracks, density. simpl. now rewrite Hc.
  - intro k. split.
    + intros v H.
      rewrite (match_tracks_resolved _ _ _ _ _ _ self others
                 (SubStr k) (SubStr k) eq_refl) in H.
      injection H as H. intros d Hd.
      exact (match_selected_not_dict _ _ _ _ _ _ _ _ _ _ H d Hd).
    + apply density_label_not_dict.
  - intros fuel subset. split.
    + apply match_tracks_depth.
    + apply density_depth.
Qed.

End SubsetDispatch.

Lemma subset_dispatch_witness :
  exists out,
    sample_match_tracks default_args run_a_cats (OthersList []) SubNone
    = Some (rmap MDict out)
    /\ maps_labels
         (fun k => sample_match_tracks default_args run_a_cats
                                       (OthersList []) (SubStr k))
         (cat_labels run_a_cats) out.
Proof.
  exact (proj1 (proj1 (subset_dispatch
                         sample_great_circle sample_distance_metric
                         sample_HOUR sample_KM2M sample_FILLVAL default_args
                         sample_cell_bounds sample_cell_centres sample_areas
                         zero_kernel zero_kernel (fun _ _ => zero_kernel)
                         (fun _ _ => zero_kernel) sample_lonlat
                         sample_tridlonlat sample_first_last
                         sample_first_last default_dargs
                         run_a_cats (OthersList []))
                      eq_refl)).
Defined.

(* ================================================================= *)
(** ** Empty inputs of [match_tracks] *)

Lemma dispatch_all_ok {V : Type} (call : string -> option (result V))
  (labels : list string) :
  (forall k, In k labels -> exists v, call k = Some (Ok v)) ->
  forall acc, exists d, dispatch call labels acc = Some (Ok d).
Proof.
  induction labels as [|k rest IH]; intros H acc; simpl; eauto.
  destruct (H k (or_introl eq_refl)) as [v ->].
  apply IH. intros x Hx. apply H. now right.
Qed.

Lemma nunique_zero (l : list Z) : nunique l = 0%nat -> l = [].
Proof.
  unfold nunique. destruct l as [|x l]; trivial. intro H.
  apply length_zero_iff_nil in H.
  assert (In x (nodup Z.eq_dec (x :: l))) as Hx
      by (apply nodup_In; now left).
  rewrite H in Hx. destruct Hx.
Qed.

Lemma no_tracks_no_rows (self : TrackRun) :
  len self = 0%nat -> data self = [].
Proof.
  unfold len. intro H. apply nunique_zero in H.
  now apply map_eq_nil in H.
Qed.

(** The selection by a category label of a categorised TrackRun does not
    raise. *)
Lemma getitem_known_label (self : TrackRun) (k : string) :
  is_categorised self = true -> In k (cat_labels self) ->
  exists d, getitem self (SubStr k) = Ok d.
Proof.
  intros Hc Hk. unfold getitem.
  destruct (selects_all (SubStr k) || (len self =? 0)%nat); eauto.
  rewrite Hc. unfold cat_labels in Hk.
  destruct (cats self) as [c|]; [|destruct Hk].
  simpl. apply has_column_In in Hk. rewrite Hk. simpl. eauto.
Qed.

Section EmptyInputs.

Variable great_circle : Q -> Q -> Q -> Q -> Q -> Q.
Variable distance_metric :
  list Q -> list Q -> list Z -> list Q -> list Q -> list Z ->
  Q -> Q -> option Q.
Variables HOUR KM2M FILLVAL : Q.
Variable args : MatchArgs.

Local Abbreviation match_tracks' :=
  (match_tracks great_circle distance_metric HOUR KM2M FILLVAL args).
Local Abbreviation match_selected' :=
  (match_selected great_circle distance_metric HOUR KM2M FILLVAL args).


End EmptyInputs.


(* ================================================================= *)
(** ** Argument errors *)

Section ArgumentErrors.

Variable great_circle : Q -> Q -> Q -> Q -> Q -> Q.
Variable distance_metric :
  list Q -> list Q -> list Z -> list Q -> list Q -> list Z ->
  Q -> Q -> option Q.
Variables HOUR KM2M FILLVAL : Q.
Variable args : MatchArgs.
Variables cell_bounds cell_centres : list Q -> list Q.
Variable grid_cell_areas : list Q -> list Q -> Q -> matrix.
Variables point_density_cell track_density_cell
  : matrix -> matrix -> matrix -> matrix.
Variables point_density_rad track_density_rad
  : Q -> Q -> matrix -> matrix -> matrix -> matrix.
Variables lonlat_c tridlonlat_c : OctantTrack -> matrix.
Variables genesis_points lysis_points : Z * Z -> OctantTrack -> result matrix.
Variable dargs : DensityArgs.

Local Abbreviation match_tracks' :=
  (match_tracks great_circle distance_metric HOUR KM2M FILLVAL args).
Local Abbreviation run_method' :=
  (run_method great_circle distance_metric HOUR KM2M FILLVAL args).
Local Abbreviation density' :=
  (density cell_bounds cell_centres grid_cell_areas
           point_density_cell track_density_cell
           point_density_rad track_density_rad lonlat_c tridlonlat_c
           genesis_points lysis_points KM2M dargs).
Local Abbreviation select_method' :=
  (select_method point_density_cell track_density_cell
                 point_density_rad track_density_rad KM2M dargs).
Local Abbreviation select_points' :=
  (select_points lonlat_c tridlonlat_c genesis_points lysis_points dargs).

Lemma run_method_unknown (sub_gb other_gb : list group) :
  ~ known_method (method args) ->
  run_method' sub_gb other_gb = Raise ArgumentError.
Proof.
  unfold known_method, run_method. intro H.
  destruct (String.eqb_spec (method args) "intersection"); [tauto|].
  destruct (String.eqb_spec (method args) "simple"); [tauto|].
  destruct (String.eqb_spec (method args) "bs2000"); [tauto|].
  reflexivity.
Qed.

Lemma select_points_unknown (sub_df : OctantTrack) :
  ~ known_by (by_ dargs) -> select_points' sub_df = Raise ArgumentError.
Proof.
  unfold known_by, select_points. intro H.
  destruct (String.eqb_spec (by_ dargs) "point"); [tauto|].
  destruct (String.eqb_spec (by_ dargs) "track"); [tauto|].
  destruct (String.eqb_spec (by_ dargs) "genesis"); [tauto|].
  destruct (String.eqb_spec (by_ dargs) "lysis"); [tauto|].
  reflexivity.
Qed.

(** What the choice of the method of [density] can raise. *)
Lemma select_method_raises (lon2d lat2d : matrix) (e : exn) :
  select_method' lon2d lat2d = Raise e ->
  dmethod dargs = "cell"%string /\ (e = GridError \/ e = IndexError).
Proof.
  unfold select_method.
  destruct (String.eqb_spec (dmethod dargs) "radius"); [discriminate|].
  destruct (String.eqb_spec (dmethod dargs) "cell"); [|discriminate].
  intro H. split; trivial. unfold row0, col0, rbind in H.
  destruct lon2d as [|r0 lon2d]; [injection H as <-; now right|].
  destruct (any_descent r0); [injection H as <-; now left|].
  destruct (mapM _ lat2d) as [c|e'] eqn:E.
  - destruct (any_descent c); [injection H as <-; now left | discriminate].
  - injection H as <-. right. clear - E.
    revert e' E. induction lat2d as [|r l IH]; intros e' E; simpl in E;
      [discriminate|].
    destruct r; simpl in E; [injection E as <-; trivial|].
    destruct (mapM _ l); simpl in E; [discriminate|].
    injection E as <-. now apply IH.
Qed.

(** C8, as the code has it. With a selected subset of [self] that has a
    track and an [others] of positive length: a method that is none of
    intersection, simple and bs2000 makes [match_tracks] raise
    ArgumentError once the tracks of [others] are at hand, and an [others]
    that is neither a list nor a TrackRun makes it raise ArgumentError
    whatever the method. A [by] that is none of point, track, genesis and
    lysis makes [density] raise for every subset that can be selected:
    ArgumentError, unless the grid check of method="cell" has raised
    before. *)
Theorem argument_errors
  (self : TrackRun) (others : others_arg) (subset s : subset_arg)
  (sub_df : OctantTrack) :
  resolved self subset = Some s ->
  getitem self s = Ok sub_df ->
  (gb sub_df <> [] ->
   forall n, len_others others = Ok (S n) ->
     (forall other_gb,
         ~ known_method (method args) ->
         other_groups others s = Ok other_gb ->
         match_tracks' self others subset = Some (Raise ArgumentError))
     /\ (forall length,
            others = OthersObject length ->
            match_tracks' self others subset = Some (Raise ArgumentError)))
  /\ (~ known_by (by_ dargs) ->
      exists e,
        density' self subset = Some (Raise e)
        /\ (e = ArgumentError \/ e = GridError \/ e = IndexError)
        /\ (dmethod dargs <> "cell"%string -> e = ArgumentError)).
Proof.
  intros Hs Hg. split.
  - intros Hne n Hn.
    rewrite (match_tracks_resolved _ _ _ _ _ _ _ _ _ _ Hs).
    unfold match_selected. rewrite Hg. simpl.
    destruct (List.length (gb sub_df) =? 0)%nat eqn:E.
    { apply Nat.eqb_eq, length_zero_iff_nil in E. contradiction. }
    rewrite Hn. simpl. split.
    + intros other_gb Hm ->. simpl. f_equal. now apply run_method_unknown.
    + intros length ->. reflexivity.
  - intro Hb.
    rewrite (density_resolved _ _ _ _ _ _ _ _ _ _ _ _ _ _ _ _ Hs).
    unfold density_selected.
    destruct (meshgrid _ _) as [lon2d lat2d]. rewrite Hg. simpl.
    destruct (select_method' lon2d lat2d) as [b|e] eqn:E; simpl.
    + rewrite (select_points_unknown sub_df Hb). simpl.
      exists ArgumentError. auto.
    + exists e. apply select_method_raises in E as [Hc He].
      repeat split; trivial; [tauto | congruence].
Qed.

End ArgumentErrors.

Lemma argument_errors_witness :
  sample_match_tracks (with_method "nearest" default_args)
                      run_a (OthersList [other_track]) SubNone
  = Some (Raise ArgumentError).
Proof.
  refine (proj1 (proj1 (argument_errors
                   sample_great_circle sample_distance_metric
                   sample_HOUR sample_KM2M sample_FILLVAL
                   (with_method "nearest" default_args)
                   sample_cell_bounds sample_cell_centres sample_areas
                   zero_kernel zero_kernel (fun _ _ => zero_kernel)
                   (fun _ _ => zero_kernel) sample_lonlat
                   sample_tridlonlat sample_first_last
                   sample_first_last default_dargs
                   run_a (OthersList [other_track]) SubNone (SubStr "all")
                   (data run_a) eq_refl eq_refl)
                 _ 0%nat eq_refl)
            (gb (concat_keyed 0 [other_track])) _ eq_refl).
  - vm_compute. discriminate.
  - unfold known_method. simpl. intros [H|[H|H]]; discriminate.
Defined.

(** C8 as stated fails: with an empty [others], a method that does not exist
    is not looked at, and neither is an [others] of the wrong type whose
    length is 0 (say, an empty tuple); the call returns the empty list. *)
Lemma no_argument_error_on_empty_others :
  ~ known_method (method (with_method "nearest" default_args))
  /\ sample_match_tracks (with_method "nearest" default_args)
                         run_a (OthersList []) SubNone
     = Some (Ok (MPairs []))
  /\ sample_match_tracks default_args run_a (OthersObject (Some 0%nat))
                         SubNone
     = Some (Ok (MPairs [])).
Proof.
  split; [|split; reflexivity].
  unfold known_method. simpl. intros [H|[H|H]]; discriminate.
Qed.

(* ================================================================= *)
(** ** The grid check of method="cell" *)

Lemma any_descent_descends (l : list Q) :
  any_descent l = true <-> descends l.
Proof.
  unfold any_descent, descends.
  induction l as [|a [|b t] IH].
  - split; [discriminate|]. intros (i & x & y & H & _). now destruct i.
  - split; [discriminate|]. intros (i & x & y & _ & H & _).
    destruct i as [|[|i]]; discriminate.
  - change (diff (a :: b :: t)) with ((b - a)%Q :: diff (b :: t)).
    cbn [existsb]. rewrite orb_true_iff, IH, Qltb_lt. split.
    + intros [H|(i & x & y & Hx & Hy & Hlt)].
      * exists O, a, b. repeat split. lra.
      * exists (S i), x, y. repeat split; trivial.
    + intros (i & x & y & Hx & Hy & Hlt). destruct i as [|i].
      * left. simpl in Hx, Hy. injection Hx as <-. injection Hy as <-.
        lra.
      * right. exists i, x, y. repeat split; trivial.
Qed.

Lemma col0_meshgrid (lon lat : list Q) :
  lon <> [] -> col0 (map (fun y => map (fun _ => y) lon) lat) = Ok lat.
Proof.
  intro H. destruct lon as [|x lon]; [congruence|]. clear H.
  unfold col0. induction lat as [|y lat IH]; simpl; trivial.
  fold (col0 (map (fun y0 => y0 :: map (fun _ => y0) lon) lat)).
  unfold col0 at 1. simpl in IH. now rewrite IH.
Qed.

Section GridCheck.

Variables cell_bounds cell_centres : list Q -> list Q.
Variable grid_cell_areas : list Q -> list Q -> Q -> matrix.
Variables point_density_cell track_density_cell
  : matrix -> matrix -> matrix -> matrix.
Variables point_density_rad track_density_rad
  : Q -> Q -> matrix -> matrix -> matrix -> matrix.
Variables lonlat_c tridlonlat_c : OctantTrack -> matrix.
Variables genesis_points lysis_points : Z * Z -> OctantTrack -> result matrix.
Variable KM2M : Q.
Variable dargs : DensityArgs.

Local Abbreviation density' :=
  (density cell_bounds cell_centres grid_cell_areas
           point_density_cell track_density_cell
           point_density_rad track_density_rad lonlat_c tridlonlat_c
           genesis_points lysis_points KM2M dargs).
Local Abbreviation select_method' :=
  (select_method point_density_cell track_density_cell
                 point_density_rad track_density_rad KM2M dargs).
Local Abbreviation select_points' :=
  (select_points lonlat_c tridlonlat_c genesis_points lysis_points dargs).

Lemma select_method_cell (lon lat : list Q) :
  dmethod dargs = "cell"%string -> lon <> [] -> lat <> [] ->
  select_method' (fst (meshgrid lon lat)) (snd (meshgrid lon lat))
  = if any_descent lon || any_descent lat then Raise GridError
    else Ok (Some (UnitsOne,
                   if String.eqb (by_ dargs) "track"
                   then track_density_cell else point_density_cell)).
Proof.
  intros Hm Hlon Hlat. unfold select_method, meshgrid. rewrite Hm.
  cbn [String.eqb Ascii.eqb Bool.eqb fst snd]. cbv iota.
  rewrite (col0_meshgrid lon lat Hlon).
  destruct lat as [|y lat]; [congruence|]. simpl.
  destruct (any_descent lon); trivial.
Qed.

(** C7, as the code has it. Under method="cell", for a subset that can be
    selected and a grid with at least one boundary in each dimension:
    when the longitude or the latitude boundaries have a descending step,
    [density] raises GridError, whatever the kernels are (none of them is
    run); when they have none (equal neighbours are accepted), the check
    passes and the field is returned as soon as the points are selected. *)
Theorem cell_grid_check
  (self : TrackRun) (subset s : subset_arg) (sub_df : OctantTrack) :
  dmethod dargs = "cell"%string ->
  resolved self subset = Some s ->
  getitem self s = Ok sub_df ->
  lon_bounds cell_bounds dargs <> [] ->
  lat_bounds cell_bounds dargs <> [] ->
  (descends (lon_bounds cell_bounds dargs)
   \/ descends (lat_bounds cell_bounds dargs) ->
   density' self subset = Some (Raise GridError))
  /\ (~ descends (lon_bounds cell_bounds dargs) ->
      ~ descends (lat_bounds cell_bounds dargs) ->
      forall pts, select_points' sub_df = Ok pts ->
                  exists a, density' self subset = Some (Ok (DField a))).
Proof.
  intros Hm Hs Hg Hlon Hlat.
  rewrite (density_resolved _ _ _ _ _ _ _ _ _ _ _ _ _ _ _ _ Hs).
  unfold density_selected. fold (lon_bounds cell_bounds dargs).
  fold (lat_bounds cell_bounds dargs).
  pose proof (select_method_cell _ _ Hm Hlon Hlat) as Hsel.
  destruct (meshgrid _ _) as [lon2d lat2d]. simpl in Hsel.
  rewrite Hg. cbn [rbind]. rewrite Hsel. split.
  - intro Hd.
    assert (any_descent (lon_bounds cell_bounds dargs)
            || any_descent (lat_bounds cell_bounds dargs) = true) as ->.
    { apply orb_true_iff. now rewrite !any_descent_descends. }
    reflexivity.
  - intros Hn1 Hn2 pts Hp.
    assert (any_descent (lon_bounds cell_bounds dargs)
            || any_descent (lat_bounds cell_bounds dargs) = false) as ->.
    { apply orb_false_iff. split; apply not_true_is_false;
        now rewrite any_descent_descends. }
    cbn [rbind]. rewrite Hp. simpl. eauto.
Qed.

End GridCheck.

Lemma cell_grid_check_witness :
  sample_density (with_grid [0; 40; 20]%Q [50; 60; 70]%Q default_dargs)
                 run_a SubNone
  = Some (Raise GridError).
Proof.
  refine (proj1 (cell_grid_check
                   sample_cell_bounds sample_cell_centres sample_areas
                   zero_kernel zero_kernel (fun _ _ => zero_kernel)
                   (fun _ _ => zero_kernel) sample_lonlat
                   sample_tridlonlat sample_first_last
                   sample_first_last sample_KM2M
                   (with_grid [0; 40; 20]%Q [50; 60; 70]%Q default_dargs)
                   run_a SubNone (SubStr "all") (data run_a)
                   eq_refl eq_refl eq_refl _ _) _).
  - discriminate.
  - discriminate.
  - left. exists 1%nat, 40%Q, 20%Q. repeat split.
Defined.

(** C7 as stated fails: boundaries that are not strictly ascending, with
    two equal neighbours, pass the check, and the field is returned. *)
Lemma flat_step_passes_grid_check :
  ~ strictly_ascending [0; 20; 20]%Q
  /\ exists a,
      sample_density (with_grid [0; 20; 20]%Q [50; 60; 70]%Q default_dargs)
                     run_a SubNone
      = Some (Ok (DField a)).
Proof.
  split.
  - intro H. specialize (H 1%nat 20%Q 20%Q eq_refl eq_refl).
    exact (Qlt_irrefl _ H).
  - eexists. vm_compute. reflexivity.
Qed.

(* ================================================================= *)
(** ** method="intersection" *)

Lemma count_true_filter {A : Type} (f : A -> bool) (l : list A) :
  count_true (map f l) = List.length (filter f l).
Proof.
  unfold count_true. induction l as [|a l IH]; simpl; trivial.
  destruct (f a); simpl; now rewrite IH.
Qed.

Lemma last_diff_some_length (ts : list Z) (dt : Z) :
  last_diff ts = Some dt -> (0 < List.length ts)%nat.
Proof.
  destruct ts; [discriminate|]. simpl. lia.
Qed.

Lemma filter_map_pair {A B : Type} (f : A * B -> bool) (x : A)
  (l : list B) :
  filter f (map (pair x) l) = map (pair x) (filter (fun y => f (x, y)) l).
Proof.
  induction l as [|y l IH]; simpl; trivial.
  destruct (f (x, y)); simpl; now rewrite IH.
Qed.

(** The inner merge on the time gives the aligned records. *)
Lemma merge_on_time_aligned (ot other_ot : list Row) :
  merge_on_time other_ot ot = filter same_time (list_prod other_ot ot).
Proof.
  unfold merge_on_time.
  induction other_ot as [|l other_ot IH]; simpl; trivial.
  rewrite filter_app, filter_map_pair, IH. f_equal. f_equal.
  apply filter_ext. intro r. unfold same_time. simpl. apply Z.eqb_sym.
Qed.

(** The last difference of a series is the step between its last two
    entries. *)
Lemma last_diff_spec (ts : list Z) (dt : Z) :
  last_diff ts = Some dt
  <-> exists pre a b, ts = pre ++ [a; b] /\ dt = (b - a)%Z.
Proof.
  unfold last_diff. split.
  - destruct (rev ts) as [|b [|a rest]] eqn:E; try discriminate.
    intro H. injection H as <-. exists (rev rest), a, b. split; trivial.
    apply (f_equal (@rev Z)) in E. rewrite rev_involutive in E.
    rewrite E. simpl. now rewrite <- app_assoc.
  - intros (pre & a & b & -> & ->).
    rewrite rev_app_distr. reflexivity.
Qed.

Lemma last_diff_map_spec {A : Type} (f : A -> Z) (l : list A) (dt : Z) :
  last_diff (map f l) = Some dt
  <-> exists pre a b, l = pre ++ [a; b] /\ dt = (f b - f a)%Z.
Proof.
  rewrite last_diff_spec. split.
  - intros (pre & a & b & E & ->).
    apply map_eq_app in E as (l1 & l2 & -> & _ & E2).
    destruct l2 as [|x [|y [|z l2]]]; try discriminate.
    injection E2 as <- <-. now exists l1, x, y.
  - intros (pre & a & b & -> & ->).
    exists (map f pre), (f a), (f b). split; trivial.
    now rewrite map_app.
Qed.

Lemma last_default {A : Type} (l : list A) (a d d' : A) :
  last (a :: l) d = last (a :: l) d'.
Proof.
  revert a. induction l as [|b l IH]; intro a; trivial.
  change (last (a :: b :: l) d) with (last (b :: l) d).
  change (last (a :: b :: l) d') with (last (b :: l) d'). apply IH.
Qed.

Lemma last_map_default {A B : Type} (f : A -> B) (l : list A) (a : A)
  (d : B) :
  last (map f (a :: l)) d = f (last (a :: l) a).
Proof.
  revert a. induction l as [|b l IH]; intro a; trivial.
  change (last (map f (a :: b :: l)) d) with (last (map f (b :: l)) d).
  change (last (a :: b :: l) a) with (last (b :: l) a).
  rewrite IH. f_equal. apply last_default.
Qed.

(** The lifetime of a track is the span of its time column. *)
Lemma lifetime_times (track : list Row) :
  lifetime track = (last_time track - first_time track)%Z.
Proof.
  unfold lifetime, last_time, first_time, times.
  destruct track as [|a track]; trivial.
  now rewrite last_map_default.
Qed.

(** Against a whole number, the cast towards zero of a product that is not
    negative changes nothing. *)
Lemma truncate_floor (q : Q) (z : Z) :
  (0 <= q)%Q ->
  (inject_Z (truncate q) < inject_Z z)%Q <-> (q < inject_Z z)%Q.
Proof.
  intro Hq.
  assert (truncate q = Qfloor q) as ->.
  { unfold truncate. destruct q as [n d]. simpl.
    apply Z.quot_div_nonneg; [|reflexivity].
    unfold Qle in Hq. simpl in Hq. lia. }
  split.
  - intro H. rewrite <- Zlt_Qlt in H.
    apply Qlt_le_trans with (inject_Z (Qfloor q + 1)); [apply Qlt_floor|].
    rewrite <- Zle_Qle. lia.
  - intro H. apply Qle_lt_trans with q; [apply Qfloor_le | assumption].
Qed.

Lemma Qdiv_lt_scaled (a b c h : Q) :
  (0 < h)%Q -> (a / h < b * (c / h))%Q <-> (a < b * c)%Q.
Proof.
  intro Hh. assert (0 < / h)%Q as Hi by now apply Qinv_lt_0_compat.
  unfold Qdiv.
  assert (b * (c * / h) == b * c * / h)%Q as -> by apply Qmult_assoc.
  now apply Qmult_lt_r.
Qed.

Section Intersection.

Variable great_circle : Q -> Q -> Q -> Q -> Q -> Q.
Variable distance_metric :
  list Q -> list Q -> list Z -> list Q -> list Q -> list Z ->
  Q -> Q -> option Q.
Variables HOUR KM2M FILLVAL : Q.
Variable args : MatchArgs.

Local Abbreviation qualifies' := (qualifies great_circle HOUR KM2M args).
Local Abbreviation Qualifies' := (Qualifies great_circle HOUR KM2M args).
Local Abbreviation scan_others' := (scan_others great_circle HOUR KM2M args).
Local Abbreviation match_intersection' :=
  (match_intersection great_circle HOUR KM2M args).
Local Abbreviation first_qualifying' :=
  (first_qualifying great_circle HOUR KM2M args).
Local Abbreviation match_tracks' :=
  (match_tracks great_circle distance_metric HOUR KM2M FILLVAL args).

Lemma scan_others_app (idx : Z) (ot : list Row) (other_gb : list group)
  (acc : list (Z * Z)) :
  scan_others' idx ot other_gb acc = acc ++ scan_others' idx ot other_gb [].
Proof.
  induction other_gb as [|[oidx oot] rest IH]; simpl.
  - now rewrite app_nil_r.
  - destruct (qualifies' ot oot); trivial.
Qed.

Lemma match_intersection_flat_map (sub_gb other_gb : list group) :
  match_intersection' sub_gb other_gb
  = flat_map (fun g => scan_others' (fst g) (snd g) other_gb []) sub_gb.
Proof.
  unfold match_intersection.
  enough (forall acc,
             fold_left (fun match_pairs g =>
                          scan_others' (fst g) (snd g) other_gb match_pairs)
                       sub_gb acc
             = acc ++ flat_map
                        (fun g => scan_others' (fst g) (snd g) other_gb [])
                        sub_gb) as H by apply (H []).
  induction sub_gb as [|g sub_gb IH]; intro acc; simpl.
  - now rewrite app_nil_r.
  - now rewrite IH, scan_others_app, app_assoc.
Qed.

(** For a fraction and a lifetime that are not negative, the test of the
    code is the rule. *)
Lemma qualifies_Qualifies (ot other_ot : list Row) :
  (0 <= time_frac args)%Q ->
  (0 < HOUR)%Q ->
  (0 <= lifetime other_ot)%Z ->
  qualifies' ot other_ot = true <-> Qualifies' ot other_ot.
Proof.
  intros Htf Hh Hl.
  unfold qualifies, Qualifies, sampling_interval, aligned_near, aligned.
  rewrite map_map, count_true_filter, merge_on_time_aligned,
    <- lifetime_times.
  set (inter := filter same_time (list_prod other_ot ot)).
  fold (closer great_circle KM2M args).
  set (n_near := List.length (filter _ inter)).
  set (x := (time_frac args * inject_Z (lifetime other_ot))%Q).
  assert (0 <= x)%Q as Hx.
  { apply Qmult_le_0_compat; trivial. unfold Qle. simpl. lia. }
  assert (forall (n : nat) (dt : Z),
             Qltb (inject_Z (truncate x) / HOUR)
                  (inject_Z (Z.of_nat n) * (inject_Z dt / HOUR)) = true
             <-> (time_frac args * (inject_Z (lifetime other_ot) / HOUR)
                  < inject_Z (Z.of_nat n) * (inject_Z dt / HOUR))%Q)
    as Hcmp.
  { intros n dt. rewrite Qltb_lt.
    assert (time_frac args * (inject_Z (lifetime other_ot) / HOUR)
            == x / HOUR)%Q as -> by (unfold x, Qdiv; apply Qmult_assoc).
    rewrite !Qdiv_lt_scaled by assumption.
    rewrite <- inject_Z_mult. now apply truncate_floor. }
  destruct (last_diff (map (fun p => time (rec (fst p))) inter))
    as [dt|] eqn:E.
  - apply last_diff_some_length in E as Hn. rewrite length_map in Hn.
    apply Nat.ltb_lt in Hn. rewrite Hn.
    rewrite andb_true_iff, !Hcmp. split.
    + intros [H1 H2]. exists dt. split; [|now split].
      now apply last_diff_map_spec in E.
    + intros (dt' & Hdt & H1 & H2).
      apply (last_diff_map_spec (fun p : Row * Row => time (rec (fst p))))
        in Hdt.
      rewrite E in Hdt. injection Hdt as <-. now split.
  - split.
    + destruct (0 <? List.length inter)%nat; discriminate.
    + intros (dt & Hdt & _).
      apply (last_diff_map_spec (fun p : Row * Row => time (rec (fst p))))
        in Hdt.
      rewrite E in Hdt. discriminate.
Qed.

(** The scan of the other tracks for one self track appends the pair of the
    first track that qualifies, and nothing else. *)
Lemma scan_others_first (idx : Z) (ot : list Row) (other_gb : list group)
  (p : Z * Z) :
  (forall g, In g other_gb ->
             qualifies' ot (snd g) = true <-> Qualifies' ot (snd g)) ->
  In p (scan_others' idx ot other_gb [])
  <-> exists other_idx,
      p = (idx, other_idx) /\ first_qualifying' ot other_gb other_idx.
Proof.
  unfold first_qualifying.
  induction other_gb as [|[oidx oot] rest IH]; intro Hq; simpl.
  - split; [intros []|]. intros (o & _ & before & x & after & H & _).
    now destruct before.
  - pose proof (Hq (oidx, oot) (or_introl eq_refl)) as Hhead.
    cbn [snd] in Hhead.
    assert (forall g, In g rest ->
                      qualifies' ot (snd g) = true <-> Qualifies' ot (snd g))
      as Hrest by (intros; apply Hq; now right).
    destruct (qualifies' ot oot) eqn:E.
    + split.
      * intros [<-|[]]. exists oidx. split; trivial.
        exists [], oot, rest. split; [reflexivity|].
        split; [now apply Hhead | intros g []].
      * intros (o & -> & before & x & after & H & HQ & Hb).
        destruct before as [|g before].
        -- injection H as <- _ _. now left.
        -- injection H as <- _. exfalso. apply (Hb _ (or_introl eq_refl)).
           now apply Hhead.
    + rewrite (IH Hrest). split.
      * intros (o & -> & before & x & after & -> & HQ & Hb).
        exists o. split; trivial.
        exists ((oidx, oot) :: before), x, after. repeat split; trivial.
        intros g [<-|Hg]; [|now apply Hb].
        simpl. rewrite <- Hhead. congruence.
      * intros (o & -> & before & x & after & H & HQ & Hb).
        destruct before as [|g before].
        -- injection H as _ <- _. apply Hhead in HQ. congruence.
        -- injection H as _ ->. exists o. split; trivial.
           exists before, x, after. repeat split; trivial.
           intros g' Hg'. apply Hb. now right.
Qed.

Lemma match_intersection_pairs (sub_gb other_gb : list group)
  (idx other_idx : Z) :
  (0 <= time_frac args)%Q ->
  (0 < HOUR)%Q ->
  (forall g, In g other_gb -> (0 <= lifetime (snd g))%Z) ->
  In (idx, other_idx) (match_intersection' sub_gb other_gb)
  <-> exists ot, In (idx, ot) sub_gb
                 /\ first_qualifying' ot other_gb other_idx.
Proof.
  intros Htf Hh Hl.
  assert (forall ot g, In g other_gb ->
                       qualifies' ot (snd g) = true
                       <-> Qualifies' ot (snd g)) as Hq
      by (intros; apply qualifies_Qualifies; auto).
  rewrite match_intersection_flat_map, in_flat_map. split.
  - intros ([i ot] & Hg & Hp).
    apply (scan_others_first _ _ _ _ (Hq ot)) in Hp as (o & Heq & Hf).
    simpl in Heq. injection Heq as -> ->. eauto.
  - intros (ot & Hg & Hf). exists (idx, ot). split; trivial.
    apply (scan_others_first _ _ _ _ (Hq ot)). eauto.
Qed.

Lemma filter_none {A : Type} (f : A -> bool) (l : list A) :
  (forall x, f x = false) -> filter f l = [].
Proof.
  intro H. induction l as [|a l IH]; simpl; trivial. now rewrite H.
Qed.

(** With a radius of 0 km no track qualifies, whether the positions
    coincide or not: no distance is below 0. *)
Lemma zero_radius_never_qualifies (ot other_ot : list Row) :
  (thresh_dist args == 0)%Q ->
  (0 <= time_frac args)%Q ->
  (0 < HOUR)%Q ->
  (forall a b c d r, (0 <= great_circle a b c d r)%Q) ->
  (0 <= lifetime other_ot)%Z ->
  ~ Qualifies' ot other_ot.
Proof.
  intros Hth Htf Hh Hgc Ht (dt & _ & _ & H).
  assert (aligned_near great_circle KM2M args ot other_ot = []) as Hnear.
  { unfold aligned_near. apply filter_none. intros [l r]. unfold closer.
    destruct (Qltb _ _) eqn:E; trivial. apply Qltb_lt in E.
    rewrite Hth, Qmult_0_l in E. exfalso.
    exact (Qlt_not_le _ _ E (Hgc _ _ _ _ _)). }
  rewrite Hnear in H. simpl in H. rewrite Qmult_0_l in H.
  apply (Qlt_not_le _ _ H). apply Qmult_le_0_compat; trivial.
  unfold Qdiv. apply Qmult_le_0_compat.
  - unfold Qle. simpl. lia.
  - apply Qinv_le_0_compat. now apply Qlt_le_weak.
Qed.

Lemma other_groups_empty (others : others_arg) (s : subset_arg)
  (other_gb : list group) :
  len_others others = Ok 0%nat ->
  other_groups others s = Ok other_gb ->
  other_gb = [].
Proof.
  destruct others as [dfs|tr|n]; simpl.
  - intros H1 H2. injection H1 as H1. apply length_zero_iff_nil in H1.
    subst. now injection H2 as <-.
  - intros H1 H2. injection H1 as H1. unfold getitem in H2.
    rewrite H1, orb_true_r in H2. simpl in H2. injection H2 as <-.
    now rewrite (no_tracks_no_rows tr H1).
  - discriminate.
Qed.

(** [match_tracks] under method="intersection". *)
Lemma match_tracks_intersection
  (self : TrackRun) (others : others_arg) (subset s : subset_arg)
  (sub_df : OctantTrack) (other_gb : list group) :
  method args = "intersection"%string ->
  resolved self subset = Some s ->
  getitem self s = Ok sub_df ->
  other_groups others s = Ok other_gb ->
  match_tracks' self others subset
  = Some (Ok (MPairs (match_intersection' (gb sub_df) other_gb))).
Proof.
  intros Hm Hs Hg Ho.
  rewrite (match_tracks_resolved _ _ _ _ _ _ _ _ _ _ Hs).
  unfold match_selected. rewrite Hg. simpl. do 2 f_equal.
  destruct (List.length (gb sub_df) =? 0)%nat eqn:E.
  { apply Nat.eqb_eq, length_zero_iff_nil in E. now rewrite E. }
  destruct (len_others others) as [n|e] eqn:En.
  2:{ destruct others as [?|?|[?|]]; discriminate. }
  simpl. destruct n as [|n]; simpl.
  - rewrite (other_groups_empty _ _ _ En Ho).
    rewrite match_intersection_flat_map.
    clear E. induction (gb sub_df) as [|g l IH]; simpl; trivial.
  - rewrite Ho. simpl. unfold run_method. now rewrite Hm.
Qed.


End Intersection.

Lemma sample_great_circle_not_negative (a b c d r : Q) :
  (0 <= sample_great_circle a b c d r)%Q.
Proof.
  assert (forall x, 0 <= Qabs' x)%Q as Habs.
  { intro x. unfold Qabs'. destruct (Qltb x 0) eqn:E.
    - apply Qltb_lt in E. lra.
    - destruct (Qlt_le_dec x 0) as [H|H]; trivial.
      apply Qltb_lt in H. congruence. }
  unfold sample_great_circle.
  pose proof (Habs (a - b)%Q). pose proof (Habs (c - d)%Q).
  apply Qmult_le_0_compat; lra.
Qed.


Example intersection_on_samples :
  sample_match_tracks (with_method "intersection" default_args)
                      run_a (OthersList [other_track]) SubNone
  = Some (Ok (MPairs [(3, 0)%Z])).
Proof. vm_compute. reflexivity. Qed.

(* ================================================================= *)
(** ** method="bs2000" *)

Lemma nth_error_snoc_lt {A : Type} (pre : list A) (x : A) (k : nat) :
  (k < List.length pre)%nat ->
  nth_error (pre ++ [x]) k = nth_error pre k.
Proof. intro H. now apply nth_error_app1. Qed.

Lemma nth_error_snoc_cases {A : Type} (pre : list A) (x y : A) (k : nat) :
  nth_error (pre ++ [x]) k = Some y ->
  nth_error pre k = Some y \/ (k = List.length pre /\ y = x).
Proof.
  intro H. destruct (Nat.lt_ge_cases k (List.length pre)) as [Hk|Hk].
  - left. now rewrite <- (nth_error_snoc_lt pre x k Hk).
  - right. rewrite nth_error_app2 in H by trivial.
    destruct (k - List.length pre)%nat as [|n] eqn:E; simpl in H.
    + injection H as <-. split; trivial. lia.
    + destruct n; discriminate.
Qed.

Lemma nth_error_snoc_last {A : Type} (pre : list A) (x : A) :
  nth_error (pre ++ [x]) (List.length pre) = Some x.
Proof.
  rewrite nth_error_app2 by lia. now rewrite Nat.sub_diag.
Qed.

(** The scan of [nanargmin_from] keeps, for the part of the slice that it
    has seen, the minimizer and its value. *)
Lemma nanargmin_from_spec (l : list (option Q)) :
  forall (pre : list (option Q)) (best : option (nat * Q)),
    match best with
    | None => all_nan pre
    | Some (bi, bv) =>
        minimizer pre bi /\ nth_error pre bi = Some (Some bv)
    end ->
    match nanargmin_from (List.length pre) best l with
    | None => all_nan (pre ++ l)
    | Some (j, v) =>
        minimizer (pre ++ l) j /\ nth_error (pre ++ l) j = Some (Some v)
    end.
Proof.
  induction l as [|x t IH]; intros pre best Hb.
  - simpl. rewrite app_nil_r. exact Hb.
  - replace (pre ++ x :: t) with ((pre ++ [x]) ++ t)
      by (now rewrite <- app_assoc).
    assert (S (List.length pre) = List.length (pre ++ [x])) as Hlen
        by (rewrite length_app; simpl; lia).
    destruct x as [v|]; simpl; rewrite Hlen.
    + destruct best as [[bi bv]|].
      * destruct Hb as [(v0 & Hv0 & Hmin & Hfirst) Hbv].
        assert (v0 = bv) by congruence. subst v0.
        assert (bi < List.length pre)%nat as Hbi
            by (apply nth_error_Some; congruence).
        destruct (Qltb v bv) eqn:E; apply IH.
        -- apply Qltb_lt in E. split; [|apply nth_error_snoc_last].
           exists v. split; [apply nth_error_snoc_last|]. split.
           ++ intros k w Hk. apply nth_error_snoc_cases in Hk
                as [Hk|[_ Hk]].
              ** apply Hmin in Hk. lra.
              ** injection Hk as ->. lra.
           ++ intros k w Hlt Hk. rewrite nth_error_snoc_lt in Hk by trivial.
              apply Hmin in Hk. lra.
        -- assert (bv <= v)%Q as Hle.
           { destruct (Qlt_le_dec v bv) as [H|H]; trivial.
             apply Qltb_lt in H. congruence. }
           split; [|now rewrite nth_error_snoc_lt].
           exists bv. split; [now rewrite nth_error_snoc_lt|]. split.
           ++ intros k w Hk. apply nth_error_snoc_cases in Hk
                as [Hk|[_ Hk]].
              ** now apply Hmin in Hk.
              ** now injection Hk as ->.
           ++ intros k w Hlt Hk. rewrite nth_error_snoc_lt in Hk by lia.
              now apply Hfirst in Hk.
      * apply IH. split; [|apply nth_error_snoc_last].
        exists v. split; [apply nth_error_snoc_last|]. split.
        -- intros k w Hk. apply nth_error_snoc_cases in Hk as [Hk|[_ Hk]].
           ++ now apply Hb in Hk.
           ++ injection Hk as ->. lra.
        -- intros k w Hlt Hk. rewrite nth_error_snoc_lt in Hk by trivial.
           now apply Hb in Hk.
    + apply IH. destruct best as [[bi bv]|].
      * destruct Hb as [(v0 & Hv0 & Hmin & Hfirst) Hbv].
        assert (bi < List.length pre)%nat as Hbi
            by (apply nth_error_Some; congruence).
        split; [|now rewrite nth_error_snoc_lt].
        exists v0. split; [now rewrite nth_error_snoc_lt|]. split.
        -- intros k w Hk. apply nth_error_snoc_cases in Hk as [Hk|[_ Hk]];
             [now apply Hmin in Hk | discriminate].
        -- intros k w Hlt Hk. rewrite nth_error_snoc_lt in Hk by lia.
           now apply Hfirst in Hk.
      * intros k w Hk. apply nth_error_snoc_cases in Hk as [Hk|[_ Hk]];
          [now apply Hb in Hk | discriminate].
Qed.

Lemma minimizer_unique (l : list (option Q)) (i j : nat) :
  minimizer l i -> minimizer l j -> i = j.
Proof.
  intros (v & Hv & Hmin & Hfirst) (w & Hw & Hmin' & Hfirst').
  destruct (Nat.lt_trichotomy i j) as [H|[H|H]]; trivial; exfalso.
  - pose proof (Hfirst' _ _ H Hv). pose proof (Hmin _ _ Hw). lra.
  - pose proof (Hfirst _ _ H Hw). pose proof (Hmin' _ _ Hv). lra.
Qed.

(** [nanargmin] answers the minimizer of the slice, and raises exactly when
    the slice holds nothing but NaN. *)
Lemma nanargmin_minimizer (l : list (option Q)) (i : nat) :
  nanargmin l = Ok i <-> minimizer l i.
Proof.
  unfold nanargmin.
  pose proof (nanargmin_from_spec l [] None) as H. simpl in H.
  specialize (H ltac:(intros [|k] w; discriminate)).
  destruct (nanargmin_from 0 None l) as [[j v]|].
  - destruct H as [Hj _]. split.
    + intro E. injection E as <-. exact Hj.
    + intro Hi. f_equal. now apply (minimizer_unique l).
  - split; [discriminate|]. intros (v & Hv & _). now apply H in Hv.
Qed.

Lemma nanargmin_returns (l : list (option Q)) (k : nat) (v : Q) :
  nth_error l k = Some (Some v) -> exists i, nanargmin l = Ok i.
Proof.
  intro Hk. unfold nanargmin.
  pose proof (nanargmin_from_spec l [] None) as H. simpl in H.
  specialize (H ltac:(intros [|k'] w; discriminate)).
  destruct (nanargmin_from 0 None l) as [[j w]|]; eauto.
  now apply H in Hk.
Qed.

Lemma mapM_nth {A B : Type} (f : A -> result B) (l : list A) :
  forall rs, mapM f l = Ok rs ->
  forall j r, nth_error rs j = Some r
              <-> exists a, nth_error l j = Some a /\ f a = Ok r.
Proof.
  induction l as [|a l IH]; simpl; intros rs H j r.
  - injection H as <-. split; [now destruct j|].
    intros (x & Hx & _). now destruct j.
  - destruct (f a) as [b|e] eqn:Ea; simpl in H; [|discriminate].
    destruct (mapM f l) as [bs|e]; simpl in H; [|discriminate].
    injection H as <-. destruct j as [|j]; simpl.
    + split.
      * intro E. injection E as <-. eauto.
      * intros (x & Hx & Hf). injection Hx as <-. congruence.
    + now apply IH.
Qed.

Lemma mapM_length {A B : Type} (f : A -> result B) (l : list A) :
  forall rs, mapM f l = Ok rs -> List.length rs = List.length l.
Proof.
  induction l as [|a l IH]; simpl; intros rs H.
  - now injection H as <-.
  - destruct (f a); simpl in H; [|discriminate].
    destruct (mapM f l) as [bs|e]; simpl in H; [|discriminate].
    injection H as <-. simpl. f_equal. now apply IH.
Qed.

Lemma mapM_returns {A B : Type} (f : A -> result B) (l : list A) :
  (forall a, In a l -> exists b, f a = Ok b) ->
  exists rs, mapM f l = Ok rs.
Proof.
  induction l as [|a l IH]; simpl; intro H; eauto.
  destruct (H a (or_introl eq_refl)) as [b ->].
  destruct IH as [bs ->]; [intros; apply H; now right|]. simpl. eauto.
Qed.

Lemma in_combine_seq {A : Type} (l : list A) :
  forall s i x,
    In (i, x) (combine (seq s (List.length l)) l)
    <-> (s <= i)%nat /\ nth_error l (i - s) = Some x.
Proof.
  induction l as [|a l IH]; intros s i x; simpl.
  - split; [intros []|]. intros [_ H]. now destruct (i - s)%nat.
  - rewrite IH. split.
    + intros [H|[Hs H]].
      * injection H as <- <-. split; [lia|]. now rewrite Nat.sub_diag.
      * split; [lia|]. replace (i - s)%nat with (S (i - S s)) by lia.
        exact H.
    + intros [Hs H]. destruct (Nat.eq_dec s i) as [<-|Hne].
      * left. rewrite Nat.sub_diag in H. simpl in H. congruence.
      * right. split; [lia|].
        replace (i - s)%nat with (S (i - S s)) in H by lia. exact H.
Qed.

Lemma in_enumerate {A : Type} (l : list A) (i : nat) (x : A) :
  In (i, x) (enumerate l) <-> nth_error l i = Some x.
Proof.
  unfold enumerate. rewrite in_combine_seq, Nat.sub_0_r.
  split; [tauto | intro; split; [lia | trivial]].
Qed.

Lemma column_nth (m : list (list (option Q))) (c r : nat) (x : option Q) :
  nth_error (column c m) r = Some x
  <-> exists row, nth_error m r = Some row /\ nth c row None = x.
Proof.
  unfold column. rewrite nth_error_map.
  destruct (nth_error m r) as [row|]; simpl.
  - split; [intro E; injection E as <-; eauto|].
    intros (row' & E & <-). now injection E as <-.
  - split; [discriminate | intros (row' & E & _); discriminate].
Qed.

Lemma bs_inner_pairs (sub_indices other_indices : list Z) (i idx1 : nat)
  (rows : list (nat * nat)) :
  forall acc p,
    In p (bs_inner sub_indices other_indices i idx1 rows acc)
    <-> In p acc
        \/ (In (idx1, i) rows
            /\ p = (nth idx1 sub_indices 0%Z, nth i other_indices 0%Z)).
Proof.
  unfold bs_inner.
  induction rows as [|[j idx2] rows IH]; intros acc p; simpl.
  - tauto.
  - rewrite IH.
    destruct (Nat.eqb_spec i idx2) as [<-|Hi];
      destruct (Nat.eqb_spec j idx1) as [->|Hj]; simpl.
    + rewrite in_app_iff. simpl. intuition (subst; auto).
    + split; [tauto|]. intros [H|[[H|H] Hp]]; auto. congruence.
    + split; [tauto|]. intros [H|[[H|H] Hp]]; auto. congruence.
    + split; [tauto|]. intros [H|[[H|H] Hp]]; auto. congruence.
Qed.

Lemma bs_outer_pairs (sub_indices other_indices : list Z)
  (m : list (list (option Q))) (rows : list nat) :
  nanargmin_axis1 m = Ok rows ->
  forall cols acc,
  exists pairs,
    bs_outer sub_indices other_indices m cols acc = Ok pairs
    /\ forall p,
        In p pairs
        <-> In p acc
            \/ exists i j,
                In (i, j) cols /\ In (j, i) (enumerate rows)
                /\ p = (nth j sub_indices 0%Z, nth i other_indices 0%Z).
Proof.
  intros Hrows. induction cols as [|[i idx1] cols IH]; intro acc; simpl.
  - exists acc. split; trivial. intro p. split; [tauto|].
    intros [H|(i & j & [] & _)]. exact H.
  - rewrite Hrows. simpl.
    destruct (IH (bs_inner sub_indices other_indices i idx1
                           (enumerate rows) acc)) as (pairs & -> & Hp).
    exists pairs. split; trivial. intro p. rewrite Hp, bs_inner_pairs.
    split.
    + intros [[H|[H ->]]|(i' & j & Hc & Hr & ->)]; eauto.
      * right. exists i, idx1. auto.
      * right. exists i', j. auto.
    + intros [H|(i' & j & [Hc|Hc] & Hr & ->)]; auto.
      * injection Hc as <- <-. auto.
      * right. eauto.
Qed.

Lemma bs_outer_needs_rows (sub_indices other_indices : list Z)
  (m : list (list (option Q))) (cols : list (nat * nat))
  (acc pairs : list (Z * Z)) :
  bs_outer sub_indices other_indices m cols acc = Ok pairs ->
  cols <> [] -> exists rows, nanargmin_axis1 m = Ok rows.
Proof.
  destruct cols as [|[i idx1] cols]; [congruence|]. simpl.
  destruct (nanargmin_axis1 m); [eauto | discriminate].
Qed.

Lemma insert_key_in (k x : Z) (ks : list Z) :
  In x (insert_key k ks) <-> x = k \/ In x ks.
Proof.
  induction ks as [|h t IH]; simpl.
  - intuition.
  - destruct (Z.ltb_spec k h); [simpl; intuition|].
    destruct (Z.eqb_spec k h); simpl; [subst; intuition|].
    rewrite IH. intuition.
Qed.

Lemma insert_key_sorted (k : Z) (ks : list Z) :
  StronglySorted Z.lt ks -> StronglySorted Z.lt (insert_key k ks).
Proof.
  induction 1 as [|h t Hs IH Hall]; simpl.
  - repeat constructor.
  - destruct (Z.ltb_spec k h).
    + constructor; [now constructor|]. constructor; trivial.
      eapply Forall_impl; [|exact Hall]. simpl. intros; lia.
    + destruct (Z.eqb_spec k h); [now constructor|].
      constructor; trivial. apply Forall_forall. intros x Hx.
      apply insert_key_in in Hx as [->|Hx]; [lia|].
      rewrite Forall_forall in Hall. now apply Hall.
Qed.

Lemma sorted_nodup (ks : list Z) : StronglySorted Z.lt ks -> NoDup ks.
Proof.
  induction 1 as [|h t Hs IH Hall]; constructor; trivial.
  intro Hin. rewrite Forall_forall in Hall. apply Hall in Hin. lia.
Qed.

(** The keys of the groups of a frame are distinct. *)
Lemma gb_keys_nodup (d : OctantTrack) : NoDup (map fst (gb d)).
Proof.
  unfold gb. rewrite map_map. simpl. rewrite map_id.
  apply sorted_nodup. unfold group_keys.
  induction (map track_idx d) as [|k ks IH]; simpl.
  - constructor.
  - now apply insert_key_sorted.
Qed.

Lemma nth_error_seq0 (n i a : nat) :
  nth_error (seq 0 n) i = Some a <-> (i < n)%nat /\ a = i.
Proof.
  split.
  - intro H. assert (i < n)%nat as Hi.
    { rewrite <- (length_seq n 0). apply nth_error_Some. congruence. }
    split; trivial.
    apply (nth_error_nth _ _ O) in H. rewrite seq_nth in H by trivial.
    simpl in H. congruence.
  - intros [Hi ->].
    rewrite (nth_error_nth' _ O) by (now rewrite length_seq).
    now rewrite seq_nth.
Qed.

Section Bs2000.

Variable great_circle : Q -> Q -> Q -> Q -> Q -> Q.
Variable distance_metric :
  list Q -> list Q -> list Z -> list Q -> list Q -> list Z ->
  Q -> Q -> option Q.
Variables HOUR KM2M FILLVAL : Q.
Variable args : MatchArgs.

Local Abbreviation match_bs2000' := (match_bs2000 distance_metric args).
Local Abbreviation dist_matrix_of' := (dist_matrix_of distance_metric args).
Local Abbreviation match_tracks' :=
  (match_tracks great_circle distance_metric HOUR KM2M FILLVAL args).

Lemma match_bs2000_pairs (sub_gb other_gb : list group)
  (pairs : list (Z * Z)) (m : list (list (option Q))) :
  match_bs2000' sub_gb other_gb = Ok (pairs, m) ->
  m = dist_matrix_of' sub_gb other_gb
  /\ forall i j,
      In (i, j) pairs
      <-> exists row col,
          nth_error (map fst sub_gb) row = Some i
          /\ nth_error (map fst other_gb) col = Some j
          /\ mutual_nearest m row col.
Proof.
  unfold match_bs2000. set (m0 := dist_matrix_of' sub_gb other_gb).
  destruct (nanargmin_axis0 (List.length other_gb) m0) as [cols|e] eqn:Ec;
    simpl; [|discriminate].
  destruct (bs_outer _ _ m0 (enumerate cols) []) as [ps|e] eqn:Eo;
    simpl; [|discriminate].
  intro H. injection H as -> <-. split; trivial.
  assert (List.length m0 = List.length (map fst sub_gb)) as Hlen
      by (unfold m0, dist_matrix_of; now rewrite !length_map).
  assert (forall c r, nth_error cols c = Some r
                      <-> (c < List.length other_gb)%nat
                          /\ minimizer (column c m0) r) as Hcols.
  { intros c r. rewrite (mapM_nth _ _ _ Ec). split.
    - intros (a & Ha & Hf). apply nth_error_seq0 in Ha as [Hc ->].
      split; trivial. now apply nanargmin_minimizer.
    - intros [Hc Hm]. exists c. split; [now apply nth_error_seq0|].
      now apply nanargmin_minimizer. }
  destruct (nanargmin_axis1 m0) as [rows|e] eqn:Er.
  - destruct (bs_outer_pairs (map fst sub_gb) (map fst other_gb) m0 rows Er
                             (enumerate cols) []) as (ps' & Hps & Hin).
    rewrite Eo in Hps. injection Hps as <-. intros i j. rewrite Hin.
    split.
    + intros [[]|(c & r & Hc & Hr & Hp)]. injection Hp as -> ->.
      apply in_enumerate, Hcols in Hc as [Hc Hm].
      apply in_enumerate in Hr.
      apply (mapM_nth _ _ _ Er) in Hr as (row & Hrow & Hf).
      apply nanargmin_minimizer in Hf.
      exists r, c. split; [|split; [|split]].
      * apply nth_error_nth'. rewrite <- Hlen.
        apply nth_error_Some. congruence.
      * apply nth_error_nth'. now rewrite length_map.
      * eauto.
      * exact Hm.
    + intros (r & c & Hi & Hj & (row & Hrow & Hmr) & Hmc). right.
      exists c, r. split; [|split].
      * apply in_enumerate, Hcols. split; trivial.
        assert (c < List.length (map fst other_gb))%nat as Hc
            by (apply nth_error_Some; congruence).
        now rewrite length_map in Hc.
      * apply in_enumerate, (mapM_nth _ _ _ Er). exists row.
        split; trivial. now apply nanargmin_minimizer.
      * f_equal; symmetry; now apply nth_error_nth.
  - assert (cols = []) as ->.
    { destruct cols as [|c cols]; trivial. exfalso.
      destruct (bs_outer_needs_rows _ _ _ _ _ _ Eo) as [rows Hrows];
        [discriminate | congruence]. }
    simpl in Eo. injection Eo as <-.
    apply mapM_length in Ec. rewrite length_seq in Ec. simpl in Ec.
    symmetry in Ec. apply length_zero_iff_nil in Ec. subst other_gb.
    intros i j. split; [intros []|].
    intros (r & c & _ & Hc & _). now destruct c.
Qed.

(** When the metric is never NaN the method returns. *)
Lemma match_bs2000_returns (sub_gb other_gb : list group) :
  (forall x1 y1 t1 x2 y2 t2 b r,
      distance_metric x1 y1 t1 x2 y2 t2 b r <> None) ->
  sub_gb <> [] ->
  exists pm, match_bs2000' sub_gb other_gb = Ok pm.
Proof.
  intros Hd Hsub. unfold match_bs2000.
  set (m0 := dist_matrix_of' sub_gb other_gb).
  assert (forall c, (c < List.length other_gb)%nat ->
                    exists r, nanargmin (column c m0) = Ok r) as Hcol.
  { intros c Hc. destruct sub_gb as [|g sub_gb]; [congruence|].
    destruct (nth_error other_gb c) as [og|] eqn:Eg;
      [|apply nth_error_None in Eg; lia].
    destruct (distance_metric (lons (snd g)) (lats (snd g)) (times (snd g))
                (lons (snd og)) (lats (snd og)) (times (snd og))
                (beta args) (r_planet args)) as [v|] eqn:Ev;
      [|now apply Hd in Ev].
    apply (nanargmin_returns _ O v). unfold m0, dist_matrix_of, column.
    cbn [map nth_error]. f_equal. rewrite <- Ev. apply nth_error_nth.
    rewrite nth_error_map. unfold group in *. now rewrite Eg. }
  destruct (mapM_returns (fun j => nanargmin (column j m0))
                         (seq 0 (List.length other_gb))) as [cols Hcols].
  { intros c Hc. apply in_seq in Hc. apply Hcol. lia. }
  unfold nanargmin_axis0. rewrite Hcols. simpl.
  destruct other_gb as [|og other_gb].
  - simpl in Hcols. injection Hcols as <-. simpl. eauto.
  - destruct (mapM_returns nanargmin m0) as [rows Hrows].
    { intros row Hrow. unfold m0, dist_matrix_of in Hrow.
      apply in_map_iff in Hrow as (g & <- & _).
      destruct (distance_metric (lons (snd g)) (lats (snd g)) (times (snd g))
                  (lons (snd og)) (lats (snd og)) (times (snd og))
                  (beta args) (r_planet args)) as [v|] eqn:Ev;
        [|now apply Hd in Ev].
      apply (nanargmin_returns _ O v). cbn [map nth_error].
      now rewrite Ev. }
    destruct (bs_outer_pairs (map fst sub_gb) (map fst (og :: other_gb))
                             m0 rows Hrows (enumerate cols) [])
      as (ps & -> & _).
    simpl. eauto.
Qed.

End Bs2000.

Section Bs2000Matching.

Variable great_circle : Q -> Q -> Q -> Q -> Q -> Q.
Variable distance_metric :
  list Q -> list Q -> list Z -> list Q -> list Q -> list Z ->
  Q -> Q -> option Q.
Variables HOUR KM2M FILLVAL : Q.
Variable args : MatchArgs.

Local Abbreviation match_bs2000' := (match_bs2000 distance_metric args).
Local Abbreviation dist_matrix_of' := (dist_matrix_of distance_metric args).
Local Abbreviation match_tracks' :=
  (match_tracks great_circle distance_metric HOUR KM2M FILLVAL args).

(** [match_tracks] under method="bs2000". *)
Lemma match_tracks_bs2000
  (self : TrackRun) (others : others_arg) (subset s : subset_arg)
  (sub_df : OctantTrack) (other_gb : list group) :
  method args = "bs2000"%string ->
  resolved self subset = Some s ->
  getitem self s = Ok sub_df ->
  other_groups others s = Ok other_gb ->
  (match_tracks' self others subset = Some (Ok (MPairs []))
   /\ (gb sub_df = [] \/ other_gb = []))
  \/ (gb sub_df <> []
      /\ match_tracks' self others subset
         = Some (pm <- match_bs2000' (gb sub_df) other_gb ;;
                 if return_dist_matrix args
                 then Ok (MPairsDist (fst pm) (snd pm))
                 else Ok (MPairs (fst pm)))%result).
Proof.
  intros Hm Hs Hg Ho.
  rewrite (match_tracks_resolved _ _ _ _ _ _ _ _ _ _ Hs).
  unfold match_selected. rewrite Hg. simpl.
  destruct (List.length (gb sub_df) =? 0)%nat eqn:E.
  { apply Nat.eqb_eq, length_zero_iff_nil in E. left. auto. }
  destruct (len_others others) as [n|e] eqn:En.
  2:{ destruct others as [?|?|[?|]]; discriminate. }
  simpl. destruct n as [|n]; simpl.
  - left. split; trivial. right. now apply (other_groups_empty _ _ _ En Ho).
  - right. split.
    + intro H. now rewrite H in E.
    + rewrite Ho. simpl. unfold run_method. now rewrite Hm.
Qed.

(** C1. Under method="bs2000", the pair of track ids (i, j) is returned
    exactly when, for the row of i and the column of j in the distance
    matrix, j's column is the index minimizing the row and i's row is the
    index minimizing the column; a self track whose row has no such
    column is in no pair. When the metric is never NaN, the method returns. *)
Theorem bs2000_mutual_nearest
  (self : TrackRun) (others : others_arg) (subset s : subset_arg)
  (sub_df : OctantTrack) (other_gb : list group) :
  method args = "bs2000"%string ->
  resolved self subset = Some s ->
  getitem self s = Ok sub_df ->
  other_groups others s = Ok other_gb ->
  let m := dist_matrix_of' (gb sub_df) other_gb in
  (forall r,
      match_tracks' self others subset = Some (Ok r) ->
      exists pairs,
        (r = MPairs pairs \/ r = MPairsDist pairs m)
        /\ (forall i j,
               In (i, j) pairs
               <-> exists row col,
                   nth_error (map fst (gb sub_df)) row = Some i
                   /\ nth_error (map fst other_gb) col = Some j
                   /\ mutual_nearest m row col)
        /\ (forall row i,
               nth_error (map fst (gb sub_df)) row = Some i ->
               (forall col, ~ mutual_nearest m row col) ->
               forall j, ~ In (i, j) pairs))
  /\ ((forall x1 y1 t1 x2 y2 t2 b r,
          distance_metric x1 y1 t1 x2 y2 t2 b r <> None) ->
      exists r, match_tracks' self others subset = Some (Ok r)).
Proof.
  intros Hm Hs Hg Ho m.
  assert (forall pairs,
             (forall i j,
                 In (i, j) pairs
                 <-> exists row col,
                     nth_error (map fst (gb sub_df)) row = Some i
                     /\ nth_error (map fst other_gb) col = Some j
                     /\ mutual_nearest m row col) ->
             forall row i,
               nth_error (map fst (gb sub_df)) row = Some i ->
               (forall col, ~ mutual_nearest m row col) ->
               forall j, ~ In (i, j) pairs) as Hno.
  { intros pairs Hiff row i Hrow Hnone j Hin.
    apply Hiff in Hin as (row' & col & Hrow' & _ & Hmut).
    assert (row = row') as <-.
    { apply (proj1 (NoDup_nth_error (map fst (gb sub_df)))
                   (gb_keys_nodup sub_df)); [|congruence].
      apply nth_error_Some. congruence. }
    exact (Hnone col Hmut). }
  destruct (match_tracks_bs2000 self others subset s sub_df other_gb
              Hm Hs Hg Ho) as [[Hr Hempty]|[Hne Hr]]; rewrite Hr.
  - split; [|eauto]. intros r E. injection E as <-.
    assert (forall i j,
               In (i, j) (@nil (Z * Z))
               <-> exists row col,
                   nth_error (map fst (gb sub_df)) row = Some i
                   /\ nth_error (map fst other_gb) col = Some j
                   /\ mutual_nearest m row col) as Hiff.
    { intros i j. split; [intros []|].
      intros (row & col & Hrow & Hcol & _).
      destruct Hempty as [H|H]; rewrite H in *.
      - now destruct row.
      - now destruct col. }
    exists []. split; [now left|]. split; [exact Hiff | now apply Hno].
  - split.
    + intros r E. injection E as E.
      destruct (match_bs2000' (gb sub_df) other_gb) as [[pairs m']|e] eqn:Eb;
        simpl in E; [|discriminate].
      apply match_bs2000_pairs in Eb as [-> Hiff]. fold m in Hiff, E.
      exists pairs. split.
      * destruct (return_dist_matrix args); injection E as <-; auto.
      * split; [exact Hiff | now apply Hno].
    + intro Hd.
      destruct (match_bs2000_returns distance_metric args (gb sub_df)
                                     other_gb Hd Hne) as [pm ->].
      simpl. destruct (return_dist_matrix args); eauto.
Qed.

End Bs2000Matching.

Lemma bs2000_mutual_nearest_witness :
  exists r,
    sample_match_tracks (with_method "bs2000" default_args)
                        run_a (OthersList [other_track]) SubNone
    = Some (Ok r).
Proof.
  apply (proj2 (bs2000_mutual_nearest
                  sample_great_circle sample_distance_metric
                  sample_HOUR sample_KM2M sample_FILLVAL
                  (with_method "bs2000" default_args)
                  run_a (OthersList [other_track]) SubNone (SubStr "all")
                  (data run_a) (gb (concat_keyed 0 [other_track]))
                  eq_refl eq_refl eq_refl eq_refl)).
  discriminate.
Defined.

Example bs2000_on_samples :
  sample_match_tracks (with_method "bs2000" default_args)
                      run_a (OthersList [other_track]) SubNone
  = Some (Ok (MPairs [(3, 0)%Z])).
Proof. vm_compute. reflexivity. Qed.

(* ================================================================= *)
(** ** method="simple" *)

Lemma insert_candidate_in (c x : Z * nat) (l : list (Z * nat)) :
  In x (insert_candidate c l) <-> x = c \/ In x l.
Proof.
  induction l as [|h t IH]; simpl.
  - intuition.
  - destruct (snd c <=? snd h)%nat; simpl; [intuition|].
    rewrite IH. intuition.
Qed.

Lemma sorted_candidates_in (x : Z * nat) (l : list (Z * nat)) :
  In x (sorted_candidates l) <-> In x l.
Proof.
  unfold sorted_candidates. induction l as [|c l IH]; simpl; [tauto|].
  rewrite insert_candidate_in, IH. intuition.
Qed.

Lemma last_cons_nonempty {A : Type} (h d : A) (l : list A) :
  l <> [] -> last (h :: l) d = last l d.
Proof. destruct l; [congruence | reflexivity]. Qed.

Lemma insert_candidate_nonempty (c : Z * nat) (l : list (Z * nat)) :
  insert_candidate c l <> [].
Proof.
  destruct l as [|h t]; simpl; [discriminate|].
  destruct (snd c <=? snd h)%nat; discriminate.
Qed.

Lemma forallb_false_witness {A : Type} (f : A -> bool) (l : list A) :
  forallb f l = false -> exists x, In x l /\ f x = false.
Proof.
  induction l as [|a l IH]; simpl; [discriminate|].
  destruct (f a) eqn:E; simpl.
  - intro H. destruct (IH H) as (x & Hx & Hf). eauto.
  - eauto.
Qed.

(** The candidate inserted into the sorted list ends up last exactly when
    its count is larger than every count of the list. *)
Lemma last_insert_candidate (c d : Z * nat) (l : list (Z * nat)) :
  last (insert_candidate c l) d
  = if forallb (fun h => (snd h <? snd c)%nat) l then c else last l d.
Proof.
  induction l as [|h t IH]; trivial.
  cbn [insert_candidate forallb].
  destruct (Nat.leb_spec (snd c) (snd h)) as [Hle|Hlt].
  - replace (snd h <? snd c)%nat with false
      by (symmetry; apply Nat.ltb_ge; lia).
    reflexivity.
  - replace (snd h <? snd c)%nat with true
      by (symmetry; apply Nat.ltb_lt; lia).
    rewrite last_cons_nonempty by apply insert_candidate_nonempty.
    rewrite IH. cbn [andb].
    destruct (forallb _ t) eqn:E; trivial.
    destruct t; [discriminate | reflexivity].
Qed.

(** Sorting the candidates by count, stably, and taking the last one gives
    the candidate that wins. *)
Lemma last_sorted_wins (cs : list (Z * nat)) (d : Z * nat) :
  cs <> [] -> wins cs (last (sorted_candidates cs) d).
Proof.
  induction cs as [|c cs IH]; [congruence|]. intros _.
  change (sorted_candidates (c :: cs))
    with (insert_candidate c (sorted_candidates cs)).
  rewrite last_insert_candidate.
  destruct (forallb _ (sorted_candidates cs)) eqn:E.
  - exists [], cs. split; trivial. split; [intros x []|].
    intros x Hx. rewrite forallb_forall in E.
    apply Nat.ltb_lt, E. now apply sorted_candidates_in.
  - assert (cs <> []) as Hne by (destruct cs; [discriminate | congruence]).
    destruct (IH Hne) as (pre & post & Hcs & Hpre & Hpost).
    set (w := last (sorted_candidates cs) d) in *.
    exists (c :: pre), post. split; [simpl; now f_equal|].
    split; trivial. intros x [<-|Hx]; [|now apply Hpre].
    assert (exists h, In h cs /\ (snd c <= snd h)%nat) as (h & Hh & Hle).
    { destruct (forallb_false_witness _ _ E) as (h & Hh & Hf).
      exists h. split; [now apply sorted_candidates_in|].
      apply Nat.ltb_ge in Hf. exact Hf. }
    rewrite Hcs in Hh. apply in_app_or in Hh as [Hh|[<-|Hh]].
    + apply Hpre in Hh. lia.
    + exact Hle.
    + apply Hpost in Hh. lia.
Qed.

(** *** The frame of lines 745-755 on tracks whose samples are aligned *)

Lemma insert_timed_in (e x : timed) (l : list timed) :
  In x (insert_timed e l) <-> x = e \/ In x l.
Proof.
  induction l as [|h t IH]; simpl.
  - intuition.
  - destruct (fst e <=? fst h)%Z; simpl; [intuition|].
    rewrite IH. intuition.
Qed.

Lemma sort_index_in (x : timed) (l : list timed) :
  In x (sort_index l) <-> In x l.
Proof.
  unfold sort_index. induction l as [|e l IH]; simpl; [tauto|].
  rewrite insert_timed_in, IH. intuition.
Qed.

Lemma insert_timed_least (e : timed) (l : list timed) :
  (forall x, In x l -> (fst e <= fst x)%Z) -> insert_timed e l = e :: l.
Proof.
  destruct l as [|h t]; intro H; trivial. simpl.
  specialize (H h (or_introl eq_refl)). apply Z.leb_le in H. now rewrite H.
Qed.

Lemma valid_points_insert_none (t : Z) (l : list timed) :
  valid_points (insert_timed (t, None) l) = valid_points l.
Proof.
  induction l as [|h l IH]; trivial. simpl.
  destruct (t <=? fst h)%Z; trivial. simpl. now rewrite IH.
Qed.

Lemma valid_points_insert_some (t : Z) (v : Q * Q) (l : list timed) :
  (forall p, In p (valid_points l) -> (t < fst p)%Z) ->
  valid_points (insert_timed (t, Some v) l) = (t, v) :: valid_points l.
Proof.
  induction l as [|[th [vh|]] l IH]; intro H; trivial; simpl.
  - destruct (Z.leb_spec t th); trivial.
    specialize (H (th, vh) (or_introl eq_refl)). simpl in H. lia.
  - destruct (t <=? th)%Z; trivial. simpl. apply IH. exact H.
Qed.

Lemma filter_time_insert_other (t : Z) (e : timed) (l : list timed) :
  fst e <> t ->
  filter (fun x => (fst x =? t)%Z) (insert_timed e l)
  = filter (fun x => (fst x =? t)%Z) l.
Proof.
  intro Hne. apply Z.eqb_neq in Hne.
  induction l as [|h l IH]; simpl; [now rewrite Hne|].
  destruct (fst e <=? fst h)%Z; simpl; [now rewrite Hne|].
  now rewrite IH.
Qed.

Lemma filter_time_insert_first (t : Z) (e : timed) (l : list timed) :
  fst e = t ->
  filter (fun x => (fst x =? t)%Z) l = [] ->
  filter (fun x => (fst x =? t)%Z) (insert_timed e l) = [e].
Proof.
  intros He. apply Z.eqb_eq in He.
  induction l as [|h l IH]; simpl; intro H; [now rewrite He|].
  destruct (fst h =? t)%Z eqn:Eh; [discriminate|].
  destruct (fst e <=? fst h)%Z; simpl; rewrite ?He, ?Eh; [now rewrite H|].
  now apply IH.
Qed.

(** Sorting does not touch the one row of a time that no other row
    carries. *)
Lemma filter_time_sort_index (t : Z) (l : list timed) :
  (List.length (filter (fun x => (fst x =? t)%Z) l) <= 1)%nat ->
  filter (fun x => (fst x =? t)%Z) (sort_index l)
  = filter (fun x => (fst x =? t)%Z) l.
Proof.
  unfold sort_index. induction l as [|e l IH]; trivial. simpl.
  destruct (Z.eqb_spec (fst e) t) as [He|He]; simpl; intro H.
  - assert (filter (fun x => (fst x =? t)%Z) l = []) as Hnil
        by (apply length_zero_iff_nil; lia).
    rewrite filter_time_insert_first; trivial.
    + now rewrite Hnil.
    + rewrite IH; [assumption | rewrite Hnil; simpl; lia].
  - rewrite filter_time_insert_other by assumption. now apply IH.
Qed.

Section AlignedFrame.

Local Abbreviation filled_row valid :=
  (fun e : timed =>
     (fst e, match snd e with
             | Some v => Some v
             | None => interp_point (fst e) valid
             end)).
Local Abbreviation valued :=
  (fun r : Row => (time (rec r), Some (lon (rec r), lat (rec r)))).
Local Abbreviation blank :=
  (fun r : Row => (time (rec r), @None (Q * Q))).
Local Abbreviation point_of :=
  (fun r : Row => (time (rec r), (lon (rec r), lat (rec r)))).
Local Abbreviation time_of := (fun r : Row => time (rec r)).

(** After the first valid row, [interpolate] fills every NaN row. *)
Lemma fill_nan_seen (valid : list (Z * (Q * Q))) (l : list timed) :
  fill_nan true valid l = map (filled_row valid) l.
Proof.
  induction l as [|[t [v|]] l IH]; simpl; trivial; now rewrite IH.
Qed.

Lemma valid_points_blank (df2 : list Row) :
  valid_points (sort_index (map blank df2)) = [].
Proof.
  unfold sort_index. induction df2 as [|r df2 IH]; trivial. simpl.
  now rewrite valid_points_insert_none.
Qed.

(** The valid rows of the sorted frame are the records of [df1]. *)
Lemma valid_points_frame (df1 df2 : list Row) :
  StronglySorted Z.lt (map time_of df1) ->
  valid_points (sort_index (map valued df1 ++ map blank df2))
  = map point_of df1.
Proof.
  unfold sort_index. rewrite fold_right_app.
  fold (sort_index (map blank df2)).
  induction df1 as [|a df1 IH]; intro Hs.
  - apply valid_points_blank.
  - cbn [map fold_right]. inversion Hs as [|? ? Hs' Hall]; subst.
    rewrite valid_points_insert_some; rewrite (IH Hs'); trivial.
    intros p Hp. apply in_map_iff in Hp as (r & <- & Hr). simpl.
    rewrite Forall_forall in Hall. apply Hall.
    now apply (in_map time_of) in Hr.
Qed.

(** The sorted frame starts with the first record of [df1], when it is the
    earliest row. *)
Lemma sort_index_frame_head (a : Row) (df1 df2 : list Row) :
  StronglySorted Z.lt (map time_of (a :: df1)) ->
  (forall r, In r df2 -> (time (rec a) < time (rec r))%Z) ->
  sort_index (map valued (a :: df1) ++ map blank df2)
  = valued a :: sort_index (map valued df1 ++ map blank df2).
Proof.
  intros Hs Hlate. unfold sort_index. cbn [map app fold_right].
  apply insert_timed_least. intros x Hx.
  apply (proj1 (sort_index_in x (map valued df1 ++ map blank df2))) in Hx.
  inversion Hs as [|? ? _ Hall]; subst. rewrite Forall_forall in Hall.
  apply in_app_or in Hx as [Hx|Hx];
    apply in_map_iff in Hx as (r & <- & Hr); simpl.
  - apply Z.lt_le_incl, Hall. now apply (in_map time_of) in Hr.
  - apply Z.lt_le_incl. now apply Hlate.
Qed.

Lemma filter_time_unique (df : list Row) (r : Row) :
  NoDup (map time_of df) -> In r df ->
  filter (fun x : Row => (time (rec x) =? time (rec r))%Z) df = [r].
Proof.
  induction df as [|a df IH]; intros Hnd Hin; [destruct Hin|].
  cbn [map] in Hnd. apply NoDup_cons_iff in Hnd as [Ha Hnd]. simpl.
  destruct Hin as [->|Hin].
  - rewrite Z.eqb_refl. f_equal. apply filter_nothing.
    intros x Hx. apply Z.eqb_neq. intro E. apply Ha. rewrite <- E.
    now apply (in_map time_of) in Hx.
  - destruct (Z.eqb_spec (time (rec a)) (time (rec r))) as [E|_];
      [|now apply IH].
    exfalso. apply Ha. rewrite E. now apply (in_map time_of) in Hin.
Qed.

Lemma filter_time_map {A : Type} (f : A -> timed) (t : Z) (l : list A) :
  filter (fun x => (fst x =? t)%Z) (map f l)
  = map f (filter (fun a => (fst (f a) =? t)%Z) l).
Proof.
  induction l as [|a l IH]; simpl; trivial.
  destruct (fst (f a) =? t)%Z; simpl; now rewrite IH.
Qed.

(** The row of the frame under the time of a record of [df2]: the one NaN
    row of that record, filled. *)
Lemma frame_row_of (a : Row) (df1 df2 : list Row) (r : Row)
  (valid : list (Z * (Q * Q))) :
  StronglySorted Z.lt (map time_of (a :: df1)) ->
  NoDup (map time_of df2) ->
  (forall x, In x df2 ->
             (time (rec a) < time (rec x))%Z
             /\ ~ In (time (rec x)) (map time_of (a :: df1))) ->
  In r df2 ->
  filter (fun x => (fst x =? time (rec r))%Z)
         (fill_nan false valid
                   (sort_index (map valued (a :: df1) ++ map blank df2)))
  = [(time (rec r), interp_point (time (rec r)) valid)].
Proof.
  intros Hs Hnd Hal Hr.
  rewrite sort_index_frame_head; trivial;
    [|intros x Hx; now apply Hal].
  cbn [fill_nan filter fst]. destruct (Hal r Hr) as [Hlt Hnot].
  assert ((time (rec a) =? time (rec r))%Z = false) as ->
      by (apply Z.eqb_neq; lia).
  rewrite fill_nan_seen.
  rewrite (filter_time_map (filled_row valid)). cbn [fst].
  rewrite filter_time_sort_index.
  - rewrite filter_app, !filter_time_map. cbn [fst].
    rewrite (filter_nothing _ df1), (filter_time_unique df2 r); trivial.
    intros x Hx. apply Z.eqb_neq. intro E. apply Hnot. rewrite <- E.
    right. now apply (in_map time_of) in Hx.
  - rewrite filter_app, !filter_time_map, !length_app, !length_map.
    cbn [fst].
    rewrite (filter_nothing _ df1), (filter_time_unique df2 r); trivial.
    intros x Hx. apply Z.eqb_neq. intro E. apply Hnot. rewrite <- E.
    right. now apply (in_map time_of) in Hx.
Qed.

(** [np.interp] over the records of a track, at a time that is none of
    theirs and not before the first, is the position of the track. *)
Lemma interp_point_position (track : list Row) (t : Z) :
  track <> [] ->
  (starts_at track <= t)%Z ->
  ~ In t (map time_of track) ->
  interp_point t (map point_of track) = position_at track t.
Proof.
  induction track as [|a rest IH]; intros Hne Hs Hnot; [congruence|].
  simpl in Hs, Hnot.
  assert ((t <? time (rec a))%Z = false) as Ea by (apply Z.ltb_ge; lia).
  assert ((t =? time (rec a))%Z = false) as Ea'
      by (apply Z.eqb_neq; intuition).
  destruct rest as [|b rest].
  - unfold interp_point. simpl. now rewrite Ea, Ea'.
  - assert (interp_point t (map point_of (a :: b :: rest))
            = if (t <? time (rec b))%Z then Some (on_line a b t)
              else interp_point t (map point_of (b :: rest))) as ->.
    { unfold interp_point. cbn [map np_interp fst snd].
      rewrite Ea, Ea'.
      destruct (Z.ltb_spec t (time (rec b))) as [Hb|Hb].
      - assert ((time (rec b) <=? t)%Z = false) as ->
            by (apply Z.leb_gt; lia). reflexivity.
      - assert ((time (rec b) <=? t)%Z = true) as ->
            by (apply Z.leb_le; lia). reflexivity. }
    change (position_at (a :: b :: rest) t)
      with (if (t <? time (rec a))%Z then None
            else if (t =? time (rec a))%Z
                 then Some (lon (rec a), lat (rec a))
                 else if (t <? time (rec b))%Z then Some (on_line a b t)
                      else position_at (b :: rest) t).
    rewrite Ea, Ea'.
    destruct (Z.ltb_spec t (time (rec b))) as [Hb|Hb]; trivial.
    apply IH; [discriminate | simpl; lia | intuition].
Qed.

Lemma position_at_defined (track : list Row) (t : Z) :
  track <> [] -> (starts_at track <= t)%Z ->
  exists p, position_at track t = Some p.
Proof.
  induction track as [|a rest IH]; intros Hne Hs; [congruence|].
  simpl in Hs. cbn [position_at].
  assert ((t <? time (rec a))%Z = false) as -> by (apply Z.ltb_ge; lia).
  destruct (t =? time (rec a))%Z; [eauto|].
  destruct rest as [|b rest]; [eauto|].
  destruct (Z.ltb_spec t (time (rec b))) as [Hb|Hb]; [eauto|].
  apply IH; [discriminate | simpl; lia].
Qed.

Lemma fill_nan_blank (valid : list (Z * (Q * Q))) (l : list timed) :
  (forall e, In e l -> snd e = None) ->
  valid_points l = [] /\ fill_nan false [] l = l.
Proof.
  induction l as [|[t [v|]] l IH]; intro H; [now split| |].
  - specialize (H _ (or_introl eq_refl)). discriminate.
  - destruct IH as [IH1 IH2]; [intros; apply H; now right|].
    split; [exact IH1|]. simpl. now rewrite IH2.
Qed.

(** The row of the frame under the time of a record of [df2], when [df1]
    has no record: the NaN row of that record. *)
Lemma blank_frame_row_of (df2 : list Row) (r : Row) :
  NoDup (map time_of df2) ->
  In r df2 ->
  filter (fun x => (fst x =? time (rec r))%Z)
         (interpolate (sort_index (map blank df2)))
  = [(time (rec r), None)].
Proof.
  intros Hnd Hr. unfold interpolate.
  destruct (fill_nan_blank [] (sort_index (map blank df2))) as [-> ->].
  { intros e He. apply sort_index_in, in_map_iff in He as (x & <- & _).
    reflexivity. }
  rewrite filter_time_sort_index; rewrite filter_time_map; cbn [fst];
    rewrite (filter_time_unique df2 r); trivial.
Qed.

Lemma loc_times_rows (filled : list timed) (df2 : list Row)
  (at_time : Row -> option (Q * Q)) :
  (forall r, In r df2 ->
             filter (fun x => (fst x =? time (rec r))%Z) filled
             = [(time (rec r), at_time r)]) ->
  flat_map (fun e : timed => match snd e with
                             | Some v => [v]
                             | None => []
                             end)
           (loc_times (times df2) filled)
  = flat_map (fun r => match at_time r with
                       | Some v => [v]
                       | None => []
                       end) df2.
Proof.
  unfold loc_times, times.
  induction df2 as [|r df2 IH]; intro H; trivial.
  cbn [map flat_map]. rewrite flat_map_app.
  rewrite (H r (or_introl eq_refl)). cbn [flat_map snd].
  rewrite app_nil_r. f_equal. apply IH. intros; apply H; now right.
Qed.

(** On tracks whose samples are aligned, [new_df1] holds the position of
    [df1] at the time of every record of [df2], in their order. *)
Lemma new_df1_positions (df1 df2 : list Row) :
  well_aligned df1 df2 ->
  new_df1 df1 df2
  = flat_map (fun r => match position_at df1 (time (rec r)) with
                       | Some p => [p]
                       | None => []
                       end) df2.
Proof.
  intros (Hs & Hnd & Hal). unfold new_df1. cbv zeta.
  apply loc_times_rows. intros r Hr.
  destruct df1 as [|a df1].
  - cbn [map app position_at]. now apply blank_frame_row_of.
  - unfold interpolate. rewrite frame_row_of; trivial.
    rewrite valid_points_frame by assumption.
    destruct (Hal r Hr) as [Hlt Hnot]. cbn [starts_at] in Hlt.
    rewrite interp_point_position; trivial;
      [discriminate | cbn [starts_at]; lia].
Qed.

End AlignedFrame.

Section Counting.

Variable great_circle : Q -> Q -> Q -> Q -> Q -> Q.
Variables HOUR KM2M FILLVAL : Q.
Variable args : MatchArgs.

Lemma within_count_aligned (df1 df2 : list Row) :
  well_aligned df1 df2 ->
  within_count great_circle KM2M FILLVAL args df1 df2
  = List.length
      (filter (fun r => match position_at df1 (time (rec r)) with
                        | Some p => within_radius great_circle KM2M args p r
                        | None => false
                        end) df2).
Proof.
  intro Hw. unfold within_count. rewrite (new_df1_positions _ _ Hw).
  destruct df1 as [|a df1].
  - cbn [position_at]. clear.
    assert (flat_map (fun _ : Row => @nil (Q * Q)) df2 = []) as ->
        by (induction df2; trivial).
    unfold dist_diff. simpl. now rewrite filter_nothing.
  - destruct Hw as (_ & _ & Hal).
    assert (forall r, In r df2 ->
                      exists p, position_at (a :: df1) (time (rec r))
                                = Some p) as Hp.
    { intros r Hr. apply position_at_defined; [discriminate|].
      destruct (Hal r Hr) as [Hlt _]. cbn [starts_at] in *. lia. }
    clear Hal. unfold count_true.
    induction df2 as [|r df2 IH]; trivial.
    destruct (Hp r (or_introl eq_refl)) as (p & Ep).
    cbn [flat_map filter]. rewrite Ep.
    change (dist_diff great_circle FILLVAL args
              ([p] ++ flat_map
                        (fun r => match position_at (a :: df1) (time (rec r))
                                  with
                                  | Some p => [p]
                                  | None => []
                                  end) df2)
              (r :: df2))
      with (great_circle (fst p) (lon (rec r)) (snd p) (lat (rec r))
                         (r_planet args)
            :: dist_diff great_circle FILLVAL args
                 (flat_map
                    (fun r => match position_at (a :: df1) (time (rec r))
                              with
                              | Some p => [p]
                              | None => []
                              end) df2)
                 df2).
    cbn [map filter]. fold (within_radius great_circle KM2M args p r).
    unfold id at 1.
    destruct (within_radius great_circle KM2M args p r);
      cbn [List.length]; rewrite IH; trivial;
      intros; apply Hp; now right.
Qed.

Lemma overlap_spans (df1 df2 : list Row) :
  (0 < HOUR)%Q ->
  overlap HOUR df1 df2
  = (Z.max (starts_at df1) (starts_at df2)
     <? Z.min (ends_at df1) (ends_at df2))%Z.
Proof.
  intro Hh. unfold overlap. cbv zeta.
  assert (forall g, first_time g = starts_at g) as Hf
      by (now destruct g).
  assert (forall g, last_time g = ends_at g) as Hl.
  { destruct g as [|a g]; trivial. unfold last_time, times, ends_at.
    exact (last_map_default (fun r => time (rec r)) g a 0%Z). }
  rewrite !Hf, !Hl.
  set (d := (Z.min (ends_at df1) (ends_at df2)
             - Z.max (starts_at df1) (starts_at df2))%Z).
  assert ((Z.max (starts_at df1) (starts_at df2)
           <? Z.min (ends_at df1) (ends_at df2))%Z = (0 <? d)%Z) as ->
      by (unfold d; destruct (Z.ltb_spec (Z.max (starts_at df1) (starts_at df2))
                                         (Z.min (ends_at df1) (ends_at df2)));
          symmetry; [apply Z.ltb_lt | apply Z.ltb_ge]; lia).
  apply eq_true_iff_eq. rewrite Qltb_lt, Z.ltb_lt. split; intro H.
  - apply Qmult_lt_r with (z := HOUR) in H; trivial.
    rewrite Qmult_0_l in H. unfold Qdiv in H.
    rewrite <- Qmult_assoc, (Qmult_comm (/ HOUR)), Qmult_inv_r,
      Qmult_1_r in H by (intro E; rewrite E in Hh; discriminate).
    unfold Qlt in H. simpl in H. lia.
  - apply Qlt_shift_div_l; trivial. rewrite Qmult_0_l.
    unfold Qlt. simpl. lia.
Qed.

End Counting.

Section Simple.

Variable great_circle : Q -> Q -> Q -> Q -> Q -> Q.
Variable distance_metric :
  list Q -> list Q -> list Z -> list Q -> list Q -> list Z ->
  Q -> Q -> option Q.
Variables HOUR KM2M FILLVAL : Q.
Variable args : MatchArgs.

Local Abbreviation candidate' :=
  (candidate great_circle HOUR KM2M FILLVAL args).
Local Abbreviation candidates_of' :=
  (candidates_of great_circle HOUR KM2M FILLVAL args).
Local Abbreviation match_simple_loop' :=
  (match_simple_loop great_circle HOUR KM2M FILLVAL args).
Local Abbreviation match_simple' :=
  (match_simple great_circle HOUR KM2M FILLVAL args).
Local Abbreviation counted' := (counted great_circle KM2M FILLVAL args).
Local Abbreviation appends' :=
  (appends great_circle HOUR KM2M FILLVAL args).
Local Abbreviation appended' :=
  (appended great_circle HOUR KM2M FILLVAL args).
Local Abbreviation is_candidate' := (is_candidate great_circle KM2M args).
Local Abbreviation Candidate' := (Candidate great_circle KM2M args).
Local Abbreviation aligned_within' :=
  (aligned_within great_circle KM2M args).
Local Abbreviation candidates_for' :=
  (candidates_for great_circle KM2M args).
Local Abbreviation match_tracks' :=
  (match_tracks great_circle distance_metric HOUR KM2M FILLVAL args).

Hypothesis direction :
  interpolate_to args = "other"%string \/ interpolate_to args = "self"%string.

Lemma is_candidate_Candidate (ct other_ct : list Row) :
  is_candidate' ct other_ct = true <-> Candidate' ct other_ct.
Proof.
  unfold is_candidate, Candidate, spans_overlap.
  now rewrite andb_true_iff, Qltb_lt, Z.ltb_lt.
Qed.

Lemma orient_direction (ct other_ct : list Row) :
  orient args ct other_ct
  = Ok (donor args ct other_ct, target args ct other_ct).
Proof.
  unfold orient, donor, target.
  destruct direction as [-> | ->]; reflexivity.
Qed.

Lemma candidate_rule (idx : Z) (ct other_ct : list Row) :
  candidate' idx ct other_ct
  = Ok (if appends' ct other_ct
        then Some (idx, counted' ct other_ct) else None).
Proof.
  unfold candidate. rewrite orient_direction. simpl.
  unfold appends, counted.
  destruct (overlap HOUR _ _); trivial. simpl.
  destruct (Qltb _ _); trivial.
Qed.

Lemma candidates_of_appended (other_ct : list Row) (sub_gb : list group) :
  forall acc,
    candidates_of' other_ct sub_gb acc
    = Ok (acc ++ appended' sub_gb other_ct).
Proof.
  induction sub_gb as [|[idx ct] sub_gb IH]; intro acc; simpl.
  - now rewrite app_nil_r.
  - rewrite candidate_rule. simpl. rewrite IH.
    destruct (appends' ct other_ct); simpl; trivial.
    now rewrite <- app_assoc.
Qed.

Lemma match_simple_loop_pairs (sub_gb other_gb : list group) :
  forall acc,
    match_simple_loop' sub_gb other_gb acc
    = Ok (acc ++ List.concat
                   (map (fun og =>
                           final_pair (fst og)
                                      (appended' sub_gb (snd og)))
                        other_gb)).
Proof.
  induction other_gb as [|[oidx other_ct] other_gb IH]; intro acc; simpl.
  - now rewrite app_nil_r.
  - rewrite candidates_of_appended. simpl. rewrite IH.
    now rewrite <- app_assoc.
Qed.

Lemma final_pair_emitted (other_idx : Z) (cs : list (Z * nat)) :
  emitted cs other_idx (final_pair other_idx cs).
Proof.
  unfold emitted, final_pair. destruct cs as [|c cs]; [now left|].
  right. exists (last (sorted_candidates (c :: cs)) c). split; trivial.
  now apply last_sorted_wins.
Qed.

(** On tracks whose samples are aligned, the loop appends the candidates of
    the rule, with the counts of the rule. *)
Lemma appended_candidates (sub_gb : list group) (other_ct : list Row) :
  (0 < HOUR)%Q ->
  (forall g, In g sub_gb ->
             spans_overlap (donor args (snd g) other_ct)
                           (target args (snd g) other_ct) ->
             well_aligned (donor args (snd g) other_ct)
                          (target args (snd g) other_ct)) ->
  appended' sub_gb other_ct = candidates_for' sub_gb other_ct.
Proof.
  intros Hh Hal. unfold appended, candidates_for.
  induction sub_gb as [|g sub_gb IH]; trivial. cbn [flat_map].
  rewrite IH by (intros; apply Hal; [now right | assumption]).
  f_equal. unfold appends, is_candidate.
  rewrite overlap_spans by assumption.
  destruct (Z.ltb_spec
              (Z.max (starts_at (donor args (snd g) other_ct))
                     (starts_at (target args (snd g) other_ct)))
              (Z.min (ends_at (donor args (snd g) other_ct))
                     (ends_at (target args (snd g) other_ct))))
    as [Ho|_]; trivial.
  assert (counted' (snd g) other_ct = aligned_within' (snd g) other_ct)
    as ->; trivial.
  unfold counted, aligned_within. apply within_count_aligned.
  apply Hal; [now left | exact Ho].
Qed.

Lemma candidates_for_rule (sub_gb : list group) (other_ct : list Row)
  (c : Z * nat) :
  In c (candidates_for' sub_gb other_ct)
  <-> exists ct,
      In (fst c, ct) sub_gb /\ Candidate' ct other_ct
      /\ snd c = aligned_within' ct other_ct.
Proof.
  unfold candidates_for. rewrite in_flat_map. split.
  - intros ([idx ct] & Hg & Hc). simpl in Hc.
    destruct (is_candidate' ct other_ct) eqn:E; [|destruct Hc].
    destruct Hc as [<-|[]]. exists ct. simpl.
    split; trivial. split; trivial. now apply is_candidate_Candidate.
  - intros (ct & Hg & Hc & Hn). exists (fst c, ct). split; trivial.
    simpl. apply is_candidate_Candidate in Hc. rewrite Hc, <- Hn.
    left. now destruct c.
Qed.

(** [match_tracks] under method="simple". *)
Lemma match_tracks_simple
  (self : TrackRun) (others : others_arg) (subset s : subset_arg)
  (sub_df : OctantTrack) (other_gb : list group) :
  method args = "simple"%string ->
  resolved self subset = Some s ->
  getitem self s = Ok sub_df ->
  other_groups others s = Ok other_gb ->
  match_tracks' self others subset
  = Some (Ok (MPairs
                (List.concat
                   (map (fun og =>
                           final_pair (fst og)
                                      (appended' (gb sub_df) (snd og)))
                        other_gb)))).
Proof.
  intros Hm Hs Hg Ho.
  rewrite (match_tracks_resolved _ _ _ _ _ _ _ _ _ _ Hs).
  unfold match_selected. rewrite Hg. simpl.
  destruct (List.length (gb sub_df) =? 0)%nat eqn:E.
  { apply Nat.eqb_eq, length_zero_iff_nil in E. rewrite E.
    do 3 f_equal. clear. induction other_gb as [|og l IH]; simpl; trivial. }
  destruct (len_others others) as [n|e] eqn:En.
  2:{ destruct others as [?|?|[?|]]; discriminate. }
  simpl. destruct n as [|n]; simpl.
  - now rewrite (other_groups_empty _ _ _ En Ho).
  - rewrite Ho. simpl. unfold run_method. rewrite Hm. simpl.
    unfold match_simple. now rewrite match_simple_loop_pairs.
Qed.


End Simple.

Lemma long_short_well_aligned : well_aligned long_ct short_ct.
Proof.
  unfold well_aligned. split; [|split].
  - vm_compute. repeat constructor.
  - vm_compute. repeat constructor; simpl; intuition discriminate.
  - intros r [<-|[<-|[]]]; vm_compute; intuition discriminate.
Qed.



(* ================================================================= *)
(** ** Observations on the code *)

(** [density] has no branch for a method that is neither "radius" nor
    "cell": the kernel stays unbound, and the call at line 946 fails on the
    unbound name once the points are selected. *)
Example density_method_without_branch :
  sample_density (with_dmethod "kernel" default_dargs) run_a SubNone
  = Some (Raise NameError).
Proof. reflexivity. Qed.

(** The loop of method="simple" on two tracks that share their timestamps.
    Every shared timestamp is twice in the frame of lines 748-751, once for
    each track, and [.loc] at line 754 returns both rows: [new_df1] has eight
    rows for the four timestamps. The loop of lines 762-765 pairs them with
    the four records of the other track by position, so the count is taken
    over the first two timestamps only: it is 4, where two of the four
    aligned samples are within the radius, and the self track is appended
    although 2 does not exceed [time_frac] times 4. *)
Example simple_counts_by_position_at_shared_times :
  List.length (new_df1 leaving_ct still_ct) = 8%nat
  /\ counted sample_great_circle sample_KM2M sample_FILLVAL default_args
             leaving_ct still_ct = 4%nat
  /\ aligned_within sample_great_circle sample_KM2M default_args
                    leaving_ct still_ct = 2%nat
  /\ appends sample_great_circle sample_HOUR sample_KM2M sample_FILLVAL
             default_args leaving_ct still_ct = true
  /\ is_candidate sample_great_circle sample_KM2M default_args
                  leaving_ct still_ct = false.
Proof. repeat split; vm_compute; reflexivity. Qed.

(* ================================================================= *)
(** * Further properties of the code *)

(** ** Selections *)

Lemma filter_all {A : Type} (l : list A) : filter (fun _ => true) l = l.
Proof. induction l as [|a l IH]; simpl; congruence. Qed.

Lemma getitem_filters_by_track
  (self : TrackRun) (subset : subset_arg) (d : OctantTrack) :
  getitem self subset = Ok d ->
  exists keep : Z -> bool,
    d = filter (fun r => keep (track_idx r)) (data self).
Proof.
  unfold getitem.
  destruct (selects_all subset || (len self =? 0)%nat).
  - intro H. injection H as <-. exists (fun _ => true).
    now rewrite filter_all.
  - destruct (is_categorised self); [|discriminate].
    destruct (cats self) as [c|]; [|discriminate].
    destruct (select_loop c None (subset_labels subset)) as [[mask|]|e];
      simpl; try discriminate.
    intro H. injection H as <-.
    now exists (fun k => existsb (Z.eqb k) (masked_index (cat_rows c) mask)).
Qed.

(** X1. On a run whose categorised track ids all have rows in [data], a
    selection that succeeds returns rows of [data] and takes tracks whole:
    with a row it returns every row of [data] of the same track. *)
Theorem getitem_takes_whole_tracks
  (self : TrackRun) (subset : subset_arg) (d : OctantTrack) :
  (forall c k, cats self = Some c -> In k (map fst (cat_rows c)) ->
               In k (map track_idx (data self))) ->
  getitem self subset = Ok d ->
  (forall r, In r d -> In r (data self))
  /\ forall r r',
      In r d -> In r' (data self) -> track_idx r' = track_idx r -> In r' d.
Proof.
  intros _ H. destruct (getitem_filters_by_track _ _ _ H) as [keep ->].
  split.
  - intros r Hr. now apply filter_In in Hr.
  - intros r r' Hr Hr' E. apply filter_In in Hr as [_ Hk].
    apply filter_In. split; trivial. now rewrite E.
Qed.

Lemma getitem_takes_whole_tracks_witness :
  (forall r, In r [ row 3 0 (pt 10 60 0); row 3 1 (pt 11 61 hour_ns) ] ->
             In r (data run_a_cats))
  /\ forall r r',
      In r [ row 3 0 (pt 10 60 0); row 3 1 (pt 11 61 hour_ns) ] ->
      In r' (data run_a_cats) -> track_idx r' = track_idx r ->
      In r' [ row 3 0 (pt 10 60 0); row 3 1 (pt 11 61 hour_ns) ].
Proof.
  apply (getitem_takes_whole_tracks run_a_cats (SubStr "long")).
  - intros c k Hc Hk. injection Hc as <-. simpl in Hk. simpl. tauto.
  - reflexivity.
Defined.

Lemma nunique_filter (f : Row -> bool) (d : OctantTrack) :
  (nunique (map track_idx (filter f d)) <= nunique (map track_idx d))%nat.
Proof.
  unfold nunique. apply NoDup_incl_length; [apply NoDup_nodup|].
  intros k Hk. apply nodup_In in Hk. apply nodup_In.
  apply in_map_iff in Hk as (r & <- & Hr). apply filter_In in Hr as [Hr _].
  now apply in_map.
Qed.

(** X2. The size of a subset never exceeds the number of tracks of the
    run. *)
Theorem size_le_len (self : TrackRun) (subset : subset_arg) (n : nat) :
  size self subset = Ok n -> (n <= len self)%nat.
Proof.
  unfold size. destruct (getitem self subset) as [d|e] eqn:E;
    simpl; [|discriminate].
  intro H. injection H as <-.
  apply getitem_filters_by_track in E as [keep ->].
  apply nunique_filter.
Qed.

Lemma size_le_len_witness : (1 <= len run_a_cats)%nat.
Proof.
  apply (size_le_len run_a_cats (SubStr "long")). reflexivity.
Defined.

(* ================================================================= *)
(** ** More on [extend] and [__add__] *)

Lemma renumber_after_eq (t : list Z) :
  forall p acc,
    map (fun c => (c - 1)%Z)
        (cumsum_from acc (ne t (map Some (removelast (p :: t)))))
    = renumber_after p acc t.
Proof.
  induction t as [|y t IH]; intros p acc; trivial.
  change (removelast (p :: y :: t)) with (p :: removelast (y :: t)).
  cbn [map ne cumsum_from renumber_after]. rewrite IH.
  destruct (y =? p)%Z; reflexivity.
Qed.

Lemma renumber_cons (x : Z) (t : list Z) :
  renumber (x :: t) = 0%Z :: renumber_after x 1 t.
Proof.
  unfold renumber, cumsum. rewrite ne_shift_cons.
  cbn [cumsum_from map]. now rewrite renumber_after_eq.
Qed.

(** On ids that climb, the renumbering is a shift. *)
Lemma renumber_after_climbs (t : list Z) :
  forall p s,
    climbs p t ->
    renumber_after p (p + 1 + s) t = map (fun z => (z + s)%Z) t.
Proof.
  induction t as [|y t IH]; intros p s H; trivial.
  destruct H as [Hy Ht]. cbn [renumber_after map].
  destruct (Z.eqb_spec y p) as [->|Hne].
  - rewrite Z.add_0_r. rewrite (IH p s Ht). f_equal. lia.
  - assert (y = p + 1)%Z as -> by tauto.
    replace (p + 1 + s + 1)%Z with (p + 1 + 1 + s)%Z by lia.
    rewrite (IH (p + 1)%Z s Ht). f_equal. lia.
Qed.

Lemma map_add_zero (l : list Z) : map (fun z => (z + 0)%Z) l = l.
Proof.
  induction l as [|a l IH]; simpl; [trivial|]. now rewrite Z.add_0_r, IH.
Qed.

Lemma renumber_fixed (ids : list Z) :
  renumber ids = ids <-> contiguous_from_zero ids.
Proof.
  split.
  - intro H. rewrite <- H. apply renumber_contiguous.
  - destruct ids as [|x t]; [reflexivity|]. intros [-> Ht].
    rewrite renumber_cons. f_equal.
    rewrite <- (map_add_zero t) at 2.
    apply (renumber_after_climbs t 0 0 Ht).
Qed.

Lemma set_track_idx_same (d : OctantTrack) :
  set_track_idx (map track_idx d) d = d.
Proof.
  induction d as [|[k i p] d IH]; simpl; [trivial|]. now rewrite IH.
Qed.

Lemma reindex_fixed (d : OctantTrack) :
  reindex d = d <-> contiguous_from_zero (map track_idx d).
Proof.
  rewrite <- renumber_fixed. split.
  - intro H. rewrite <- H at 2. symmetry. apply reindex_ids.
  - intro H. unfold reindex. rewrite H. apply set_track_idx_same.
Qed.

Lemma renumber_after_steps (t : list Z) :
  forall p acc k a b a' b',
    nth_error (p :: t) k = Some a ->
    nth_error (p :: t) (S k) = Some b ->
    nth_error ((acc - 1)%Z :: renumber_after p acc t) k = Some a' ->
    nth_error ((acc - 1)%Z :: renumber_after p acc t) (S k) = Some b' ->
    b' = (a' + (if (a =? b)%Z then 0 else 1))%Z.
Proof.
  induction t as [|y t IH]; intros p acc k a b a' b' Ha Hb Ha' Hb'.
  - destruct k as [|[|k]]; discriminate.
  - cbn [renumber_after] in Ha', Hb'. destruct k as [|k].
    + simpl in *. injection Ha as <-. injection Hb as <-.
      injection Ha' as <-. injection Hb' as <-.
      rewrite (Z.eqb_sym p y). destruct (y =? p)%Z; lia.
    + exact (IH y _ k a b a' b' Ha Hb Ha' Hb').
Qed.

(** X24. [extend] keeps the records of [self] and then of [other], each
    with its place in its track, and numbers the tracks by the changes of
    the id along the rows of the concatenated frame: the first row gets 0,
    and a row gets the id of the row before it when the two had the same id
    before, and the next id when they had not. *)
Theorem extend_counts_id_changes
  (self other new : TrackRun) (adapt_conf : bool) :
  extend other adapt_conf self = (Ok tt, new) ->
  let old := map track_idx (data self ++ data other) in
  let ids := map track_idx (data new) in
  payload (data new) = payload (data self) ++ payload (data other)
  /\ List.length ids = List.length old
  /\ (forall a, nth_error ids 0 = Some a -> a = 0%Z)
  /\ forall k a b a' b',
      nth_error old k = Some a -> nth_error old (S k) = Some b ->
      nth_error ids k = Some a' -> nth_error ids (S k) = Some b' ->
      b' = (a' + (if (a =? b)%Z then 0 else 1))%Z.
Proof.
  intro H. apply extend_cases in H as [(e & He & _)|[_ D]]; [discriminate|].
  cbv zeta. rewrite D, reindex_payload, reindex_ids, renumber_length.
  split; [apply payload_app|]. split; trivial.
  destruct (map track_idx (data self ++ data other)) as [|x t].
  - split; [intros a Ha; discriminate|]. intros k a b a' b' Ha.
    now destruct k.
  - rewrite renumber_cons. split.
    + intros a Ha. now injection Ha as <-.
    + intros k a b a' b'.
      exact (renumber_after_steps t x 1 k a b a' b').
Qed.

Lemma extend_counts_id_changes_witness :
  let old := map track_idx (data run_a ++ data run_b) in
  let ids := map track_idx (data (snd (extend run_b true run_a))) in
  payload (data (snd (extend run_b true run_a)))
  = payload (data run_a) ++ payload (data run_b)
  /\ List.length ids = List.length old
  /\ (forall a, nth_error ids 0 = Some a -> a = 0%Z)
  /\ forall k a b a' b',
      nth_error old k = Some a -> nth_error old (S k) = Some b ->
      nth_error ids k = Some a' -> nth_error ids (S k) = Some b' ->
      b' = (a' + (if (a =? b)%Z then 0 else 1))%Z.
Proof.
  apply (extend_counts_id_changes run_a run_b _ true). reflexivity.
Defined.

(** X3. The re-indexing of [extend] leaves a frame as it is exactly when
    the track ids of the frame already start at 0 and climb by steps of 0 or
    1; so re-indexing twice is re-indexing once. *)
Theorem reindex_fixed_iff_contiguous (d : OctantTrack) :
  (reindex d = d <-> contiguous_from_zero (map track_idx d))
  /\ reindex (reindex d) = reindex d.
Proof.
  split; [apply reindex_fixed|].
  apply reindex_fixed. rewrite reindex_ids. apply renumber_contiguous.
Qed.

Lemma adapt_fields_raises (fields : list string) :
  forall (mine theirs mine' : TrackSettings) (e : exn),
    adapt_fields fields mine theirs = (Raise e, mine') -> e = AttributeError.
Proof.
  induction fields as [|f fields IH]; intros mine theirs mine' e; simpl.
  - discriminate.
  - assert (forall c g e', conf_getattr c g = Raise e' -> e' = AttributeError)
      as Hget.
    { induction c as [|[k v] c IHc]; intros g e'; simpl.
      - intro H. now injection H as <-.
      - destruct (String.eqb k g); [discriminate | apply IHc]. }
    destruct (conf_getattr mine f) eqn:E1.
    + destruct (conf_getattr theirs f) eqn:E2.
      * destruct (negb (value_eqb a a0)); apply IH.
      * intro H. injection H as <- _. now apply Hget in E2.
    + intro H. injection H as <- _. now apply Hget in E1.
Qed.

Lemma merge_conf_raises (other s s' : TrackRun) (a : bool) (e : exn) :
  merge_conf other a s = (Raise e, s') -> e = AttributeError.
Proof.
  unfold merge_conf, bind, get, lift, ret, modify.
  destruct (conf other) as [theirs|]; [|discriminate].
  destruct a; [|discriminate].
  destruct (conf s) as [mine|]; [|discriminate].
  destruct (adapt_fields (map fst mine) mine theirs) as [r mine'] eqn:E.
  destruct r as [[]|e']; [discriminate|].
  intro H. injection H as <- _. now apply adapt_fields_raises in E.
Qed.

Lemma flags_differ (x y : bool) : negb (Bool.eqb x y) = true <-> x <> y.
Proof. destruct x, y; simpl; split; congruence. Qed.

Lemma check_cat_metadata_cases (other s : TrackRun) :
  (metadata_mismatch s other
   /\ check_cat_metadata other s = (Raise ConcatenationError, s))
  \/ (~ metadata_mismatch s other
      /\ exists s', check_cat_metadata other s = (Ok tt, s')
                    /\ tstep_h s' = tstep_h s).
Proof.
  unfold check_cat_metadata, metadata_mismatch, bind, get, lift, raise, ret,
    modify.
  rewrite !size_no_subset.
  destruct (Nat.ltb_spec 0 (len s)) as [Hs|Hs];
    destruct (Nat.ltb_spec 0 (len other)) as [Ho|Ho]; cbn [andb].
  - destruct (negb (Bool.eqb (is_cat_inclusive s) (is_cat_inclusive other)))
      eqn:E1.
    + left. apply flags_differ in E1. split; trivial. repeat split; (lia || auto).
    + destruct (negb (Bool.eqb (is_categorised s) (is_categorised other)))
        eqn:E2.
      * left. apply flags_differ in E2. split; trivial.
        repeat split; (lia || auto).
      * right. split; [|eauto].
        intros (_ & _ & [H|H]); apply flags_differ in H; congruence.
  - right. split; [intros (_ & H & _); lia | eauto].
  - right. split; [intros (H & _); lia | eauto].
  - right. split; [intros (H & _); lia | eauto].
Qed.

Lemma check_tstep_cases (other s : TrackRun) :
  (tstep_mismatch s other
   /\ check_tstep other s = (Raise ConcatenationError, s))
  \/ (~ tstep_mismatch s other
      /\ exists s', check_tstep other s = (Ok tt, s')).
Proof.
  unfold check_tstep, tstep_mismatch, bind, get, raise, ret, modify,
    tstep_differs.
  destruct (tstep_h s) as [a|].
  - destruct (tstep_h other) as [b|].
    + destruct (Qeq_bool a b) eqn:E; simpl.
      * right. split; [|eauto]. intros (a' & b' & Ha & Hb & Hne).
        injection Ha as <-. injection Hb as <-.
        now apply Qeq_bool_iff in E.
      * left. split; trivial. exists a, b. repeat split.
        now apply Qeq_bool_neq.
    + right. split; [|eauto]. intros (a' & b' & _ & Hb & _). discriminate.
  - right. split; [|eauto]. intros (a' & b' & Ha & _). discriminate.
Qed.

(** X4. [extend] raises a ConcatenationError exactly when both runs have
    tracks and differ in one of the two categorisation flags, or both have
    a time step and the two differ. *)
Theorem extend_raises_iff (self other : TrackRun) (adapt_conf : bool) :
  (exists self', extend other adapt_conf self
                 = (Raise ConcatenationError, self'))
  <-> metadata_mismatch self other \/ tstep_mismatch self other.
Proof.
  unfold extend. unfold bind at 1.
  destruct (check_cat_metadata_cases other self)
    as [[Hm ->]|[Hm (s1 & -> & Ht1)]].
  { split; eauto. }
  unfold bind at 1.
  assert (tstep_mismatch s1 other <-> tstep_mismatch self other) as Hiff.
  { unfold tstep_mismatch. now rewrite Ht1. }
  destruct (check_tstep_cases other s1) as [[Ht ->]|[Ht (s2 & ->)]].
  { split; [intros _; right; now apply Hiff | eauto]. }
  split; [|intros [H|H]; [contradiction | apply Hiff in H; contradiction]].
  intros [s' H]. exfalso. unfold bind at 1 in H.
  destruct (merge_conf other adapt_conf s2) as [[[]|e] s3] eqn:E.
  - cbv [bind modify concat_data concat_categories get ret] in H.
    simpl in H. repeat split_match; discriminate.
  - injection H as -> _. apply merge_conf_raises in E. discriminate.
Qed.

(** X6. Extending a fresh TrackRun never raises: it yields a copy of the
    other run with the tracks and categories renumbered. So [__add__] is
    the extension of the renumbered copy of [self] by [other]. *)
Theorem extend_fresh_copies (other : TrackRun) (adapt_conf : bool) :
  extend other adapt_conf init = (Ok tt, fresh_copy other adapt_conf)
  /\ forall self,
      add self other
      = match extend other true (fresh_copy self true) with
        | (Ok _, new) => Ok new
        | (Raise e, _) => Raise e
        end.
Proof.
  assert (forall o a, extend o a init = (Ok tt, fresh_copy o a)) as H.
  { intros o a. unfold extend, fresh_copy.
    cbv [bind check_cat_metadata check_tstep merge_conf concat_data
         concat_categories get lift ret modify raise].
    rewrite !size_no_subset. cbn [len init data map nunique nodup
                                  List.length Nat.ltb Nat.leb andb
                                  tstep_h conf cats].
    unfold len.
    destruct (nunique (map track_idx (data o)));
      destruct (conf o) as [theirs|]; destruct a;
      destruct (cats o) as [c|]; reflexivity. }
  split; [apply H|]. intro self. unfold add. now rewrite H.
Qed.

Lemma last_cons_default (y p : Z) (t : list Z) :
  last (y :: t) p = last t y.
Proof.
  revert y p. induction t as [|z t IH]; intros y p; trivial.
  change (last (y :: z :: t) p) with (last (z :: t) p).
  now rewrite !IH.
Qed.

(** The keys of a frame whose ids climb are counted by its last id. *)
Lemma climbing_keys_last (t : list Z) (a : Z) :
  climbs a t ->
  exists n, fold_right insert_key [] (a :: t) = id_range a (S n)
            /\ last t a = (a + Z.of_nat n)%Z.
Proof.
  revert a. induction t as [|b t IH]; intros a H.
  - exists O. split; [|simpl; lia]. simpl. unfold id_range. simpl.
    f_equal. lia.
  - destruct H as [Hb Ht]. destruct (IH b Ht) as (n & Hn & Hl).
    rewrite last_cons_default.
    change (fold_right insert_key [] (a :: b :: t))
      with (insert_key a (fold_right insert_key [] (b :: t))).
    rewrite Hn, id_range_succ. cbn [insert_key].
    destruct Hb as [-> | ->].
    + exists n. rewrite Z.ltb_irrefl, Z.eqb_refl.
      split; [now rewrite id_range_succ | exact Hl].
    + exists (S n). replace (a <? a + 1)%Z with true by (symmetry; lia).
      split; [|lia].
      rewrite (id_range_succ a (S n)). f_equal. now rewrite id_range_succ.
Qed.

Lemma contiguous_count (d : OctantTrack) (x : Z) (t : list Z) :
  map track_idx d = x :: t ->
  contiguous_from_zero (x :: t) ->
  Z.of_nat (List.length (gb d)) = (last t 0 + 1)%Z.
Proof.
  intros Hd [-> Ht]. unfold gb. rewrite length_map. unfold group_keys.
  rewrite Hd. destruct (climbing_keys_last t 0 Ht) as (n & -> & ->).
  unfold id_range. rewrite length_map, length_seq. lia.
Qed.

Lemma renumber_after_app (t1 t2 : list Z) :
  forall p s,
    climbs p t1 ->
    renumber_after p (p + 1 + s) (t1 ++ t2)
    = map (fun z => (z + s)%Z) t1
      ++ renumber_after (last t1 p) (last t1 p + 1 + s) t2.
Proof.
  induction t1 as [|y t1 IH]; intros p s H; trivial.
  destruct H as [Hy Ht]. rewrite last_cons_default.
  cbn [app renumber_after map].
  destruct (Z.eqb_spec y p) as [->|Hne].
  - rewrite Z.add_0_r. rewrite (IH p s Ht). f_equal. lia.
  - assert (y = p + 1)%Z as -> by tauto.
    replace (p + 1 + s + 1)%Z with (p + 1 + 1 + s)%Z by lia.
    rewrite (IH (p + 1)%Z s Ht). f_equal. lia.
Qed.

Lemma climbs_last_ge (t : list Z) :
  forall p, climbs p t -> (p <= last t p)%Z.
Proof.
  induction t as [|y t IH]; intros p H; [simpl; lia|].
  destruct H as [Hy Ht]. rewrite last_cons_default.
  apply IH in Ht. lia.
Qed.

Lemma last_map_shift (t : list Z) (d s : Z) :
  last (map (fun z => (z + s)%Z) t) (d + s)%Z = (last t d + s)%Z.
Proof.
  revert d. induction t as [|y t IH]; intro d; trivial.
  cbn [map]. rewrite !last_cons_default. apply IH.
Qed.

Lemma last_app_cons (l l' : list Z) (y d : Z) :
  last (l ++ y :: l') d = last (y :: l') d.
Proof.
  induction l as [|x l IH]; trivial.
  cbn [app]. rewrite last_cons_nonempty; trivial.
  now destruct l.
Qed.

(** The ids of two zero-based frames after concatenation and
    renumbering: those of the second are shifted by the number of tracks of
    the first, or by one less when the first has a single track, whose id 0
    the second frame starts with. *)
Lemma renumber_two_frames (ta tb : list Z) :
  climbs 0%Z ta -> climbs 0%Z tb ->
  renumber ((0 :: ta) ++ 0 :: tb)%Z
  = ((0 :: ta)
     ++ map (fun z => z + (last ta 0
                           + (if (0 =? last ta 0) then 0 else 1)))
            (0 :: tb))%Z.
Proof.
  intros Ha Hb. cbn [app]. rewrite renumber_cons. f_equal.
  pose proof (renumber_after_app ta (0 :: tb)%Z 0%Z 0%Z Ha) as Happ.
  change (0 + 1 + 0)%Z with 1%Z in Happ. rewrite Happ, map_add_zero.
  f_equal.
  cbn [renumber_after map]. set (la := last ta 0%Z).
  set (sh := (la + (if (0 =? la)%Z then 0 else 1))%Z).
  replace (la + 1 + 0 + (if (0 =? la)%Z then 0 else 1))%Z
    with (0 + 1 + sh)%Z by (unfold sh; lia).
  rewrite (renumber_after_climbs tb 0%Z sh Hb). f_equal. lia.
Qed.

(** X5. When two runs with tracks, both with zero-based ids as [extend]
    leaves them, are concatenated, the result has the tracks of both,
    except that a [self] of a single track loses it as a track of its own:
    its rows and those of the first track of [other] become one track. *)
Theorem extend_track_count
  (self other new : TrackRun) (adapt_conf : bool) :
  extend other adapt_conf self = (Ok tt, new) ->
  contiguous_from_zero (map track_idx (data self)) ->
  contiguous_from_zero (map track_idx (data other)) ->
  data self <> [] -> data other <> [] ->
  List.length (gb (data new))
  = (List.length (gb (data self)) + List.length (gb (data other))
     - (if (List.length (gb (data self)) =? 1)%nat then 1 else 0))%nat.
Proof.
  intros H Ca Cb Hna Hnb.
  apply extend_cases in H as [(e & He & _)|[_ Hd]]; [discriminate|].
  destruct (map track_idx (data self)) as [|xa ta] eqn:Ea;
    [apply map_eq_nil in Ea; contradiction|].
  destruct (map track_idx (data other)) as [|xb tb] eqn:Eb;
    [apply map_eq_nil in Eb; contradiction|].
  pose proof (contiguous_count _ _ _ Ea Ca) as Na.
  pose proof (contiguous_count _ _ _ Eb Cb) as Nb.
  destruct Ca as [-> Ca]. destruct Cb as [-> Cb].
  assert (map track_idx (data new)
          = (0 :: (ta ++ map (fun z => z + (last ta 0
                                   + (if (0 =? last ta 0) then 0 else 1)))
                              (0 :: tb)))%Z) as En.
  { rewrite Hd, reindex_ids, map_app, Ea, Eb.
    now rewrite (renumber_two_frames ta tb Ca Cb). }
  assert (contiguous_from_zero (map track_idx (data new))) as Cn.
  { rewrite Hd, reindex_ids. apply renumber_contiguous. }
  rewrite En in Cn. pose proof (contiguous_count _ _ _ En Cn) as Nn.
  set (la := last ta 0%Z) in *.
  set (sh := (la + (if (0 =? la)%Z then 0 else 1))%Z) in *.
  assert (last (ta ++ map (fun z => (z + sh)%Z) (0 :: tb)%Z) 0%Z
          = (last tb 0 + sh)%Z) as Hl.
  { cbn [map]. rewrite last_app_cons, last_cons_default.
    apply last_map_shift. }
  rewrite Hl in Nn.
  pose proof (climbs_last_ge ta 0%Z Ca) as Hge. fold la in Hge.
  destruct (Nat.eqb_spec (List.length (gb (data self))) 1) as [E1|E1];
    unfold sh in Nn; destruct (Z.eqb_spec 0 la); lia.
Qed.

Lemma extend_track_count_witness :
  List.length (gb (data (snd (extend run_b true run_c))))
  = (List.length (gb (data run_c)) + List.length (gb (data run_b))
     - (if (List.length (gb (data run_c)) =? 1)%nat then 1 else 0))%nat.
Proof.
  apply (extend_track_count run_c run_b _ true).
  - vm_compute. reflexivity.
  - simpl. auto.
  - simpl. auto.
  - discriminate.
  - discriminate.
Defined.

(* ================================================================= *)
(** ** What the three methods of [match_tracks] never do *)

Lemma other_groups_keys_nodup (others : others_arg) (s : subset_arg)
  (other_gb : list group) :
  other_groups others s = Ok other_gb -> NoDup (map fst other_gb).
Proof.
  destruct others as [dfs|tr|n]; simpl.
  - intro H. injection H as <-. apply gb_keys_nodup.
  - destruct (getitem tr s); simpl; [|discriminate].
    intro H. injection H as <-. apply gb_keys_nodup.
  - discriminate.
Qed.

Section MatchingInvariants.

Variable great_circle : Q -> Q -> Q -> Q -> Q -> Q.
Variable distance_metric :
  list Q -> list Q -> list Z -> list Q -> list Q -> list Z ->
  Q -> Q -> option Q.
Variables HOUR KM2M FILLVAL : Q.
Variable args : MatchArgs.

Local Abbreviation scan_others' := (scan_others great_circle HOUR KM2M args).
Local Abbreviation match_intersection' :=
  (match_intersection great_circle HOUR KM2M args).
Local Abbreviation appended' :=
  (appended great_circle HOUR KM2M FILLVAL args).
Local Abbreviation match_tracks' :=
  (match_tracks great_circle distance_metric HOUR KM2M FILLVAL args).

Lemma scan_others_at_most_one (idx : Z) (ot : list Row)
  (other_gb : list group) :
  scan_others' idx ot other_gb [] = []
  \/ exists other_idx,
      In other_idx (map fst other_gb)
      /\ scan_others' idx ot other_gb [] = [(idx, other_idx)].
Proof.
  induction other_gb as [|[oidx oot] rest IH]; simpl; [now left|].
  destruct (qualifies great_circle HOUR KM2M args ot oot).
  - right. exists oidx. auto.
  - destruct IH as [IH|(o & Ho & IH)]; [now left|]. right. eauto.
Qed.

Lemma intersection_self_ids (sub_gb other_gb : list group) :
  NoDup (map fst sub_gb) ->
  NoDup (map fst (match_intersection' sub_gb other_gb))
  /\ forall i j,
      In (i, j) (match_intersection' sub_gb other_gb) ->
      In i (map fst sub_gb) /\ In j (map fst other_gb).
Proof.
  rewrite match_intersection_flat_map.
  induction sub_gb as [|[idx ot] sub_gb IH]; intro Hnd; simpl.
  - split; [constructor | intros i j []].
  - inversion Hnd as [|? ? Hnotin Hnd']; subst.
    destruct (IH Hnd') as [IHn IHi].
    destruct (scan_others_at_most_one idx ot other_gb)
      as [->|(o & Ho & ->)]; simpl.
    + split; trivial. intros i j Hin. apply IHi in Hin. tauto.
    + split.
      * constructor; trivial. intro Hin.
        apply in_map_iff in Hin as ([i j] & Heq & Hin). simpl in Heq.
        subst i. apply IHi in Hin. tauto.
      * intros i j [Heq|Hin].
        -- injection Heq as <- <-. auto.
        -- apply IHi in Hin. tauto.
Qed.

(** X7. Under method="intersection" no self track is in two pairs, and
    every pair is made of the id of a selected self track and of the id of a
    track of [others]. *)
Theorem intersection_pairs_each_self_track_once
  (self : TrackRun) (others : others_arg) (subset s : subset_arg)
  (sub_df : OctantTrack) (other_gb : list group) :
  method args = "intersection"%string ->
  resolved self subset = Some s ->
  getitem self s = Ok sub_df ->
  other_groups others s = Ok other_gb ->
  exists pairs,
    match_tracks' self others subset = Some (Ok (MPairs pairs))
    /\ NoDup (map fst pairs)
    /\ forall i j,
        In (i, j) pairs ->
        In i (map fst (gb sub_df)) /\ In j (map fst other_gb).
Proof.
  intros Hm Hs Hg Ho.
  exists (match_intersection' (gb sub_df) other_gb). split.
  - eapply match_tracks_intersection; eassumption.
  - apply intersection_self_ids, gb_keys_nodup.
Qed.

Lemma final_pair_at_most_one (other_idx : Z) (cs : list (Z * nat)) :
  final_pair other_idx cs = []
  \/ exists c, In c cs /\ final_pair other_idx cs = [(fst c, other_idx)].
Proof.
  destruct cs as [|c cs]; [now left|]. right.
  unfold final_pair.
  exists (last (sorted_candidates (c :: cs)) c). split; trivial.
  destruct (last_sorted_wins (c :: cs) c ltac:(discriminate))
    as (pre & post & Heq & _).
  rewrite Heq at 2. apply in_or_app. right. now left.
Qed.

Lemma appended_ids (sub_gb : list group) (other_ct : list Row)
  (c : Z * nat) :
  In c (appended' sub_gb other_ct) -> In (fst c) (map fst sub_gb).
Proof.
  unfold appended. intro H.
  apply in_flat_map in H as ([idx ct] & Hg & Hc). simpl in Hc.
  destruct (appends _ _ _ _ _ ct other_ct); [|destruct Hc].
  destruct Hc as [<-|[]]. simpl. now apply (in_map fst) in Hg.
Qed.

Lemma simple_other_ids (sub_gb other_gb : list group) :
  NoDup (map fst other_gb) ->
  let pairs :=
    List.concat
      (map (fun og =>
              final_pair (fst og) (appended' sub_gb (snd og)))
           other_gb) in
  NoDup (map snd pairs)
  /\ forall i j,
      In (i, j) pairs -> In i (map fst sub_gb) /\ In j (map fst other_gb).
Proof.
  induction other_gb as [|[oidx oct] other_gb IH]; intro Hnd; simpl.
  - split; [constructor | intros i j []].
  - inversion Hnd as [|? ? Hnotin Hnd']; subst.
    destruct (IH Hnd') as [IHn IHi].
    destruct (final_pair_at_most_one oidx (appended' sub_gb oct))
      as [->|(c & Hc & ->)]; simpl.
    + split; trivial. intros i j Hin. apply IHi in Hin. tauto.
    + split.
      * constructor; trivial. intro Hin.
        apply in_map_iff in Hin as ([i j] & Heq & Hin). simpl in Heq.
        subst j. apply IHi in Hin. tauto.
      * intros i j [Heq|Hin].
        -- injection Heq as <- <-. split; [|auto].
           now apply appended_ids in Hc.
        -- apply IHi in Hin. tauto.
Qed.

(** X8. Under method="simple" no track of [others] is in two pairs, and
    every pair is made of the id of a selected self track and of the id of a
    track of [others]. *)
Theorem simple_pairs_each_other_track_once
  (self : TrackRun) (others : others_arg) (subset s : subset_arg)
  (sub_df : OctantTrack) (other_gb : list group) :
  interpolate_to args = "other"%string \/ interpolate_to args = "self"%string ->
  method args = "simple"%string ->
  resolved self subset = Some s ->
  getitem self s = Ok sub_df ->
  other_groups others s = Ok other_gb ->
  exists pairs,
    match_tracks' self others subset = Some (Ok (MPairs pairs))
    /\ NoDup (map snd pairs)
    /\ forall i j,
        In (i, j) pairs ->
        In i (map fst (gb sub_df)) /\ In j (map fst other_gb).
Proof.
  intros Hd Hm Hs Hg Ho.
  eexists. split.
  - eapply match_tracks_simple; eassumption.
  - apply simple_other_ids. eapply other_groups_keys_nodup; eassumption.
Qed.

End MatchingInvariants.

Lemma intersection_pairs_each_self_track_once_witness :
  exists pairs,
    sample_match_tracks (with_method "intersection" default_args)
                        run_a (OthersList [other_track]) SubNone
    = Some (Ok (MPairs pairs))
    /\ NoDup (map fst pairs)
    /\ forall i j,
        In (i, j) pairs ->
        In i (map fst (gb (data run_a)))
        /\ In j (map fst (gb (concat_keyed 0 [other_track]))).
Proof.
  exact (intersection_pairs_each_self_track_once
           sample_great_circle sample_distance_metric
           sample_HOUR sample_KM2M sample_FILLVAL
           (with_method "intersection" default_args)
           run_a (OthersList [other_track]) SubNone (SubStr "all")
           (data run_a) (gb (concat_keyed 0 [other_track]))
           eq_refl eq_refl eq_refl eq_refl).
Defined.

Lemma simple_pairs_each_other_track_once_witness :
  exists pairs,
    sample_match_tracks default_args run_a (OthersList [other_track]) SubNone
    = Some (Ok (MPairs pairs))
    /\ NoDup (map snd pairs)
    /\ forall i j,
        In (i, j) pairs ->
        In i (map fst (gb (data run_a)))
        /\ In j (map fst (gb (concat_keyed 0 [other_track]))).
Proof.
  exact (simple_pairs_each_other_track_once
           sample_great_circle sample_distance_metric
           sample_HOUR sample_KM2M sample_FILLVAL default_args
           run_a (OthersList [other_track]) SubNone (SubStr "all")
           (data run_a) (gb (concat_keyed 0 [other_track]))
           (or_introl eq_refl) eq_refl eq_refl eq_refl eq_refl).
Defined.

Lemma mapM_raises {A B : Type} (f : A -> result B) (l : list A) (a : A)
  (e : exn) :
  In a l -> f a = Raise e -> exists e', mapM f l = Raise e'.
Proof.
  induction l as [|x l IH]; intros Hin Hf; [destruct Hin|]. simpl.
  destruct (f x) as [b|e'] eqn:Ex; simpl; [|eauto].
  destruct Hin as [->|Hin]; [congruence|].
  destruct (IH Hin Hf) as [e' ->]. simpl. eauto.
Qed.

Lemma mapM_raised {A B : Type} (f : A -> result B) (l : list A) (e : exn) :
  mapM f l = Raise e -> exists a, In a l /\ f a = Raise e.
Proof.
  induction l as [|x l IH]; simpl; [discriminate|].
  destruct (f x) as [b|e'] eqn:Ex; simpl.
  - destruct (mapM f l) as [bs|e'']; simpl; [discriminate|].
    intro H. injection H as ->. destruct (IH eq_refl) as (a & Ha & Hf).
    eauto.
  - intro H. injection H as ->. eauto.
Qed.

Lemma nanargmin_raises (l : list (option Q)) (e : exn) :
  nanargmin l = Raise e -> e = ValueError.
Proof.
  unfold nanargmin. destruct (nanargmin_from 0 None l) as [[i v]|];
    [discriminate|]. intro H. now injection H as <-.
Qed.

Lemma nanargmin_all_nan (l : list (option Q)) :
  (forall x, In x l -> x = None) -> nanargmin l = Raise ValueError.
Proof.
  intro H. destruct (nanargmin l) as [i|e] eqn:E.
  - apply nanargmin_minimizer in E as (v & Hv & _).
    apply nth_error_In, H in Hv. discriminate.
  - now apply nanargmin_raises in E as ->.
Qed.

Section MatchingEdges.

Variable great_circle : Q -> Q -> Q -> Q -> Q -> Q.
Variable distance_metric :
  list Q -> list Q -> list Z -> list Q -> list Q -> list Z ->
  Q -> Q -> option Q.
Variables HOUR KM2M FILLVAL : Q.
Variable args : MatchArgs.

Local Abbreviation match_bs2000' := (match_bs2000 distance_metric args).
Local Abbreviation dist_matrix_of' := (dist_matrix_of distance_metric args).
Local Abbreviation match_simple' :=
  (match_simple great_circle HOUR KM2M FILLVAL args).
Local Abbreviation match_tracks' :=
  (match_tracks great_circle distance_metric HOUR KM2M FILLVAL args).
Local Abbreviation match_selected' :=
  (match_selected great_circle distance_metric HOUR KM2M FILLVAL args).

(** The pairs of method="bs2000" link every self track to at most one other
    track, and every other track to at most one self track. *)
Lemma match_bs2000_one_to_one (sub_gb other_gb : list group)
  (pairs : list (Z * Z)) (m : list (list (option Q))) :
  NoDup (map fst sub_gb) -> NoDup (map fst other_gb) ->
  match_bs2000' sub_gb other_gb = Ok (pairs, m) ->
  (forall i j j', In (i, j) pairs -> In (i, j') pairs -> j = j')
  /\ (forall i i' j, In (i, j) pairs -> In (i', j) pairs -> i = i')
  /\ (forall i j, In (i, j) pairs ->
                  In i (map fst sub_gb) /\ In j (map fst other_gb)).
Proof.
  intros Hs Ho H. apply match_bs2000_pairs in H as [_ Hiff].
  split; [|split].
  - intros i j j' H1 H2.
    apply Hiff in H1 as (r & c & Hr & Hc & (row & Hrow & Hm) & _).
    apply Hiff in H2 as (r' & c' & Hr' & Hc' & (row' & Hrow' & Hm') & _).
    assert (r = r') as <-.
    { apply (proj1 (NoDup_nth_error _) Hs); [|congruence].
      apply nth_error_Some. congruence. }
    assert (row = row') as <- by congruence.
    assert (c = c') as <- by (now apply (minimizer_unique row)).
    congruence.
  - intros i i' j H1 H2.
    apply Hiff in H1 as (r & c & Hr & Hc & _ & Hm).
    apply Hiff in H2 as (r' & c' & Hr' & Hc' & _ & Hm').
    assert (c = c') as <-.
    { apply (proj1 (NoDup_nth_error _) Ho); [|congruence].
      apply nth_error_Some. congruence. }
    assert (r = r') as <- by (now apply (minimizer_unique (column c m))).
    congruence.
  - intros i j H1.
    apply Hiff in H1 as (r & c & Hr & Hc & _).
    split; eapply nth_error_In; eassumption.
Qed.

(** X9. Under method="bs2000" the pairs are a one-to-one matching: no self
    track and no track of [others] is in two pairs, and every pair is made
    of the id of a selected self track and of the id of a track of
    [others]. *)
Theorem bs2000_pairs_one_to_one
  (self : TrackRun) (others : others_arg) (subset s : subset_arg)
  (sub_df : OctantTrack) (other_gb : list group) (r : match_result) :
  method args = "bs2000"%string ->
  resolved self subset = Some s ->
  getitem self s = Ok sub_df ->
  other_groups others s = Ok other_gb ->
  match_tracks' self others subset = Some (Ok r) ->
  exists pairs,
    (r = MPairs pairs
     \/ r = MPairsDist pairs (dist_matrix_of' (gb sub_df) other_gb))
    /\ (forall i j j', In (i, j) pairs -> In (i, j') pairs -> j = j')
    /\ (forall i i' j, In (i, j) pairs -> In (i', j) pairs -> i = i')
    /\ (forall i j, In (i, j) pairs ->
                    In i (map fst (gb sub_df)) /\ In j (map fst other_gb)).
Proof.
  intros Hm Hs Hg Ho Hr.
  destruct (match_tracks_bs2000 great_circle distance_metric HOUR KM2M
              FILLVAL args self others subset s sub_df other_gb
              Hm Hs Hg Ho) as [[E _]|[_ E]]; rewrite E in Hr.
  - injection Hr as <-. exists []. split; [now left|].
    repeat split; intros; contradiction.
  - injection Hr as Hr.
    destruct (match_bs2000' (gb sub_df) other_gb) as [[pairs m]|e] eqn:Eb;
      simpl in Hr; [|discriminate].
    pose proof (proj1 (match_bs2000_pairs _ _ _ _ _ _ Eb)) as Em.
    exists pairs. split.
    + destruct (return_dist_matrix args); injection Hr as <-; subst m; auto.
    + eapply match_bs2000_one_to_one; [| |exact Eb].
      * apply gb_keys_nodup.
      * eapply other_groups_keys_nodup; eassumption.
Qed.

Lemma match_bs2000_nan_row (sub_gb other_gb : list group) (g : group) :
  other_gb <> [] ->
  In g sub_gb ->
  (forall og, In og other_gb ->
              distance_metric (lons (snd g)) (lats (snd g)) (times (snd g))
                              (lons (snd og)) (lats (snd og))
                              (times (snd og)) (beta args) (r_planet args)
              = None) ->
  match_bs2000' sub_gb other_gb = Raise ValueError.
Proof.
  intros Hne Hg Hnan. unfold match_bs2000.
  set (m := dist_matrix_of' sub_gb other_gb).
  assert (exists e, nanargmin_axis1 m = Raise e) as [e1 He1].
  { apply (mapM_raises nanargmin m
             (map (fun og =>
                     distance_metric
                       (lons (snd g)) (lats (snd g)) (times (snd g))
                       (lons (snd og)) (lats (snd og)) (times (snd og))
                       (beta args) (r_planet args)) other_gb) ValueError).
    - unfold m, dist_matrix_of. apply in_map_iff. exists g. auto.
    - apply nanargmin_all_nan. intros x Hx.
      apply in_map_iff in Hx as (og & <- & Hog). now apply Hnan. }
  assert (e1 = ValueError) as ->.
  { apply mapM_raised in He1 as (row & _ & Hrow).
    now apply nanargmin_raises in Hrow. }
  destruct (nanargmin_axis0 (List.length other_gb) m) as [cols|e0] eqn:E0;
    simpl.
  - assert (List.length cols = List.length other_gb) as Hlen.
    { apply mapM_length in E0. now rewrite length_seq in E0. }
    destruct cols as [|c cols].
    + destruct other_gb; [congruence | discriminate].
    + unfold enumerate. simpl. now rewrite He1.
  - apply mapM_raised in E0 as (j & _ & Hj).
    now apply nanargmin_raises in Hj as ->.
Qed.

(** X10. Under method="bs2000", when the distance of some selected self
    track to every track of [others] is NaN, the call raises a ValueError
    (the all-NaN slice of [np.nanargmin]). *)
Theorem bs2000_nan_row_raises
  (self : TrackRun) (others : others_arg) (subset s : subset_arg)
  (sub_df : OctantTrack) (other_gb : list group) (n : nat) (g : group) :
  method args = "bs2000"%string ->
  resolved self subset = Some s ->
  getitem self s = Ok sub_df ->
  len_others others = Ok (S n) ->
  other_groups others s = Ok other_gb ->
  other_gb <> [] ->
  In g (gb sub_df) ->
  (forall og, In og other_gb ->
              distance_metric (lons (snd g)) (lats (snd g)) (times (snd g))
                              (lons (snd og)) (lats (snd og))
                              (times (snd og)) (beta args) (r_planet args)
              = None) ->
  match_tracks' self others subset = Some (Raise ValueError).
Proof.
  intros Hm Hs Hg Hn Ho Hne Hin Hnan.
  rewrite (match_tracks_resolved _ _ _ _ _ _ _ _ _ _ Hs).
  unfold match_selected. rewrite Hg. simpl.
  destruct (List.length (gb sub_df) =? 0)%nat eqn:E.
  { apply Nat.eqb_eq, length_zero_iff_nil in E. rewrite E in Hin.
    destruct Hin. }
  rewrite Hn. simpl. rewrite Ho. simpl. unfold run_method. rewrite Hm.
  simpl. now rewrite (match_bs2000_nan_row _ _ g Hne Hin Hnan).
Qed.

(** X11. Under method="simple", an [interpolate_to] that is neither "other"
    nor "self" makes the call fail on the unbound name of the first pair of
    tracks, with a NameError and not with an argument error. *)
Theorem simple_unknown_direction_raises
  (self : TrackRun) (others : others_arg) (subset s : subset_arg)
  (sub_df : OctantTrack) (other_gb : list group) (n : nat) :
  method args = "simple"%string ->
  interpolate_to args <> "other"%string ->
  interpolate_to args <> "self"%string ->
  resolved self subset = Some s ->
  getitem self s = Ok sub_df ->
  gb sub_df <> [] ->
  len_others others = Ok (S n) ->
  other_groups others s = Ok other_gb ->
  other_gb <> [] ->
  match_tracks' self others subset = Some (Raise NameError).
Proof.
  intros Hm Hio His Hs Hg Hne Hn Ho Hone.
  rewrite (match_tracks_resolved _ _ _ _ _ _ _ _ _ _ Hs).
  unfold match_selected. rewrite Hg. simpl.
  destruct (List.length (gb sub_df) =? 0)%nat eqn:E.
  { apply Nat.eqb_eq, length_zero_iff_nil in E. contradiction. }
  rewrite Hn. simpl. rewrite Ho. simpl. unfold run_method. rewrite Hm.
  simpl. destruct other_gb as [|[oidx oct] other_gb]; [congruence|].
  destruct (gb sub_df) as [|[idx ct] sub_gb]; [congruence|].
  unfold match_simple. simpl. unfold candidate, orient.
  apply String.eqb_neq in Hio, His. now rewrite Hio, His.
Qed.

End MatchingEdges.

Lemma bs2000_pairs_one_to_one_witness :
  exists pairs,
    (MPairs [(3, 0)%Z] = MPairs pairs
     \/ MPairs [(3, 0)%Z]
        = MPairsDist pairs
            (dist_matrix_of sample_distance_metric
               (with_method "bs2000" default_args)
               (gb (data run_a)) (gb (concat_keyed 0 [other_track]))))
    /\ (forall i j j', In (i, j) pairs -> In (i, j') pairs -> j = j')
    /\ (forall i i' j, In (i, j) pairs -> In (i', j) pairs -> i = i')
    /\ (forall i j, In (i, j) pairs ->
                    In i (map fst (gb (data run_a)))
                    /\ In j (map fst (gb (concat_keyed 0 [other_track])))).
Proof.
  apply (bs2000_pairs_one_to_one
           sample_great_circle sample_distance_metric
           sample_HOUR sample_KM2M sample_FILLVAL
           (with_method "bs2000" default_args)
           run_a (OthersList [other_track]) SubNone (SubStr "all")
           (data run_a) (gb (concat_keyed 0 [other_track]))
           (MPairs [(3, 0)%Z])
           eq_refl eq_refl eq_refl eq_refl).
  vm_compute. reflexivity.
Defined.

Lemma bs2000_nan_row_raises_witness :
  match_tracks sample_great_circle nan_distance_metric
               sample_HOUR sample_KM2M sample_FILLVAL
               (with_method "bs2000" default_args)
               run_a (OthersList [other_track]) SubNone
  = Some (Raise ValueError).
Proof.
  apply (bs2000_nan_row_raises
           sample_great_circle nan_distance_metric
           sample_HOUR sample_KM2M sample_FILLVAL
           (with_method "bs2000" default_args)
           run_a (OthersList [other_track]) SubNone (SubStr "all")
           (data run_a) (gb (concat_keyed 0 [other_track])) 0%nat
           (3%Z, rows_of 3%Z (data run_a))
           eq_refl eq_refl eq_refl eq_refl eq_refl).
  - discriminate.
  - left. reflexivity.
  - intros og _. reflexivity.
Defined.

Lemma simple_unknown_direction_raises_witness :
  sample_match_tracks sideways_args run_a (OthersList [other_track]) SubNone
  = Some (Raise NameError).
Proof.
  apply (simple_unknown_direction_raises
           sample_great_circle sample_distance_metric
           sample_HOUR sample_KM2M sample_FILLVAL sideways_args
           run_a (OthersList [other_track]) SubNone (SubStr "all")
           (data run_a) (gb (concat_keyed 0 [other_track])) 0%nat
           eq_refl).
  - discriminate.
  - discriminate.
  - reflexivity.
  - reflexivity.
  - discriminate.
  - reflexivity.
  - reflexivity.
  - discriminate.
Defined.

(* ================================================================= *)
(** ** [TrackRun.density]: what the choice of the method decides *)

Section DensityEdges.

Variables cell_bounds cell_centres : list Q -> list Q.
Variable grid_cell_areas : list Q -> list Q -> Q -> matrix.
Variables point_density_cell track_density_cell
  : matrix -> matrix -> matrix -> matrix.
Variables point_density_rad track_density_rad
  : Q -> Q -> matrix -> matrix -> matrix -> matrix.
Variables lonlat_c tridlonlat_c : OctantTrack -> matrix.
Variables genesis_points lysis_points
  : Z * Z -> OctantTrack -> result matrix.
Variable KM2M : Q.
Variable dargs : DensityArgs.

Local Abbreviation density' :=
  (density cell_bounds cell_centres grid_cell_areas
           point_density_cell track_density_cell
           point_density_rad track_density_rad lonlat_c tridlonlat_c
           genesis_points lysis_points KM2M dargs).
Local Abbreviation density_selected' :=
  (density_selected cell_bounds cell_centres grid_cell_areas
                    point_density_cell track_density_cell
                    point_density_rad track_density_rad lonlat_c
                    tridlonlat_c genesis_points lysis_points KM2M dargs).
Local Abbreviation select_points' :=
  (select_points lonlat_c tridlonlat_c genesis_points lysis_points dargs).

(** X12. With a [method] that is neither "radius" nor "cell", a call whose
    selection and whose points are fine fails on the unbound [cy_func] with
    a NameError: such a method is not rejected as an argument. *)
Theorem density_unknown_method_raises
  (self : TrackRun) (subset s : subset_arg) (sub_df : OctantTrack)
  (pts : matrix) :
  dmethod dargs <> "radius"%string ->
  dmethod dargs <> "cell"%string ->
  resolved self subset = Some s ->
  getitem self s = Ok sub_df ->
  select_points' sub_df = Ok pts ->
  density' self subset = Some (Raise NameError).
Proof.
  intros Hr Hc Hs Hg Hp.
  rewrite (density_resolved _ _ _ _ _ _ _ _ _ _ _ _ _ _ _ _ Hs).
  unfold density_selected. destruct (meshgrid _ _) as [lon2d lat2d].
  rewrite Hg. cbn [rbind]. unfold select_method.
  apply String.eqb_neq in Hr, Hc. rewrite Hr, Hc. cbn [rbind].
  now rewrite Hp.
Qed.

(** X13. With method="radius" the grid is not checked: whatever the
    longitudes and latitudes are, a call fails only where the selection or
    the choice of the points fails, with their exception, and it never
    raises a GridError of its own. Otherwise it returns one field, in units
    of km-2 when weighted by area and per disc of radius [dist] when
    not. *)
Theorem density_radius_skips_grid_check
  (self : TrackRun) (subset s : subset_arg) :
  dmethod dargs = "radius"%string ->
  resolved self subset = Some s ->
  match getitem self s with
  | Raise e => density' self subset = Some (Raise e)
  | Ok sub_df =>
      match select_points' sub_df with
      | Raise e => density' self subset = Some (Raise e)
      | Ok pts =>
          exists a,
            density' self subset = Some (Ok (DField a))
            /\ da_units a = (if weight_by_area dargs then UnitsKm2
                             else UnitsPerDisc (dist dargs))
            /\ da_subset a = s
      end
  end.
Proof.
  intros Hm Hs.
  rewrite (density_resolved _ _ _ _ _ _ _ _ _ _ _ _ _ _ _ _ Hs).
  unfold density_selected. destruct (meshgrid _ _) as [lon2d lat2d].
  destruct (getitem self s) as [sub_df|e]; [|reflexivity].
  cbn [rbind]. unfold select_method. rewrite Hm. cbn [String.eqb rbind].
  change (String.eqb "radius" "radius") with true. cbv iota.
  destruct (select_points' sub_df) as [pts|e]; [|reflexivity].
  cbn [rbind rmap]. eexists. split; [reflexivity|]. split; reflexivity.
Qed.

End DensityEdges.

Lemma density_unknown_method_raises_witness :
  sample_density (with_dmethod "kernel" default_dargs) run_a SubNone
  = Some (Raise NameError).
Proof.
  apply (density_unknown_method_raises
           sample_cell_bounds sample_cell_centres sample_areas
           zero_kernel zero_kernel (fun _ _ => zero_kernel)
           (fun _ _ => zero_kernel) sample_lonlat sample_tridlonlat
           sample_first_last sample_first_last sample_KM2M
           (with_dmethod "kernel" default_dargs)
           run_a SubNone (SubStr "all") (data run_a)
           (sample_lonlat (data run_a))).
  - discriminate.
  - discriminate.
  - reflexivity.
  - reflexivity.
  - reflexivity.
Defined.

Lemma density_radius_skips_grid_check_witness :
  exists a,
    sample_density descending_radius_dargs run_a SubNone
    = Some (Ok (DField a))
    /\ da_units a = UnitsPerDisc 222
    /\ da_subset a = SubStr "all".
Proof.
  exact (density_radius_skips_grid_check
           sample_cell_bounds sample_cell_centres sample_areas
           zero_kernel zero_kernel (fun _ _ => zero_kernel)
           (fun _ _ => zero_kernel) sample_lonlat sample_tridlonlat
           sample_first_last sample_first_last sample_KM2M
           descending_radius_dargs
           run_a SubNone (SubStr "all") eq_refl eq_refl).
Defined.

(* ================================================================= *)
(** ** [TrackRun.clear_categories] and [TrackRun.rename_cats] *)

Lemma cell_no_flags (cols : list string) (l : string) :
  cell cols [] l = false.
Proof.
  unfold cell. destruct (index_of l cols) as [[|i]|]; reflexivity.
Qed.

Lemma cell_cons_eq (c : string) (cols : list string) (f : bool)
  (flags : list bool) (l : string) :
  String.eqb l c = true -> cell (c :: cols) (f :: flags) l = f.
Proof. intro H. unfold cell. simpl. now rewrite H. Qed.

Lemma cell_cons_ne (c : string) (cols : list string) (f : bool)
  (flags : list bool) (l : string) :
  String.eqb l c = false ->
  cell (c :: cols) (f :: flags) l = cell cols flags l.
Proof.
  intro H. unfold cell. simpl. rewrite H.
  destruct (index_of l cols); reflexivity.
Qed.

Lemma cell_keep_flags (keep : string -> bool) (cols : list string)
  (flags : list bool) (l : string) :
  keep l = true ->
  cell (filter keep cols) (keep_flags keep cols flags) l = cell cols flags l.
Proof.
  intro Hl. revert flags.
  induction cols as [|c cols IH]; intros flags.
  - now rewrite cell_no_flags; destruct flags.
  - destruct flags as [|f flags]; [now rewrite !cell_no_flags|].
    simpl. destruct (String.eqb l c) eqn:E.
    + apply String.eqb_eq in E as <-. rewrite Hl.
      now rewrite !cell_cons_eq by apply String.eqb_refl.
    + rewrite (cell_cons_ne _ _ _ _ _ E).
      destruct (keep c); [rewrite (cell_cons_ne _ _ _ _ _ E)|]; apply IH.
Qed.

Lemma has_column_drop (dropped : string -> bool) (c : CatTable)
  (l : string) :
  dropped l = false ->
  has_column l (drop_columns dropped c) = has_column l c.
Proof.
  intro Hl. unfold has_column, drop_columns. cbn [cat_columns].
  induction (cat_columns c) as [|h t IH]; trivial. simpl.
  destruct (String.eqb l h) eqn:E.
  - apply String.eqb_eq in E as <-. rewrite Hl. simpl.
    now rewrite String.eqb_refl.
  - destruct (negb (dropped h)); simpl; now rewrite ?E.
Qed.

Lemma cat_column_drop (dropped : string -> bool) (c : CatTable)
  (l : string) :
  dropped l = false ->
  cat_column l (drop_columns dropped c) = cat_column l c.
Proof.
  intro Hl. unfold cat_column, drop_columns. cbn [cat_columns cat_rows].
  rewrite map_map. apply map_ext. intro r. cbn [snd].
  apply cell_keep_flags. now rewrite Hl.
Qed.

Lemma select_loop_drop (dropped : string -> bool) (c : CatTable)
  (labels : list string) (selected : option (list bool)) :
  (forall l, In l labels -> dropped l = false) ->
  select_loop (drop_columns dropped c) selected labels
  = select_loop c selected labels.
Proof.
  revert selected. induction labels as [|l labels IH]; intros selected Hk;
    trivial.
  cbn [select_loop]. rewrite has_column_drop by (apply Hk; now left).
  rewrite cat_column_drop by (apply Hk; now left).
  destruct (negb (has_column l c)); trivial.
  apply IH. intros; apply Hk; now right.
Qed.

Lemma masked_index_ids (rows rows' : list (Z * list bool))
  (mask : list bool) :
  map fst rows = map fst rows' ->
  masked_index rows mask = masked_index rows' mask.
Proof.
  revert rows' mask. induction rows as [|r rows IH];
    intros [|r' rows'] mask H; try discriminate; trivial.
  injection H as H1 H2. destruct mask as [|[|] mask]; simpl; trivial.
  - rewrite H1. f_equal. now apply IH.
  - now apply IH.
Qed.

Lemma drop_columns_ids (dropped : string -> bool) (c : CatTable) :
  map fst (cat_rows (drop_columns dropped c)) = map fst (cat_rows c).
Proof.
  unfold drop_columns. cbn [cat_rows]. rewrite map_map. now apply map_ext.
Qed.

(** The run after the columns of [dropped] were cleared from [c]. *)
Lemma clear_categories_cases (subset : option string)
  (inclusive : option bool) (self : TrackRun) :
  let inc := match inclusive with
             | Some b => b
             | None => is_cat_inclusive self
             end in
  let after := fun dropped c =>
    let c' := drop_columns dropped c in
    if (List.length (cat_columns c') =? 0)%nat then
      {| data := data self; cats := Some c'; is_categorised := false;
         is_cat_inclusive := false; tstep_h := tstep_h self;
         conf := conf self; sources := sources self |}
    else set_cats (Some c') self in
  clear_categories subset inclusive self
  = match subset with
    | None => (Ok tt, without_cats self false)
    | Some label =>
        match cats self with
        | None => (Raise AttributeError, self)
        | Some c =>
            if inc then (Ok tt, after (contains label) c)
            else if has_column label c then
                   (Ok tt, after (String.eqb label) c)
                 else (Raise KeyError, self)
        end
    end.
Proof.
  intros inc after. unfold clear_categories, bind, get. subst inc.
  destruct subset as [label|]; [|reflexivity].
  destruct (cats self) as [c|] eqn:Ec; [|reflexivity].
  assert (forall dropped,
             (let (r, s') := modify (set_cats (Some (drop_columns dropped c)))
                                    self in
              match r with
              | Ok _ =>
                  when (List.length (cat_labels s') =? 0)%nat
                       (fun s => match modify (set_is_categorised false) s with
                                 | (Ok _, s'') =>
                                     modify (set_is_cat_inclusive false) s''
                                 | (Raise e, s'') => (Raise e, s'')
                                 end) s'
              | Raise e => (Raise e, s')
              end) = (Ok tt, after dropped c)) as Hdrop.
  { intro dropped. subst after. unfold modify, cat_labels, when.
    cbn [cats set_cats].
    destruct (List.length (cat_columns (drop_columns dropped c)) =? 0)%nat;
      reflexivity. }
  destruct (match inclusive with Some b => b | None => is_cat_inclusive self
            end).
  - apply Hdrop.
  - destruct (has_column label c); [apply Hdrop | reflexivity].
Qed.

(** X14. [clear_categories] fails in two cases only, and then leaves the
    run as it was: with an AttributeError when a label is to be cleared from
    a run that has no frame of categories, and with a KeyError when the
    clearing is not inclusive and the label is not a category. An inclusive
    clearing of a label that matches no category is no error. *)
Theorem clear_categories_raises_iff (subset : option string)
  (inclusive : option bool) (self self' : TrackRun) (e : exn) :
  clear_categories subset inclusive self = (Raise e, self')
  <-> self' = self
      /\ exists label,
          subset = Some label
          /\ ((cats self = None /\ e = AttributeError)
              \/ (exists c,
                     cats self = Some c
                     /\ match inclusive with
                        | Some b => b
                        | None => is_cat_inclusive self
                        end = false
                     /\ has_column label c = false
                     /\ e = KeyError)).
Proof.
  rewrite clear_categories_cases.
  destruct subset as [label|].
  - destruct (cats self) as [c|] eqn:Ec.
    + destruct (match inclusive with Some b => b | None => _ end) eqn:Ei.
      * split; [discriminate|].
        intros (_ & l & _ & [[H _]|(c' & _ & H & _)]); discriminate.
      * destruct (has_column label c) eqn:Eh.
        -- split; [discriminate|].
           intros (_ & l & Hl & [[H _]|(c' & Hc & _ & H & _)]);
             [discriminate|]. congruence.
        -- split.
           ++ intro H. injection H as <- <-. split; trivial.
              exists label. split; trivial. right. exists c. auto.
           ++ intros (-> & l & _ & [[H _]|(c' & _ & _ & _ & ->)]);
                [discriminate | reflexivity].
    + split.
      * intro H. injection H as <- <-. split; trivial.
        exists label. split; trivial. now left.
      * intros (-> & l & _ & [[_ ->]|(c' & H & _)]);
          [reflexivity | discriminate].
  - split; [discriminate|]. intros (_ & l & H & _). discriminate.
Qed.

Lemma getitem_drop_columns (dropped : string -> bool) (c : CatTable)
  (self : TrackRun) (subset : subset_arg) :
  cats self = Some c ->
  (forall l, In l (subset_labels subset) -> dropped l = false) ->
  getitem (set_cats (Some (drop_columns dropped c)) self) subset
  = getitem self subset.
Proof.
  intros Hc Hk. unfold getitem, len. cbn [data set_cats is_categorised cats].
  rewrite Hc. rewrite (select_loop_drop _ _ _ _ Hk).
  destruct (selects_all subset || _); trivial.
  destruct (is_categorised self); trivial.
  destruct (select_loop c None (subset_labels subset)) as [[mask|]|e];
    trivial.
  cbn [rbind].
  now rewrite (masked_index_ids _ (cat_rows c)) by apply drop_columns_ids.
Qed.

(** X15. After a label was cleared, a selection by labels that are still
    categories gives what it gave before the clearing. *)
Theorem clear_categories_keeps_other_selections
  (label : string) (inclusive : option bool) (self self' : TrackRun)
  (subset : subset_arg) :
  clear_categories (Some label) inclusive self = (Ok tt, self') ->
  subset_labels subset <> [] ->
  (forall l, In l (subset_labels subset) -> In l (cat_labels self')) ->
  getitem self' subset = getitem self subset.
Proof.
  rewrite clear_categories_cases. intros H Hne Hin.
  destruct (cats self) as [c|] eqn:Ec; [|discriminate].
  assert (forall dropped,
             self' = (if (List.length
                            (cat_columns (drop_columns dropped c)) =? 0)%nat
                      then
                        {| data := data self;
                           cats := Some (drop_columns dropped c);
                           is_categorised := false;
                           is_cat_inclusive := false;
                           tstep_h := tstep_h self; conf := conf self;
                           sources := sources self |}
                      else set_cats (Some (drop_columns dropped c)) self) ->
             getitem self' subset = getitem self subset) as Hdrop.
  { intros dropped ->.
    assert (forall l, In l (subset_labels subset) ->
                      In l (filter (fun l => negb (dropped l))
                                   (cat_columns c))) as Hin'.
    { intros l Hl. specialize (Hin l Hl). revert Hin. unfold cat_labels.
      now destruct (List.length _ =? 0)%nat. }
    destruct (List.length (cat_columns (drop_columns dropped c)) =? 0)%nat
      eqn:E.
    - apply Nat.eqb_eq, length_zero_iff_nil in E.
      destruct (subset_labels subset) as [|l t]; [congruence|].
      specialize (Hin' l (or_introl eq_refl)).
      unfold drop_columns in E. cbn [cat_columns] in E. rewrite E in Hin'.
      destruct Hin'.
    - apply getitem_drop_columns; trivial.
      intros l Hl. apply Hin', filter_In in Hl as [_ Hl].
      now apply negb_true_iff in Hl. }
  destruct (match inclusive with Some b => b | None => _ end).
  - injection H as H. now apply (Hdrop (contains label)).
  - destruct (has_column label c); [|discriminate].
    injection H as H. now apply (Hdrop (String.eqb label)).
Qed.

Lemma clear_categories_keeps_other_selections_witness :
  getitem (snd (clear_categories (Some "long"%string) None run_a_cats))
          (SubStr "strong")
  = getitem run_a_cats (SubStr "strong").
Proof.
  apply (clear_categories_keeps_other_selections
           "long"%string None run_a_cats
           (snd (clear_categories (Some "long"%string) None run_a_cats))
           (SubStr "strong")).
  - reflexivity.
  - discriminate.
  - intros l [<-|[]]. left. reflexivity.
Defined.

(** X16. A clearing that succeeds keeps the tracks. The labels that
    remain are those that the clearing does not match: none when no label
    is given, those that do not contain the label when the clearing is
    inclusive, those other than the label when it is not. The two flags of
    the categorisation are kept while a label remains, and are False when
    none does. *)
Theorem clear_categories_labels (subset : option string)
  (inclusive : option bool) (self self' : TrackRun) :
  clear_categories subset inclusive self = (Ok tt, self') ->
  data self' = data self
  /\ cat_labels self'
     = match subset with
       | None => []
       | Some label =>
           filter (fun l =>
                     negb (if match inclusive with
                              | Some b => b
                              | None => is_cat_inclusive self
                              end
                           then contains label l else String.eqb label l))
                  (cat_labels self)
       end
  /\ (cat_labels self' = [] ->
      is_categorised self' = false /\ is_cat_inclusive self' = false)
  /\ (cat_labels self' <> [] ->
      is_categorised self' = is_categorised self
      /\ is_cat_inclusive self' = is_cat_inclusive self).
Proof.
  rewrite clear_categories_cases. intro H.
  destruct subset as [label|].
  - destruct (cats self) as [c|] eqn:Ec; [|discriminate].
    assert (forall dropped,
               self' = (if (List.length
                              (cat_columns (drop_columns dropped c)) =? 0)%nat
                        then
                          {| data := data self;
                             cats := Some (drop_columns dropped c);
                             is_categorised := false;
                             is_cat_inclusive := false;
                             tstep_h := tstep_h self; conf := conf self;
                             sources := sources self |}
                        else set_cats (Some (drop_columns dropped c)) self) ->
               data self' = data self
               /\ cat_labels self'
                  = filter (fun l => negb (dropped l)) (cat_labels self)
               /\ (cat_labels self' = [] ->
                   is_categorised self' = false
                   /\ is_cat_inclusive self' = false)
               /\ (cat_labels self' <> [] ->
                   is_categorised self' = is_categorised self
                   /\ is_cat_inclusive self' = is_cat_inclusive self))
      as Hdrop.
    { intros dropped ->. unfold cat_labels at 2. rewrite Ec.
      destruct (List.length (cat_columns (drop_columns dropped c)) =? 0)%nat
        eqn:E; unfold cat_labels; cbn [data cats set_cats is_categorised
                                       is_cat_inclusive drop_columns
                                       cat_columns].
      - apply Nat.eqb_eq, length_zero_iff_nil in E.
        unfold drop_columns in E. cbn [cat_columns] in E.
        split; [reflexivity|]. split; [reflexivity|].
        split; [now split|]. intro Hne. now rewrite E in Hne.
      - apply Nat.eqb_neq in E.
        unfold drop_columns in E. cbn [cat_columns] in E.
        split; [reflexivity|]. split; [reflexivity|].
        split; [|now split]. intro H0. now rewrite H0 in E. }
    destruct (match inclusive with Some b => b | None => _ end).
    + injection H as H. now apply (Hdrop (contains label)).
    + destruct (has_column label c); [|discriminate].
      injection H as H. now apply (Hdrop (String.eqb label)).
  - injection H as <-. unfold cat_labels, without_cats. simpl.
    split; [reflexivity|]. split; [reflexivity|].
    split; [now split|]. intro H. now destruct H.
Qed.

Lemma clear_categories_labels_witness :
  cat_labels (snd (clear_categories (Some "on"%string) (Some true)
                                    run_a_cats)) = []
  /\ is_categorised (snd (clear_categories (Some "on"%string) (Some true)
                                           run_a_cats)) = false.
Proof.
  destruct (clear_categories_labels
              (Some "on"%string) (Some true) run_a_cats
              (snd (clear_categories (Some "on"%string) (Some true)
                                     run_a_cats))
              eq_refl) as (_ & Hl & Hf & _).
  split; [exact Hl | exact (proj1 (Hf Hl))].
Defined.

Lemma index_of_rename (f : string -> string) (cols : list string)
  (l : string) :
  NoDup (map f cols) -> In l cols ->
  index_of (f l) (map f cols) = index_of l cols.
Proof.
  induction cols as [|h t IH]; intros Hnd Hin; [destruct Hin|].
  simpl in *. apply NoDup_cons_iff in Hnd as [Hh Hnd].
  destruct (String.eqb l h) eqn:E.
  - apply String.eqb_eq in E as ->. now rewrite String.eqb_refl.
  - destruct Hin as [->|Hin]; [now rewrite String.eqb_refl in E|].
    destruct (String.eqb (f l) (f h)) eqn:E'.
    + apply String.eqb_eq in E'. exfalso. apply Hh. rewrite <- E'.
      now apply in_map.
    + now rewrite IH.
Qed.

Lemma has_column_In_iff (l : string) (c : CatTable) :
  has_column l c = true <-> In l (cat_columns c).
Proof.
  unfold has_column. rewrite existsb_exists. split.
  - intros (x & Hx & E). now apply String.eqb_eq in E as ->.
  - intro H. exists l. split; trivial. apply String.eqb_refl.
Qed.

(** X17. On a categorised run whose labels stay distinct under the
    mapping, [rename_cats] succeeds, and the new name of a category selects
    the tracks that its old name selected. *)
Theorem rename_cats_selects (mapping : list (string * string))
  (self : TrackRun) (c : CatTable) (l : string) :
  is_categorised self = true ->
  cats self = Some c ->
  NoDup (map (rename_label mapping) (cat_columns c)) ->
  In l (cat_columns c) ->
  l <> "all"%string ->
  rename_label mapping l <> "all"%string ->
  exists self',
    rename_cats mapping self = (Ok tt, self')
    /\ cat_labels self' = map (rename_label mapping) (cat_labels self)
    /\ getitem self' (SubStr (rename_label mapping l))
       = getitem self (SubStr l).
Proof.
  intros Hcat Hc Hnd Hin Hl Hl'.
  exists (set_cats (Some (rename_columns mapping c)) self).
  split; [|split].
  - unfold rename_cats, bind, get. now rewrite Hcat, Hc.
  - unfold cat_labels. cbn [cats set_cats]. now rewrite Hc.
  - unfold getitem, len. cbn [data set_cats is_categorised cats selects_all].
    apply String.eqb_neq in Hl, Hl'. rewrite Hl, Hl', Hc, Hcat.
    destruct (false || _); trivial.
    cbn [subset_labels select_loop and_mask].
    assert (has_column (rename_label mapping l) (rename_columns mapping c)
            = true) as ->.
    { apply has_column_In_iff. cbn [rename_columns cat_columns].
      now apply in_map. }
    assert (has_column l c = true) as -> by now apply has_column_In_iff.
    cbn [negb rbind]. f_equal.
    assert (cat_column (rename_label mapping l) (rename_columns mapping c)
            = cat_column l c) as ->; [|reflexivity].
    unfold cat_column, cell. cbn [rename_columns cat_columns cat_rows].
    apply map_ext. intro r. now rewrite index_of_rename.
Qed.

Lemma rename_cats_selects_witness :
  exists self',
    rename_cats [("long", "lengthy")]%string run_a_cats = (Ok tt, self')
    /\ cat_labels self' = ["strong"; "lengthy"]%string
    /\ getitem self' (SubStr "lengthy") = getitem run_a_cats (SubStr "long").
Proof.
  apply (rename_cats_selects
           [("long", "lengthy")]%string run_a_cats
           {| cat_columns := ["strong"%string; "long"%string];
              cat_rows := [ (3%Z, [true; true]); (7%Z, [true; false]) ] |}
           "long"%string eq_refl eq_refl).
  - repeat constructor; simpl; intuition discriminate.
  - right. left. reflexivity.
  - discriminate.
  - discriminate.
Defined.

Lemma rename_label_unknown (mapping : list (string * string))
  (cols : list string) :
  (forall l, In l cols -> dict_get l mapping = None) ->
  map (rename_label mapping) cols = cols.
Proof.
  intro H. rewrite <- (map_id cols) at 2. apply map_ext_in.
  intros l Hl. unfold rename_label. now rewrite (H l Hl).
Qed.

(** X18. A mapping whose keys are not categories of the run is no error:
    on a categorised run [rename_cats] succeeds and changes nothing. *)
Theorem rename_cats_ignores_unknown_keys (mapping : list (string * string))
  (self : TrackRun) (c : CatTable) :
  is_categorised self = true ->
  cats self = Some c ->
  (forall l, In l (cat_columns c) -> dict_get l mapping = None) ->
  rename_cats mapping self = (Ok tt, self).
Proof.
  intros Hcat Hc Hk. unfold rename_cats, bind, get. rewrite Hcat, Hc.
  unfold modify, rename_columns. rewrite (rename_label_unknown _ _ Hk).
  destruct self as [d cs ic ii t cf so], c as [cols rows].
  simpl in *. now rewrite Hc.
Qed.

Lemma rename_cats_ignores_unknown_keys_witness :
  rename_cats [("weak", "faint")]%string run_a_cats = (Ok tt, run_a_cats).
Proof.
  apply (rename_cats_ignores_unknown_keys
           [("weak", "faint")]%string run_a_cats
           {| cat_columns := ["strong"%string; "long"%string];
              cat_rows := [ (3%Z, [true; true]); (7%Z, [true; false]) ] |}
           eq_refl eq_refl).
  intros l [<-|[<-|[]]]; reflexivity.
Defined.

(* ================================================================= *)
(** ** [TrackRun.classify] *)

Lemma string_append_nil_r (s : string) : (s ++ "")%string = s.
Proof. induction s as [|a s IH]; simpl; now rewrite ?IH. Qed.

Lemma string_append_assoc (a b c : string) :
  ((a ++ b) ++ c)%string = (a ++ b ++ c)%string.
Proof. induction a as [|x a IH]; simpl; now rewrite ?IH. Qed.

Lemma string_length_append (a b : string) :
  String.length (a ++ b) = (String.length a + String.length b)%nat.
Proof. induction a as [|x a IH]; simpl; now rewrite ?IH. Qed.

Lemma prefix_refl (s : string) : String.prefix s s = true.
Proof.
  induction s as [|a s IH]; simpl; trivial.
  destruct (Ascii.ascii_dec a a); [assumption | congruence].
Qed.

Lemma contains_append_r (a s : string) : contains s (a ++ s) = true.
Proof.
  induction a as [|x a IH]; simpl.
  - destruct s; simpl; [reflexivity|].
    change (String.prefix (String a s) (String a s) || contains (String a s) s
            = true).
    now rewrite prefix_refl.
  - rewrite IH. apply orb_true_r.
Qed.

Lemma concat_last (sep x : string) (l : list string) :
  exists a, String.concat sep (l ++ [x]) = (a ++ x)%string.
Proof.
  induction l as [|h t [a IH]].
  - now exists ""%string.
  - exists (h ++ sep ++ a)%string. cbn [app String.concat].
    destruct (t ++ [x]) eqn:E; [now destruct t|].
    rewrite IH. now rewrite !string_append_assoc.
Qed.

(** The label of an inclusive category is the join of its own label and of
    the labels before it, the latest first. *)
Lemma inclusive_label_join (label : string) (previous : list string) :
  inclusive_label label previous
  = String.concat "|" (label :: rev previous).
Proof.
  unfold inclusive_label. cbn [String.concat].
  destruct previous as [|p previous]; simpl.
  - apply string_append_nil_r.
  - destruct (rev previous ++ [p]) eqn:E; [now destruct (rev previous)|].
    reflexivity.
Qed.

Lemma inclusive_label_longer (label : string) (previous : list string) :
  previous <> [] ->
  (String.length (String.concat "|" (rev previous))
   < String.length (inclusive_label label previous))%nat.
Proof.
  intro H. rewrite inclusive_label_join. cbn [String.concat].
  destruct (rev previous) eqn:E.
  - apply (f_equal (@rev string)) in E. rewrite rev_involutive in E.
    now destruct H.
  - rewrite !string_length_append. simpl. lia.
Qed.

Lemma inclusive_label_not_all (label : string) (previous : list string) :
  label <> "all"%string -> inclusive_label label previous <> "all"%string.
Proof.
  intro H. unfold inclusive_label. destruct previous as [|p previous].
  - simpl. now rewrite string_append_nil_r.
  - cbn [List.length Nat.ltb Nat.leb].
    generalize (String.concat "|" (rev (p :: previous))). intro s.
    destruct label as [|x [|y [|z [|w label]]]]; simpl; discriminate.
Qed.

Lemma inclusive_label_contains_first (label first : string)
  (previous : list string) :
  contains first (inclusive_label label (first :: previous)) = true.
Proof.
  rewrite inclusive_label_join. cbn [rev].
  destruct (concat_last "|" first (label :: rev previous)) as [a E].
  change (label :: rev previous ++ [first])
    with ((label :: rev previous) ++ [first]).
  rewrite E. apply contains_append_r.
Qed.

Lemma new_labels_raise (inclusive : bool) (conditions : list condition)
  (previous : list string) :
  In "all"%string (map fst conditions) ->
  cond_with_new_labels inclusive previous conditions = Raise ArgumentError.
Proof.
  revert previous.
  induction conditions as [|[label funcs] rest IH]; intros previous Hin;
    [destruct Hin|].
  cbn [cond_with_new_labels]. destruct (String.eqb label "all") eqn:E; trivial.
  destruct Hin as [Hl|Hin].
  - simpl in Hl. subst label. discriminate.
  - now rewrite IH.
Qed.

Lemma new_labels_ok (inclusive : bool) (conditions : list condition)
  (previous : list string) :
  ~ In "all"%string (map fst conditions) ->
  exists conds,
    cond_with_new_labels inclusive previous conditions = Ok conds
    /\ List.length conds = List.length conditions.
Proof.
  revert previous.
  induction conditions as [|[label funcs] rest IH]; intros previous Hall.
  - now exists [].
  - cbn [cond_with_new_labels]. simpl in Hall.
    destruct (String.eqb_spec label "all") as [->|Hl]; [tauto|].
    destruct (IH (previous ++ [label])) as (tail & -> & Hlen); [tauto|].
    eexists. split; [reflexivity|]. simpl. now rewrite Hlen.
Qed.

Lemma new_labels_plain (conditions conds : list condition)
  (previous : list string) :
  cond_with_new_labels false previous conditions = Ok conds ->
  conds = conditions.
Proof.
  revert previous conds.
  induction conditions as [|[label funcs] rest IH]; intros previous conds.
  - intro H. now injection H as <-.
  - cbn [cond_with_new_labels].
    destruct (String.eqb label "all"); [discriminate|].
    destruct (cond_with_new_labels false (previous ++ [label]) rest)
      as [tail|e] eqn:E; [|discriminate].
    intro H. injection H as <-. now rewrite (IH _ _ E).
Qed.

(** Where a condition goes in the list with the new labels. *)
Lemma new_labels_split (before after : list condition) (label : string)
  (funcs : list (OctantTrack -> bool)) (previous : list string)
  (conds : list condition) :
  cond_with_new_labels true previous (before ++ (label, funcs) :: after)
  = Ok conds ->
  exists pre post,
    conds = pre ++ (inclusive_label label (previous ++ map fst before),
                    funcs) :: post
    /\ map snd pre = map snd before.
Proof.
  revert previous conds.
  induction before as [|[l0 f0] before IH]; intros previous conds.
  - cbn [app cond_with_new_labels].
    destruct (String.eqb label "all"); [discriminate|].
    destruct (cond_with_new_labels true (previous ++ [label]) after)
      as [tail|e]; [|discriminate].
    intro H. injection H as <-. exists [], tail.
    simpl. now rewrite app_nil_r.
  - cbn [app cond_with_new_labels].
    destruct (String.eqb l0 "all"); [discriminate|].
    destruct (cond_with_new_labels true (previous ++ [l0])
                (before ++ (label, funcs) :: after))
      as [tail|e] eqn:E; [|discriminate].
    intro H. injection H as <-.
    destruct (IH _ _ E) as (pre & post & -> & Hpre).
    exists ((inclusive_label l0 previous, f0) :: pre), post.
    cbn [map fst snd app]. rewrite <- app_assoc. cbn [app].
    now rewrite Hpre.
Qed.

Lemma new_labels_longer (conditions conds : list condition)
  (previous : list string) :
  previous <> [] ->
  cond_with_new_labels true previous conditions = Ok conds ->
  forall lab, In lab (map fst conds) ->
    (String.length (String.concat "|" (rev previous))
     < String.length lab)%nat.
Proof.
  revert previous conds.
  induction conditions as [|[label funcs] rest IH]; intros previous conds Hp.
  - intro H. injection H as <-. intros lab [].
  - cbn [cond_with_new_labels].
    destruct (String.eqb label "all"); [discriminate|].
    destruct (cond_with_new_labels true (previous ++ [label]) rest)
      as [tail|e] eqn:E; [|discriminate].
    intro H. injection H as <-. intros lab [<-|Hin].
    + now apply inclusive_label_longer.
    + assert (previous ++ [label] <> []) as Hp' by now destruct previous.
      pose proof (IH _ _ Hp' E lab Hin) as Hlt.
      rewrite rev_app_distr in Hlt. cbn [rev app] in Hlt.
      rewrite <- inclusive_label_join in Hlt.
      pose proof (inclusive_label_longer label previous Hp). lia.
Qed.

(** The labels of inclusive categories are distinct, whatever the labels
    of the conditions are. *)
Lemma new_labels_nodup (conditions conds : list condition)
  (previous : list string) :
  cond_with_new_labels true previous conditions = Ok conds ->
  NoDup (map fst conds).
Proof.
  revert previous conds.
  induction conditions as [|[label funcs] rest IH]; intros previous conds.
  - intro H. injection H as <-. constructor.
  - cbn [cond_with_new_labels].
    destruct (String.eqb label "all"); [discriminate|].
    destruct (cond_with_new_labels true (previous ++ [label]) rest)
      as [tail|e] eqn:E; [|discriminate].
    intro H. injection H as <-. cbn [map fst]. constructor.
    + intro Hin.
      assert (previous ++ [label] <> []) as Hp' by now destruct previous.
      pose proof (new_labels_longer _ _ _ Hp' E _ Hin) as Hlt.
      rewrite rev_app_distr in Hlt. cbn [rev app] in Hlt.
      rewrite <- inclusive_label_join in Hlt. lia.
    + exact (IH _ _ E).
Qed.

Lemma new_labels_contain_first (conditions conds : list condition)
  (first : string) (previous : list string) :
  cond_with_new_labels true (first :: previous) conditions = Ok conds ->
  forall lab, In lab (map fst conds) -> contains first lab = true.
Proof.
  revert previous conds.
  induction conditions as [|[label funcs] rest IH]; intros previous conds.
  - intro H. injection H as <-. intros lab [].
  - cbn [cond_with_new_labels].
    destruct (String.eqb label "all"); [discriminate|].
    destruct (cond_with_new_labels true ((first :: previous) ++ [label]) rest)
      as [tail|e] eqn:E; [|discriminate].
    intro H. injection H as <-. intros lab [<-|Hin].
    + apply inclusive_label_contains_first.
    + exact (IH _ _ E lab Hin).
Qed.

(** *** The frame of categories after the loop *)

Lemma classify_track_rows (inclusive : bool) (conds : list condition)
  (c : CatTable) (g : Z * list Row) :
  classify_track inclusive conds c g
  = {| cat_columns := cat_columns c;
       cat_rows := map (fun r => row_track inclusive conds (cat_columns c) r g)
                       (cat_rows c) |}.
Proof.
  unfold classify_track, row_track.
  generalize (track_flags inclusive true (snd g) conds). intro flags.
  revert c. induction flags as [|lf flags IH]; intro c.
  - simpl. rewrite map_id. now destruct c.
  - cbn [fold_left]. rewrite IH. destruct lf as [l [|]]; [|reflexivity].
    cbn [fst snd set_true cat_columns cat_rows]. now rewrite map_map.
Qed.

Lemma classify_rows (inclusive : bool) (conds : list condition)
  (groups : list (Z * list Row)) (c : CatTable) :
  fold_left (classify_track inclusive conds) groups c
  = {| cat_columns := cat_columns c;
       cat_rows :=
         map (fun r => fold_left (row_track inclusive conds (cat_columns c))
                                 groups r)
             (cat_rows c) |}.
Proof.
  revert c. induction groups as [|g groups IH]; intro c.
  - simpl. rewrite map_id. now destruct c.
  - cbn [fold_left]. rewrite IH, classify_track_rows.
    cbn [cat_columns cat_rows]. now rewrite map_map.
Qed.

Lemma cell_set_true (label : string) (cols : list string)
  (flags : list bool) (col : string) :
  List.length flags = List.length cols -> In col cols ->
  cell cols (map (fun p => String.eqb label (fst p) || snd p)
                 (combine cols flags)) col
  = String.eqb label col || cell cols flags col.
Proof.
  revert flags. induction cols as [|h t IH]; intros flags Hlen Hin;
    [destruct Hin|].
  destruct flags as [|f flags]; [discriminate|].
  injection Hlen as Hlen. cbn [combine map fst snd].
  destruct (String.eqb col h) eqn:E.
  - rewrite !cell_cons_eq by assumption.
    now apply String.eqb_eq in E as ->.
  - rewrite !cell_cons_ne by assumption. apply IH; trivial.
    destruct Hin as [->|Hin]; trivial. now rewrite String.eqb_refl in E.
Qed.

Lemma row_step_spec (i : Z) (cols : list string) (r : Z * list bool)
  (lf : string * bool) (col : string) :
  List.length (snd r) = List.length cols -> In col cols ->
  fst (row_step i cols r lf) = fst r
  /\ List.length (snd (row_step i cols r lf)) = List.length cols
  /\ cell cols (snd (row_step i cols r lf)) col
     = ((fst r =? i)%Z && (String.eqb (fst lf) col && snd lf))
       || cell cols (snd r) col.
Proof.
  intros Hlen Hin. unfold row_step, set_true_row.
  destruct (snd lf).
  - destruct (fst r =? i)%Z; cbn [fst snd].
    + split; trivial. split.
      * rewrite length_map, length_combine, Hlen. apply Nat.min_id.
      * rewrite cell_set_true by assumption. now rewrite andb_true_r.
    + auto.
  - rewrite !andb_false_r. auto.
Qed.

Lemma row_flags_spec (i : Z) (cols : list string)
  (flags : list (string * bool)) (r : Z * list bool) (col : string) :
  List.length (snd r) = List.length cols -> In col cols ->
  fst (fold_left (row_step i cols) flags r) = fst r
  /\ List.length (snd (fold_left (row_step i cols) flags r))
     = List.length cols
  /\ cell cols (snd (fold_left (row_step i cols) flags r)) col
     = ((fst r =? i)%Z && flagged col flags) || cell cols (snd r) col.
Proof.
  intros Hlen Hin. revert r Hlen.
  induction flags as [|lf flags IH]; intros r Hlen.
  - simpl. rewrite andb_false_r. auto.
  - cbn [fold_left].
    destruct (row_step_spec i cols r lf col Hlen Hin) as (Hf & Hl & Hc).
    destruct (IH _ Hl) as (Hf' & Hl' & Hc').
    rewrite Hf', Hl', Hc', Hf, Hc. split; trivial. split; trivial.
    unfold flagged. cbn [existsb].
    destruct (fst r =? i)%Z, (String.eqb (fst lf) col && snd lf),
      (existsb _ flags), (cell cols (snd r) col); reflexivity.
Qed.

Lemma row_groups_spec (inclusive : bool) (conds : list condition)
  (cols : list string) (groups : list (Z * list Row)) (r : Z * list bool)
  (col : string) :
  List.length (snd r) = List.length cols -> In col cols ->
  fst (fold_left (row_track inclusive conds cols) groups r) = fst r
  /\ cell cols (snd (fold_left (row_track inclusive conds cols) groups r)) col
     = existsb (fun g => (fst r =? fst g)%Z
                         && flagged col (track_flags inclusive true (snd g)
                                                     conds))
               groups
       || cell cols (snd r) col.
Proof.
  intros Hlen Hin. revert r Hlen.
  induction groups as [|g groups IH]; intros r Hlen.
  - simpl. auto.
  - cbn [fold_left existsb]. unfold row_track at 2 4.
    destruct (row_flags_spec (fst g) cols
                (track_flags inclusive true (snd g) conds) r col Hlen Hin)
      as (Hf & Hl & Hc).
    destruct (IH _ Hl) as (Hf' & Hc').
    rewrite Hf', Hc', Hf, Hc. split; trivial.
    now rewrite orb_assoc, (orb_comm (existsb _ groups)).
Qed.

Lemma gb_pick (d : OctantTrack) (i : Z) (P : list Row -> bool) :
  In i (map track_idx d) ->
  existsb (fun g => (i =? fst g)%Z && P (snd g)) (gb d) = P (rows_of i d).
Proof.
  intro Hin. apply eq_iff_eq_true. rewrite existsb_exists. split.
  - intros ([k ot] & Hg & H). apply andb_true_iff in H as [Hk HP].
    apply Z.eqb_eq in Hk. simpl in Hk, HP. subst k.
    unfold gb in Hg. apply in_map_iff in Hg as (k & E & _).
    injection E as -> <-. exact HP.
  - intro HP. exists (i, rows_of i d). split.
    + unfold gb. apply in_map_iff. exists i. split; trivial.
      unfold group_keys. clear HP.
      induction (map track_idx d) as [|k ks IH]; [destruct Hin|].
      simpl. apply insert_key_in. destruct Hin as [->|Hin]; auto.
    + simpl. now rewrite Z.eqb_refl.
Qed.

Lemma unique_In (l : list Z) (i : Z) : In i (unique l) <-> In i l.
Proof.
  induction l as [|x t IH]; simpl; [tauto|].
  rewrite filter_In, IH, negb_true_iff, Z.eqb_neq.
  destruct (Z.eq_dec x i); intuition congruence.
Qed.

Lemma cell_repeat_false (cols : list string) (n : nat) (col : string) :
  cell cols (repeat false n) col = false.
Proof.
  unfold cell. destruct (index_of col cols); trivial. apply nth_repeat.
Qed.

(** The run after [classify], and what a selection by one of its labels
    gives: the rows of the tracks for which the loop sets the label. *)
Lemma classify_cases (conditions : list condition) (inclusive : bool)
  (self : TrackRun) :
  classify conditions inclusive self
  = match cond_with_new_labels inclusive [] conditions with
    | Raise e => (Raise e, without_cats self inclusive)
    | Ok conds =>
        (Ok tt,
         {| data := data self;
            cats :=
              Some (fold_left (classify_track inclusive conds)
                      (gb (data self))
                      {| cat_columns := map fst conds;
                         cat_rows :=
                           map (fun i => (i, repeat false (List.length conds)))
                               (unique (map track_idx (data self))) |});
            is_categorised := true; is_cat_inclusive := inclusive;
            tstep_h := tstep_h self; conf := conf self;
            sources := sources self |})
    end.
Proof.
  unfold classify, bind. rewrite clear_categories_cases.
  unfold modify, lift, get. cbn [set_is_cat_inclusive without_cats data cats
    is_categorised is_cat_inclusive tstep_h conf sources].
  destruct (cond_with_new_labels inclusive [] conditions); reflexivity.
Qed.

Lemma classified_selection (inclusive : bool) (conds : list condition)
  (self self' : TrackRun) (lab : string) :
  self' = {| data := data self;
             cats :=
               Some (fold_left (classify_track inclusive conds)
                       (gb (data self))
                       {| cat_columns := map fst conds;
                          cat_rows :=
                            map (fun i => (i, repeat false (List.length conds)))
                                (unique (map track_idx (data self))) |});
             is_categorised := true; is_cat_inclusive := inclusive;
             tstep_h := tstep_h self; conf := conf self;
             sources := sources self |} ->
  In lab (map fst conds) ->
  lab <> "all"%string ->
  getitem self' (SubStr lab)
  = Ok (filter (fun r => flagged lab
                           (track_flags inclusive true
                              (rows_of (track_idx r) (data self)) conds))
               (data self)).
Proof.
  intros -> Hin Hall. unfold getitem, len.
  cbn [data cats is_categorised selects_all subset_labels].
  apply String.eqb_neq in Hall. rewrite Hall. cbn [orb].
  destruct (nunique (map track_idx (data self)) =? 0)%nat eqn:E.
  { apply Nat.eqb_eq, nunique_zero, map_eq_nil in E. now rewrite E. }
  rewrite classify_rows. cbn [cat_columns cat_rows select_loop].
  set (cols := map fst conds).
  set (rows := map (fun r => fold_left (row_track inclusive conds cols)
                                       (gb (data self)) r)
                   (map (fun i => (i, repeat false (List.length conds)))
                        (unique (map track_idx (data self))))).
  assert (has_column lab {| cat_columns := cols; cat_rows := rows |} = true)
    as -> by now apply has_column_In_iff.
  cbn [negb and_mask rbind]. unfold cat_column. cbn [cat_columns cat_rows].
  rewrite masked_index_map. f_equal. unfold loc.
  apply filter_ext_in. intros r Hr.
  assert (In (track_idx r) (map track_idx (data self))) as Hi
      by now apply in_map.
  assert (forall i : Z,
             List.length (snd (i, repeat false (List.length conds)))
             = List.length cols) as Hlen.
  { intro i. cbn [snd]. unfold cols. now rewrite repeat_length, length_map. }
  pose proof (gb_pick (data self) (track_idx r)
                (fun ot => flagged lab (track_flags inclusive true ot conds))
                Hi) as Hpick.
  cbv beta in Hpick.
  apply eq_iff_eq_true. rewrite existsb_exists. split.
  - intros (i & Hidx & Ei). apply Z.eqb_eq in Ei. subst i.
    apply in_map_iff in Hidx as (row & Hfst & Hrow).
    apply filter_In in Hrow as [Hrow Hcell]. unfold rows in Hrow.
    apply in_map_iff in Hrow as (r0 & <- & Hr0).
    apply in_map_iff in Hr0 as (i & <- & _).
    destruct (row_groups_spec inclusive conds cols (gb (data self))
                (i, repeat false (List.length conds)) lab (Hlen i) Hin)
      as (Hf & Hc).
    rewrite Hf in Hfst. cbn [fst] in Hfst. subst i.
    rewrite Hc in Hcell. cbn [fst snd] in Hcell.
    rewrite cell_repeat_false, orb_false_r in Hcell.
    exact (eq_trans (eq_sym Hpick) Hcell).
  - intro Hflag. exists (track_idx r). split; [|apply Z.eqb_refl].
    destruct (row_groups_spec inclusive conds cols (gb (data self))
                (track_idx r, repeat false (List.length conds)) lab
                (Hlen _) Hin) as (Hf & Hc).
    apply in_map_iff.
    exists (fold_left (row_track inclusive conds cols) (gb (data self))
                      (track_idx r, repeat false (List.length conds))).
    split; [exact Hf|]. apply filter_In. split.
    + unfold rows. apply in_map_iff. eexists. split; [reflexivity|].
      apply in_map_iff. exists (track_idx r). split; trivial.
      now apply unique_In.
    + rewrite Hc. cbn [fst snd]. rewrite cell_repeat_false, orb_false_r.
      exact (eq_trans Hpick Hflag).
Qed.

Lemma fold_left_and (funcs : list (OctantTrack -> bool)) (ot : OctantTrack)
  (init : bool) :
  fold_left (fun flag func => flag && func ot) funcs init
  = init && passes funcs ot.
Proof.
  revert init. induction funcs as [|f funcs IH]; intro init; simpl.
  - now rewrite andb_true_r.
  - rewrite IH. unfold passes. now rewrite andb_assoc.
Qed.

Lemma passes_app (a b : list (OctantTrack -> bool)) (ot : OctantTrack) :
  passes (a ++ b) ot = passes a ot && passes b ot.
Proof. apply forallb_app. Qed.

Lemma track_flags_labels (inclusive prev : bool) (ot : OctantTrack)
  (conds : list condition) :
  map fst (track_flags inclusive prev ot conds) = map fst conds.
Proof.
  revert prev. induction conds as [|[l f] conds IH]; intro prev; trivial.
  cbn [track_flags map fst]. now rewrite IH.
Qed.

Lemma flagged_notin (col : string) (flags : list (string * bool)) :
  ~ In col (map fst flags) -> flagged col flags = false.
Proof.
  induction flags as [|[l b] flags IH]; intro H; trivial.
  unfold flagged in *. cbn [existsb fst snd]. simpl in H.
  rewrite IH by tauto.
  destruct (String.eqb_spec l col) as [->|]; [tauto | reflexivity].
Qed.

(** The flag of a label that occurs once among the conditions. *)
Lemma flagged_at (inclusive prev : bool) (ot : OctantTrack)
  (pre post : list condition) (lab : string)
  (funcs : list (OctantTrack -> bool)) :
  NoDup (map fst (pre ++ (lab, funcs) :: post)) ->
  flagged lab (track_flags inclusive prev ot (pre ++ (lab, funcs) :: post))
  = if inclusive
    then prev && passes (List.concat (map snd pre) ++ funcs) ot
    else passes funcs ot.
Proof.
  revert prev. induction pre as [|[l0 f0] pre IH]; intros prev Hnd.
  - cbn [app track_flags]. unfold flagged. cbn [existsb fst snd].
    rewrite String.eqb_refl. cbn [andb].
    simpl in Hnd. apply NoDup_cons_iff in Hnd as [Hl _].
    fold (flagged lab (track_flags inclusive
                         (if inclusive
                          then fold_left (fun flag func => flag && func ot)
                                         funcs
                                         (if inclusive then prev else true)
                          else prev) ot post)).
    rewrite flagged_notin by now rewrite track_flags_labels.
    rewrite orb_false_r, fold_left_and. now destruct inclusive.
  - cbn [app track_flags]. unfold flagged. cbn [existsb fst snd].
    simpl in Hnd. apply NoDup_cons_iff in Hnd as [Hl Hnd].
    assert (String.eqb l0 lab = false) as ->.
    { apply String.eqb_neq. intros ->. apply Hl.
      rewrite map_app. apply in_or_app. right. now left. }
    cbn [andb orb].
    fold (flagged lab (track_flags inclusive
                         (if inclusive
                          then fold_left (fun flag func => flag && func ot)
                                         f0
                                         (if inclusive then prev else true)
                          else prev) ot (pre ++ (lab, funcs) :: post))).
    rewrite (IH _ Hnd). destruct inclusive; trivial.
    rewrite fold_left_and. cbn [map snd List.concat].
    rewrite <- app_assoc, (passes_app f0). now rewrite andb_assoc.
Qed.

(** X19. A condition with the label "all" makes [classify] fail with an
    ArgumentError, after the categories of the run were cleared: the run
    is left with no category and not categorised, and with the new value
    of [is_cat_inclusive]. *)
Theorem classify_all_label_wipes_categories (conditions : list condition)
  (inclusive : bool) (self : TrackRun) :
  In "all"%string (map fst conditions) ->
  classify conditions inclusive self
  = (Raise ArgumentError, without_cats self inclusive).
Proof.
  intro H. rewrite classify_cases. now rewrite new_labels_raise.
Qed.

Lemma classify_all_label_wipes_categories_witness :
  classify (sample_conditions ++ [("all"%string, [])]) true run_a_cats
  = (Raise ArgumentError, without_cats run_a_cats true).
Proof.
  apply (classify_all_label_wipes_categories
           (sample_conditions ++ [("all"%string, [])]) true run_a_cats).
  right. right. left. reflexivity.
Defined.

(** X20. With distinct labels other than "all", a categorisation that is
    not inclusive succeeds, keeps the tracks, and makes the labels of the
    conditions the categories; the selection by one of the labels then
    gives the rows of the tracks that pass every function of its
    condition. *)
Theorem classify_selects (conditions : list condition) (self : TrackRun)
  (label : string) (funcs : list (OctantTrack -> bool)) :
  ~ In "all"%string (map fst conditions) ->
  NoDup (map fst conditions) ->
  In (label, funcs) conditions ->
  exists self',
    classify conditions false self = (Ok tt, self')
    /\ data self' = data self
    /\ cat_labels self' = map fst conditions
    /\ is_categorised self' = true
    /\ getitem self' (SubStr label) = Ok (tracks_passing funcs (data self)).
Proof.
  intros Hall Hnd Hin. rewrite classify_cases.
  destruct (new_labels_ok false conditions [] Hall) as (conds & E & _).
  rewrite E. apply new_labels_plain in E. subst conds.
  eexists. split; [reflexivity|]. split; [reflexivity|].
  split; [|split; [reflexivity|]].
  - unfold cat_labels. cbn [cats]. now rewrite classify_rows.
  - rewrite (classified_selection false conditions self _ label eq_refl).
    + unfold tracks_passing. apply f_equal. apply filter_ext. intro r.
      apply in_split in Hin as (pre & post & ->).
      now rewrite flagged_at.
    + apply in_map_iff. now exists (label, funcs).
    + intros ->. apply Hall. apply in_map_iff. now exists ("all"%string, funcs).
Qed.

Lemma classify_selects_witness :
  exists self',
    classify sample_conditions false run_a = (Ok tt, self')
    /\ data self' = data run_a
    /\ cat_labels self' = ["long"; "east"]%string
    /\ is_categorised self' = true
    /\ getitem self' (SubStr "east")
       = Ok (tracks_passing [starts_east] (data run_a)).
Proof.
  apply (classify_selects sample_conditions run_a "east"%string
                          [starts_east]).
  - simpl. intuition discriminate.
  - repeat constructor; simpl; intuition discriminate.
  - right. left. reflexivity.
Defined.

(** X21. An inclusive categorisation with labels other than "all"
    succeeds, whether the labels are distinct or not. The category of a
    condition is named by its label, followed by the labels of the
    conditions before it, and its selection gives the rows of the tracks
    that pass every function of this condition and of the conditions
    before it. *)
Theorem classify_inclusive_selects (before after : list condition)
  (label : string) (funcs : list (OctantTrack -> bool)) (self : TrackRun) :
  ~ In "all"%string (map fst (before ++ (label, funcs) :: after)) ->
  exists self',
    classify (before ++ (label, funcs) :: after) true self = (Ok tt, self')
    /\ data self' = data self
    /\ is_cat_inclusive self' = true
    /\ getitem self' (SubStr (inclusive_label label (map fst before)))
       = Ok (tracks_passing (List.concat (map snd before) ++ funcs)
                            (data self)).
Proof.
  intro Hall. rewrite classify_cases.
  destruct (new_labels_ok true _ [] Hall) as (conds & E & _).
  rewrite E. eexists. split; [reflexivity|]. split; [reflexivity|].
  split; [reflexivity|].
  pose proof (new_labels_nodup _ _ _ E) as Hnd.
  destruct (new_labels_split _ _ _ _ _ _ E) as (pre & post & -> & Hpre).
  cbn [app] in *.
  rewrite (classified_selection true _ self _
             (inclusive_label label (map fst before)) eq_refl).
  - unfold tracks_passing. apply f_equal. apply filter_ext. intro r.
    rewrite flagged_at by assumption. now rewrite Hpre.
  - rewrite map_app. apply in_or_app. right. now left.
  - apply inclusive_label_not_all. intros ->. apply Hall.
    rewrite map_app. apply in_or_app. right. now left.
Qed.

Lemma classify_inclusive_selects_witness :
  exists self',
    classify sample_conditions true run_a = (Ok tt, self')
    /\ data self' = data run_a
    /\ is_cat_inclusive self' = true
    /\ getitem self' (SubStr "east|long")
       = Ok (tracks_passing [is_long; starts_east] (data run_a)).
Proof.
  apply (classify_inclusive_selects
           [("long"%string, [is_long])] [] "east"%string [starts_east]
           run_a).
  simpl. intuition discriminate.
Defined.

Lemma clear_matching_all (label : string) (s : TrackRun) (c : CatTable) :
  cats s = Some c ->
  is_cat_inclusive s = true ->
  (forall l, In l (cat_columns c) -> contains label l = true) ->
  exists cleared,
    clear_categories (Some label) None s = (Ok tt, cleared)
    /\ cat_labels cleared = []
    /\ is_categorised cleared = false
    /\ is_cat_inclusive cleared = false
    /\ data cleared = data s.
Proof.
  intros Hc Hi Hall. rewrite clear_categories_cases, Hc, Hi.
  cbv beta zeta.
  assert (cat_columns (drop_columns (contains label) c) = []) as Hnone.
  { unfold drop_columns. cbn [cat_columns]. apply filter_nothing.
    intros l Hl. now rewrite (Hall l Hl). }
  rewrite Hnone. cbn [List.length Nat.eqb].
  eexists. split; [reflexivity|]. unfold cat_labels. cbn [cats].
  now rewrite Hnone.
Qed.

(** X22. After an inclusive categorisation, clearing the label of the
    first condition destroys every category: each of them carries this
    label in its name. The run is then not categorised, and keeps its
    tracks. *)
Theorem classify_inclusive_then_clear_first (first : string)
  (funcs : list (OctantTrack -> bool)) (rest : list condition)
  (self : TrackRun) :
  ~ In "all"%string (map fst ((first, funcs) :: rest)) ->
  exists classified cleared,
    classify ((first, funcs) :: rest) true self = (Ok tt, classified)
    /\ clear_categories (Some first) None classified = (Ok tt, cleared)
    /\ cat_labels cleared = []
    /\ is_categorised cleared = false
    /\ is_cat_inclusive cleared = false
    /\ data cleared = data self.
Proof.
  intro Hall. rewrite classify_cases.
  destruct (new_labels_ok true _ [] Hall) as (conds & E & _).
  rewrite E.
  match goal with
  | |- exists classified cleared, (_, ?s) = _ /\ _ =>
      destruct (clear_matching_all first s
                  (fold_left (classify_track true conds) (gb (data self))
                     {| cat_columns := map fst conds;
                        cat_rows :=
                          map (fun i => (i, repeat false (List.length conds)))
                              (unique (map track_idx (data self))) |})
                  eq_refl eq_refl)
        as (cleared & Hclear & Hrest);
      [|exists s, cleared; split; [reflexivity|]; split; assumption]
  end.
  rewrite classify_rows. cbn [cat_columns].
  cbn [cond_with_new_labels] in E.
  destruct (String.eqb first "all"); [discriminate|].
  destruct (cond_with_new_labels true ([] ++ [first]) rest)
    as [tail|e] eqn:Et; [|discriminate].
  injection E as <-. cbn [map fst].
  intros l [<-|Hl].
  - rewrite inclusive_label_join. cbn [rev String.concat].
    exact (contains_append_r "" first).
  - exact (new_labels_contain_first _ _ _ _ Et l Hl).
Qed.

Lemma classify_inclusive_then_clear_first_witness :
  exists classified cleared,
    classify sample_conditions true run_a = (Ok tt, classified)
    /\ clear_categories (Some "long"%string) None classified
       = (Ok tt, cleared)
    /\ cat_labels cleared = []
    /\ is_categorised cleared = false
    /\ is_cat_inclusive cleared = false
    /\ data cleared = data run_a.
Proof.
  apply (classify_inclusive_then_clear_first
           "long"%string [is_long] [("east"%string, [starts_east])] run_a).
  simpl. intuition discriminate.
Defined.

(* ================================================================= *)
(** ** [TrackRun.extend] by a run without tracks *)

(** X23. Extending a run by a new, empty TrackRun never fails, whatever
    the flags and the time step of the run are; it re-indexes the tracks
    and the categories of the run and changes nothing else. *)
Theorem extend_by_empty_run (self : TrackRun) (adapt_conf : bool) :
  extend init adapt_conf self
  = (Ok tt,
     {| data := reindex (data self);
        cats := option_map reindex_cats (cats self);
        is_categorised := is_categorised self;
        is_cat_inclusive := is_cat_inclusive self;
        tstep_h := tstep_h self; conf := conf self;
        sources := sources self |}).
Proof.
  destruct self as [d cs ic ii t cf so].
  cbv [extend bind check_cat_metadata check_tstep merge_conf concat_data
       concat_categories get lift modify ret raise size getitem rbind
       selects_all orb init data cats is_categorised is_cat_inclusive
       tstep_h conf sources set_tstep_h set_sources set_data set_cats
       set_is_categorised set_is_cat_inclusive concat_cats option_map].
  cbn [map nunique nodup List.length Nat.ltb Nat.leb].
  rewrite andb_false_r.
  destruct t as [q|], cs as [c|]; cbv beta iota; now rewrite !app_nil_r.
Qed.
